(** * faas-cli: the [build] command

    A shallow embedding of [commands/build.go] (the concurrent build
    dispatcher [build], its caller [runBuild] and the flag validation
    [preRunBuild]) and of [parseMap] from [commands/deploy.go].

    Go strings are byte sequences: they are modelled as [string].  A Go
    [int] loop counter that is bounded by another [int] cannot wrap, so
    [queueDepth] and the worker indices are plain [Z]. *)

From Stdlib Require Import Ascii String ZArith Lia.
From stdpp Require Import base option list strings gmap.

Local Open Scope string_scope.
Local Open Scope list_scope.

(** ** Outcomes of fallible Go code

    A Go function returning [(T, error)] either yields a value or an
    error; independently of that, an out-of-range index makes the
    runtime panic, which unwinds the whole call stack. *)

Inductive outcome (A : Type) : Type :=
| Ok (a : A)
| Err (msg : string)
| Panic.

Arguments Ok {A} a.
Arguments Err {A} msg.
Arguments Panic {A}.

(** ** [strings.SplitN(s, "=", 2)] *)

(** [cut sep s] splits [s] around the first occurrence of the byte [sep]. *)
Fixpoint cut (sep : ascii) (s : string) : option (string * string) :=
  match s with
  | EmptyString => None
  | String c s' =>
      if Ascii.eqb c sep then Some (EmptyString, s')
      else match cut sep s' with
           | Some (a, b) => Some (String c a, b)
           | None => None
           end
  end.

(** With a limit of two, [SplitN] returns the text before the first
    separator and the unsplit remainder, or the whole string alone when
    the separator does not occur (also for the empty string). *)
Definition SplitN2 (s : string) (sep : ascii) : list string :=
  match cut sep s with
  | Some (a, b) => [a; b]
  | None => [s]
  end.

(** [contains sep s]: the byte [sep] occurs in [s]. *)
Fixpoint contains (sep : ascii) (s : string) : bool :=
  match s with
  | EmptyString => false
  | String c s' => Ascii.eqb c sep || contains sep s'
  end.

(** An instance of [strings.TrimSpace] for strings whose bytes are all
    ASCII: it strips the six ASCII white-space bytes from both ends. *)
Definition is_ascii_space (c : ascii) : bool :=
  let n := nat_of_ascii c in
  (n =? 32)%nat || ((9 <=? n)%nat && (n <=? 13)%nat).

Fixpoint trim_left (s : string) : string :=
  match s with
  | String c s' => if is_ascii_space c then trim_left s' else s
  | EmptyString => EmptyString
  end.

Fixpoint trim_right (s : string) : string :=
  match s with
  | EmptyString => EmptyString
  | String c s' =>
      match trim_right s' with
      | EmptyString => if is_ascii_space c then EmptyString else String c EmptyString
      | t => String c t
      end
  end.

Definition TrimSpace_ascii (s : string) : string := trim_right (trim_left s).

(** ** [parseMap] (commands/deploy.go) *)

Section ParseMap.

(** [strings.TrimSpace] belongs to the Go standard library; nothing
    below depends on which bytes it removes. *)
Variable TrimSpace : string -> string.

(** [fmt.Errorf("Empty %s name: [%s]", keyName, envvar)] *)
Definition empty_name_error (keyName envvar : string) : string :=
  "Empty " +:+ keyName +:+ " name: [" +:+ envvar +:+ "]".

(** [fmt.Errorf("Empty %s value: [%s]", keyName, envvar)] *)
Definition empty_value_error (keyName envvar : string) : string :=
  "Empty " +:+ keyName +:+ " value: [" +:+ envvar +:+ "]".

(** The body of the [for _, envvar := range envvars] loop, threading
    the map under construction.  [s[0]] and [s[1]] are both read before
    either emptiness test, so a slice of length one panics. *)
Fixpoint parseMap_from (result : gmap string string) (envvars : list string)
    (keyName : string) : outcome (gmap string string) :=
  match envvars with
  | [] => Ok result
  | envvar :: rest =>
      let s := SplitN2 (TrimSpace envvar) "=" in
      match s !! 0%nat, s !! 1%nat with
      | Some envvarName, Some envvarValue =>
          if negb (0 <? String.length envvarName)%nat then
            Err (empty_name_error keyName envvar)
          else if negb (0 <? String.length envvarValue)%nat then
            Err (empty_value_error keyName envvar)
          else parseMap_from (<[envvarName := envvarValue]> result) rest keyName
      | _, _ => Panic
      end
  end.

Definition parseMap (envvars : list string) (keyName : string)
  : outcome (gmap string string) :=
  parseMap_from ∅ envvars keyName.

(** An entry that the loop body accepts: after trimming it reads
    [k=v] with [k] free of ['='] and both parts non-empty. *)
Definition well_formed_entry (envvar : string) : Prop :=
  ∃ k v, cut "=" (TrimSpace envvar) = Some (k, v) ∧ k ≠ "" ∧ v ≠ "".

(** An entry with an empty key or an empty value around its first ['=']. *)
Definition empty_side_entry (envvar : string) : Prop :=
  ∃ k v, cut "=" (TrimSpace envvar) = Some (k, v) ∧ (k = "" ∨ v = "").

End ParseMap.

(** ** The data model (package [stack] and the flag variables) *)

(** Modelled from the spec: the struct [stack.Function] is declared in
    the [stack] package, outside the sources at hand.  These are the
    fields [build] reads, as the spec's FunctionDescriptor lists them. *)
Record Function : Type := mkFunction {
  Name : string;
  Language : string;
  Handler : string;
  Image : string;
  SkipBuild : bool;
}.

(** [stack.Services.Functions] is a Go map from the manifest key to
    the function.  A [range] over it visits every entry once in an
    order chosen by the runtime: the list is the map in the order of
    that one iteration, and its keys are pairwise distinct. *)
Record Services : Type := mkServices {
  Functions : list (string * Function);
}.

Definition keys (fns : list (string * Function)) : list string := fns.*1.

Definition unique_keys (fns : list (string * Function)) : Prop := NoDup (keys fns).

(** The package-level flag variables of [commands] that the build
    command reads. *)
Record flags : Type := mkFlags {
  flag_image : string;
  flag_handler : string;
  flag_functionName : string;
  flag_language : string;
  flag_yamlFile : string;
  flag_nocache : bool;
  flag_squash : bool;
  flag_parallel : Z;
  flag_shrinkwrap : bool;
  flag_buildArgs : list string;
  flag_buildArgMap : gmap string string;
}.

(** The arguments of one call of [builder.BuildImage]: an entry of the
    Build Executor's invocation log. *)
Record BuildImage_call : Type := mkCall {
  call_image : string;
  call_handler : string;
  call_functionName : string;
  call_language : string;
  call_nocache : bool;
  call_squash : bool;
  call_shrinkwrap : bool;
  call_buildArgs : gmap string string;
}.

(** ** [preRunBuild] *)

Section PreRunBuild.

Variable TrimSpace : string -> string.

(** [validateLanguageFlag] lives in another file of the package; its
    error is discarded by [preRunBuild], its string becomes the
    language flag. *)
Variable validateLanguageFlag : string -> string * option string.

Definition set_language (g : flags) (l : string) : flags :=
  mkFlags (flag_image g) (flag_handler g) (flag_functionName g) l
          (flag_yamlFile g) (flag_nocache g) (flag_squash g) (flag_parallel g)
          (flag_shrinkwrap g) (flag_buildArgs g) (flag_buildArgMap g).

Definition set_buildArgMap (g : flags) (m : gmap string string) : flags :=
  mkFlags (flag_image g) (flag_handler g) (flag_functionName g) (flag_language g)
          (flag_yamlFile g) (flag_nocache g) (flag_squash g) (flag_parallel g)
          (flag_shrinkwrap g) (flag_buildArgs g) m.

(** The returned flags are the package variables after the call; the
    outcome is the [error] result ([Ok tt] for [nil]), or the panic
    that escapes from [parseMap]. *)
Definition preRunBuild (g : flags) : flags * outcome unit :=
  let g1 := set_language g (validateLanguageFlag (flag_language g)).1 in
  match parseMap TrimSpace (flag_buildArgs g1) "build-arg" with
  | Err err => (g1, Err ("failed to parse build-arg: " +:+ err))
  | Panic => (g1, Panic)
  | Ok mapped => (set_buildArgMap g1 mapped, Ok tt)
  end.

End PreRunBuild.

(** ** [runBuild] *)

(** What [runBuild] does besides returning: nothing, one dispatch
    [build(&services, parallel, shrinkwrap)], or one direct call of the
    Build Executor. *)
Inductive build_action : Type :=
| NoBuild
| Dispatch (services : Services) (queueDepth : Z) (shrinkwrap : bool)
| Single (call : BuildImage_call).

(** The answers of the collaborators [runBuild] consults:
    [stack.ParseYAMLFile] (an error, or a possibly nil pointer to the
    parsed services) and [PullTemplates] (an optional error). *)
Record collaborators : Type := mkCollaborators {
  ParseYAMLFile_result : string + option Services;
  PullTemplates_result : option string;
}.

(** The first block of [runBuild]: the services stay empty without a
    YAML file and for a nil result; a parse error is returned at once. *)
Definition parsed_services (g : flags) (w : collaborators) : string + Services :=
  if (0 <? String.length (flag_yamlFile g))%nat then
    match ParseYAMLFile_result w with
    | inl err => inl err
    | inr (Some parsedServices) => inr parsedServices
    | inr None => inr (mkServices [])
    end
  else inr (mkServices []).

Definition runBuild (g : flags) (w : collaborators) : build_action * option string :=
  match parsed_services g w with
  | inl err => (NoBuild, Some err)
  | inr services =>
      match PullTemplates_result w with
      | Some pullErr => (NoBuild, Some ("could not pull templates for OpenFaaS: " +:+ pullErr))
      | None =>
          if (0 <? length (Functions services))%nat then
            (Dispatch services (flag_parallel g) (flag_shrinkwrap g), None)
          else if (String.length (flag_image g) =? 0)%nat then
            (NoBuild, Some "please provide a valid --image name for your Docker image")
          else if (String.length (flag_handler g) =? 0)%nat then
            (NoBuild, Some "please provide the full path to your function's handler")
          else if (String.length (flag_functionName g) =? 0)%nat then
            (NoBuild, Some "please provide the deployed --name of your function")
          else
            (Single (mkCall (flag_image g) (flag_handler g) (flag_functionName g)
                            (flag_language g) (flag_nocache g) (flag_squash g)
                            (flag_shrinkwrap g) (flag_buildArgMap g)), None)
      end
  end.

(** Single-function mode: no function was parsed from a YAML file. *)
Definition single_function_mode (g : flags) (w : collaborators) : Prop :=
  match parsed_services g w with
  | inl _ => True
  | inr services => Functions services = []
  end.

(** The Build Executor is invoked by [runBuild] itself only in the
    [Single] case; a [Dispatch] hands the work to [build]. *)
Definition starts_build (a : build_action) : bool :=
  match a with NoBuild => false | _ => true end.

(** ** The dispatcher [build]

    [build] starts [queueDepth] goroutines that range over an
    unbuffered channel, sends every function that is not skipped, and
    leaves through two deferred calls: [close(workChannel)] first
    (registered last), then [wg.Wait()].  The goroutines and the
    producer interleave freely, so [build] is modelled statement by
    statement: a state holds the program point of the producer and of
    every goroutine, the channel's closed flag and the WaitGroup
    counter, and a scheduler choice selects who moves next.

    - A send on the unbuffered channel completes together with the
      receive of one worker waiting in [range workChannel] (a handoff);
      without such a worker the producer stays blocked.  A worker
      waiting on the closed channel leaves its loop.
    - The WaitGroup is its counter: [Add(1)] and [Done()] change it,
      [Wait()] passes when it is zero, a negative counter panics.
    - [builder.BuildImage] is entered and either returns or ends the
      whole process ([log.Fatalf] in [builder.ExecCommand]); a dead
      process takes no further step. *)

(** What has been observed so far, oldest first.  The print events
    carry the values given to [fmt.Printf]; the others record a
    goroutine start, a channel handoff, and the entry to and the return
    from [builder.BuildImage]. *)
Inductive event : Type :=
| ESpawn (index : Z)
| ESkip (name : string)
| EHandoff (index : Z) (function : Function)
| EStart (index : Z) (function : Function)
| ENoLang (index : Z) (function : Function)
| EBuildImage (index : Z) (function : Function)
| EBuildImageRet (index : Z) (function : Function)
| EDone (index : Z) (function : Function)
| EWorkerDone (index : Z).

(** The lines written to standard output (their format and arguments). *)
Inductive line : Type :=
| LSkipping (name : string)          (* "Skipping build of: %s.\n" *)
| LBuilding (index : Z) (name : string)     (* "[%d] > Building %s.\n" *)
| LNoLanguage                        (* "Please provide a valid language for your function." *)
| LBuildingDone (index : Z) (name : string) (* "[%d] < Building %s done.\n" *)
| LWorkerDone (index : Z).           (* "[%d] worker done.\n" *)

Definition printed (e : event) : option line :=
  match e with
  | ESkip name => Some (LSkipping name)
  | EStart index function => Some (LBuilding index (Name function))
  | ENoLang _ _ => Some LNoLanguage
  | EDone index function => Some (LBuildingDone index (Name function))
  | EWorkerDone index => Some (LWorkerDone index)
  | _ => None
  end.

(** Program points of a worker goroutine: the statement it executes next. *)
Inductive worker_pc : Type :=
| WNew                           (* spawned; next [wg.Add(1)] *)
| WRecv                          (* at [range workChannel] *)
| WStart (function : Function)   (* received; next the start marker *)
| WCheck (function : Function)   (* next [if len(function.Language) == 0] *)
| WBuilding (function : Function) (* inside [builder.BuildImage] *)
| WDoneMark (function : Function) (* next the done marker *)
| WFinish                        (* left the loop; next "worker done" *)
| WWgDone                        (* next [wg.Done()] *)
| WExited.

Record worker : Type := mkWorker {
  windex : Z;
  wpc : worker_pc;
}.

(** Program points of the producer, the goroutine that called [build]. *)
Inductive producer_pc : Type :=
| PSpawn (i : Z)                         (* in the [go] loop *)
| PRange (rest : list (string * Function)) (* in [range services.Functions] *)
| PSend (function : Function) (rest : list (string * Function))
                                         (* blocked in [workChannel <- function] *)
| PClose                                 (* deferred [close(workChannel)] *)
| PWait                                  (* deferred [wg.Wait()] *)
| PReturned.

Record state : Type := mkState {
  prod : producer_pc;
  workers : list worker;
  closed : bool;
  wg : Z;
  dead : bool;
  log : list event;
}.

(** Who moves next.  [Handoff j] is the rendezvous of the producer's
    send with the receive of worker [j]; [Fatal j] is the Build
    Executor ending the process from inside worker [j]'s call. *)
Inductive choice : Type :=
| Producer
| Worker (j : nat)
| Handoff (j : nat)
| Fatal (j : nat).

Definition set_Name (k : string) (function : Function) : Function :=
  mkFunction k (Language function) (Handler function) (Image function)
             (SkipBuild function).

Definition goto (p : producer_pc) (s : state) : state :=
  mkState p (workers s) (closed s) (wg s) (dead s) (log s).

Definition jump (j : nat) (w : worker) (pc : worker_pc) (s : state) : state :=
  mkState (prod s) (<[j := mkWorker (windex w) pc]> (workers s))
          (closed s) (wg s) (dead s) (log s).

Definition emit (e : event) (s : state) : state :=
  mkState (prod s) (workers s) (closed s) (wg s) (dead s) (log s ++ [e]).

Definition spawn (i : Z) (s : state) : state :=
  mkState (prod s) (workers s ++ [mkWorker i WNew]) (closed s) (wg s) (dead s) (log s).

Definition set_closed (s : state) : state :=
  mkState (prod s) (workers s) true (wg s) (dead s) (log s).

Definition set_wg (n : Z) (s : state) : state :=
  mkState (prod s) (workers s) (closed s) n (dead s) (log s).

Definition die (s : state) : state :=
  mkState (prod s) (workers s) (closed s) (wg s) true (log s).

Section Dispatcher.

Variable services : Services.
Variable queueDepth : Z.

Definition init : state := mkState (PSpawn 0) [] false 0 false [].

Definition producer_step (s : state) : option state :=
  match prod s with
  | PSpawn i =>
      if (i <? queueDepth)%Z
      then Some (emit (ESpawn i) (spawn i (goto (PSpawn (i + 1)) s)))
      else Some (goto (PRange (Functions services)) s)
  | PRange [] => Some (goto PClose s)
  | PRange ((k, function) :: rest) =>
      if SkipBuild function
      then Some (emit (ESkip (Name function)) (goto (PRange rest) s))
      else Some (goto (PSend (set_Name k function) rest) s)
  | PSend _ _ => None
  | PClose => Some (set_closed (goto PWait s))
  | PWait => if (wg s =? 0)%Z then Some (goto PReturned s) else None
  | PReturned => None
  end.

Definition worker_step (j : nat) (s : state) : option state :=
  w ← workers s !! j;
  let index := windex w in
  match wpc w with
  | WNew => Some (jump j w WRecv (set_wg (wg s + 1) s))
  | WRecv => if closed s then Some (jump j w WFinish s) else None
  | WStart function =>
      Some (emit (EStart index function) (jump j w (WCheck function) s))
  | WCheck function =>
      if (String.length (Language function) =? 0)%nat
      then Some (emit (ENoLang index function) (jump j w (WDoneMark function) s))
      else Some (emit (EBuildImage index function) (jump j w (WBuilding function) s))
  | WBuilding function =>
      Some (emit (EBuildImageRet index function) (jump j w (WDoneMark function) s))
  | WDoneMark function =>
      Some (emit (EDone index function) (jump j w WRecv s))
  | WFinish => Some (emit (EWorkerDone index) (jump j w WWgDone s))
  | WWgDone =>
      (* a negative WaitGroup counter panics *)
      if (wg s - 1 <? 0)%Z then Some (die s)
      else Some (jump j w WExited (set_wg (wg s - 1) s))
  | WExited => None
  end.

Definition handoff_step (j : nat) (s : state) : option state :=
  w ← workers s !! j;
  match prod s, wpc w with
  | PSend function rest, WRecv =>
      Some (emit (EHandoff (windex w) function)
                 (jump j w (WStart function) (goto (PRange rest) s)))
  | _, _ => None
  end.

Definition fatal_step (j : nat) (s : state) : option state :=
  w ← workers s !! j;
  match wpc w with
  | WBuilding _ => Some (die s)
  | _ => None
  end.

Definition step (c : choice) (s : state) : option state :=
  if dead s then None
  else match c with
       | Producer => producer_step s
       | Worker j => worker_step j s
       | Handoff j => handoff_step j s
       | Fatal j => fatal_step j s
       end.

(** A run under a schedule; [None] when the schedule asks a blocked
    or finished party to move. *)
Fixpoint run (sched : list choice) (s : state) : option state :=
  match sched with
  | [] => Some s
  | c :: sched' => s' ← step c s; run sched' s'
  end.

Definition reachable (s : state) : Prop := ∃ sched, run sched init = Some s.

(** No party can move: the state is final or deadlocked. *)
Definition stuck (s : state) : Prop := ∀ c, step c s = None.

(** The process is alive and some party can move without ending it. *)
Definition can_move (s : state) : Prop :=
  ∃ c s', step c s = Some s' ∧ dead s' = false.

(** From [s] the dispatch can run on until [build] has returned. *)
Definition can_return (s : state) : Prop :=
  ∃ sched s', run sched s = Some s' ∧ prod s' = PReturned ∧ dead s' = false.

End Dispatcher.

(** ** Reading the log *)

Definition spawn_of (e : event) : option Z :=
  match e with ESpawn i => Some i | _ => None end.
Definition skip_of (e : event) : option string :=
  match e with ESkip name => Some name | _ => None end.
Definition handoff_of (e : event) : option Function :=
  match e with EHandoff _ f => Some f | _ => None end.
Definition start_of (e : event) : option Function :=
  match e with EStart _ f => Some f | _ => None end.
Definition build_of (e : event) : option Function :=
  match e with EBuildImage _ f => Some f | _ => None end.
Definition done_of (e : event) : option Function :=
  match e with EDone _ f => Some f | _ => None end.

(** The goroutine starts, the skip notices, the functions handed to a
    worker, those whose start marker, Build Executor call and done
    marker were logged, each in log order. *)
Definition spawns (l : list event) : list Z := omap spawn_of l.
Definition skips (l : list event) : list string := omap skip_of l.
Definition handed (l : list event) : list Function := omap handoff_of l.
Definition started (l : list event) : list Function := omap start_of l.
Definition builds (l : list event) : list Function := omap build_of l.
Definition dones (l : list event) : list Function := omap done_of l.

(** The worker an event belongs to; spawning and skipping are the
    producer's. *)
Definition worker_of (e : event) : option Z :=
  match e with
  | ESpawn _ | ESkip _ => None
  | EHandoff i _ | EStart i _ | ENoLang i _ | EBuildImage i _
  | EBuildImageRet i _ | EDone i _ | EWorkerDone i => Some i
  end.

Definition events_of (i : Z) (l : list event) : list event :=
  filter (λ e, worker_of e = Some i) l.

(** The events that make up a build: start marker, language notice,
    Build Executor call and return, done marker. *)
Definition is_build_event (e : event) : bool :=
  match e with
  | EStart _ _ | ENoLang _ _ | EBuildImage _ _ | EBuildImageRet _ _ | EDone _ _ => true
  | _ => false
  end.

Definition build_events (l : list event) : list event := filter is_build_event l.

Definition has_language (function : Function) : bool :=
  negb (String.length (Language function) =? 0)%nat.

(** The arguments [build] passes to [builder.BuildImage] for a function. *)
Definition call_of (g : flags) (shrinkwrap : bool) (function : Function) : BuildImage_call :=
  mkCall (Image function) (Handler function) (Name function) (Language function)
         (flag_nocache g) (flag_squash g) shrinkwrap (flag_buildArgMap g).

(** The Build Executor's invocation log of a dispatch. *)
Definition invocations (g : flags) (shrinkwrap : bool) (l : list event) : list BuildImage_call :=
  call_of g shrinkwrap <$> builds l.

(** ** What a dispatch is expected to do *)

(** The descriptors the producer enqueues, in iteration order: the
    entries that are not skipped, named after their key. *)
Fixpoint enqueued (fns : list (string * Function)) : list Function :=
  match fns with
  | [] => []
  | (k, function) :: rest =>
      if SkipBuild function then enqueued rest
      else set_Name k function :: enqueued rest
  end.

(** The names shown by the skip notices, in iteration order. *)
Fixpoint skipped (fns : list (string * Function)) : list string :=
  match fns with
  | [] => []
  | (_, function) :: rest =>
      if SkipBuild function then Name function :: skipped rest
      else skipped rest
  end.

(** The descriptors a dispatch has to build: those enqueued whose
    language is not empty. *)
Definition valid_builds (fns : list (string * Function)) : list Function :=
  filter (λ f, has_language f = true) (enqueued fns).

(** The producer has left its [range] loop. *)
Definition range_finished (p : producer_pc) : bool :=
  match p with PClose | PWait | PReturned => true | _ => false end.

(** One build as a worker performs it. *)
Definition build_cycle (index : Z) (function : Function) : list event :=
  EStart index function
  :: (if has_language function
      then [EBuildImage index function; EBuildImageRet index function]
      else [ENoLang index function])
  ++ [EDone index function].

(** The sequential loop of the spec: each entry in iteration order is
    either skipped with a notice or built to completion by worker 0
    before the next entry begins. *)
Fixpoint build_sequential (fns : list (string * Function)) : list event :=
  match fns with
  | [] => []
  | (k, function) :: rest =>
      (if SkipBuild function then [ESkip (Name function)]
       else build_cycle 0 (set_Name k function))
      ++ build_sequential rest
  end.

(** ** Bookkeeping for the proofs *)

(** The function a worker holds between its receive and its done marker. *)
Definition holds (pc : worker_pc) : option Function :=
  match pc with
  | WStart f | WCheck f | WBuilding f | WDoneMark f => Some f
  | _ => None
  end.

Definition holds_unstarted (pc : worker_pc) : option Function :=
  match pc with WStart f => Some f | _ => None end.

Definition holds_unbuilt (pc : worker_pc) : option Function :=
  match pc with
  | WStart f | WCheck f => if has_language f then Some f else None
  | _ => None
  end.

Definition held (h : worker_pc → option Function) (ws : list worker) : list Function :=
  omap (λ w, h (wpc w)) ws.

(** A worker is mid-build while it holds a function. *)
Definition mid_build (w : worker) : Prop := is_Some (holds (wpc w)).

(** A worker that has run [wg.Add(1)] and not yet [wg.Done()]. *)
Definition counted (pc : worker_pc) : nat :=
  match pc with WNew | WExited => 0 | _ => 1 end.

(** A worker that has left its receive loop. *)
Definition left_loop (pc : worker_pc) : bool :=
  match pc with WFinish | WWgDone | WExited => true | _ => false end.

Definition total (m : worker_pc → nat) (ws : list worker) : nat :=
  sum_list_with (λ w, m (wpc w)) ws.

(** The events of one full turn of the receive loop, and of the turn a
    worker is in the middle of. *)
Definition cycle (index : Z) (function : Function) : list event :=
  EHandoff index function :: build_cycle index function.

Definition partial_cycle (index : Z) (pc : worker_pc) : list event :=
  match pc with
  | WStart f => [EHandoff index f]
  | WCheck f => [EHandoff index f; EStart index f]
  | WBuilding f => [EHandoff index f; EStart index f; EBuildImage index f]
  | WDoneMark f =>
      EHandoff index f :: EStart index f
      :: (if has_language f
          then [EBuildImage index f; EBuildImageRet index f]
          else [ENoLang index f])
  | WWgDone | WExited => [EWorkerDone index]
  | WNew | WRecv | WFinish => []
  end.

Definition indices (n : nat) : list Z := Z.of_nat <$> seq 0 n.

(** The events of a worker so far are full turns of its loop followed
    by the turn it is in. *)
Definition traced (l : list event) (w : worker) : Prop :=
  ∃ hist, events_of (windex w) l
          = flat_map (cycle (windex w)) hist ++ partial_cycle (windex w) (wpc w).

(** A worker is inside the Build Executor only for a function that
    names a language. *)
Definition building_has_language (w : worker) : Prop :=
  match wpc w with WBuilding f => has_language f = true | _ => True end.

(** An upper bound on the number of steps a worker and the producer
    still take. *)
Definition worker_fuel (pc : worker_pc) : nat :=
  match pc with
  | WExited => 0 | WWgDone => 1 | WFinish => 2 | WRecv => 3
  | WDoneMark _ => 4 | WBuilding _ => 5 | WCheck _ => 6 | WStart _ => 7
  | WNew => 4
  end.

Section Accounting.

Variable services : Services.
Variable queueDepth : Z.

(** What the producer still has to send, and to announce as skipped. *)
Definition pending (p : producer_pc) : list Function :=
  match p with
  | PSpawn _ => enqueued (Functions services)
  | PRange rest => enqueued rest
  | PSend f rest => f :: enqueued rest
  | _ => []
  end.

Definition pending_skips (p : producer_pc) : list string :=
  match p with
  | PSpawn _ => skipped (Functions services)
  | PRange rest | PSend _ rest => skipped rest
  | _ => []
  end.

Definition after_close (p : producer_pc) : bool :=
  match p with PWait | PReturned => true | _ => false end.

Definition producer_fuel (p : producer_pc) : nat :=
  match p with
  | PReturned => 0
  | PWait => 1
  | PClose => 2
  | PRange rest => 3 + 6 * length rest
  | PSend _ rest => 8 + 6 * length rest
  | PSpawn i => 4 + 6 * length (Functions services) + 5 * Z.to_nat (queueDepth - i)
  end.

Definition fuel (s : state) : nat :=
  if dead s then 0
  else 1 + producer_fuel (prod s) + total worker_fuel (workers s).

(** The invariant of every reachable state. *)
Record invariant (s : state) : Prop := mkInvariant {
  (* handed out so far, then still to send: the enqueued descriptors *)
  inv_handed : handed (log s) ++ pending (prod s) = enqueued (Functions services);
  inv_skips : skips (log s) ++ pending_skips (prod s) = skipped (Functions services);
  (* one worker per spawn, numbered 0, 1, ... *)
  inv_spawns : spawns (log s) = windex <$> workers s;
  inv_index : windex <$> workers s = indices (length (workers s));
  inv_spawning :
    match prod s with
    | PSpawn i => i = Z.of_nat (length (workers s)) ∧ (i ≤ Z.max 0 queueDepth)%Z
    | _ => Z.of_nat (length (workers s)) = Z.max 0 queueDepth
    end;
  (* the channel and the WaitGroup *)
  inv_closed : closed s = after_close (prod s);
  inv_open : closed s = false → Forall (λ w, left_loop (wpc w) = false) (workers s);
  inv_wg : wg s = Z.of_nat (total counted (workers s));
  inv_returned : prod s = PReturned → Forall (λ w, holds (wpc w) = None) (workers s);
  (* where every descriptor handed out has got to *)
  inv_started : handed (log s) ≡ₚ started (log s) ++ held holds_unstarted (workers s);
  inv_built :
    filter (λ f, has_language f = true) (handed (log s))
    ≡ₚ builds (log s) ++ held holds_unbuilt (workers s);
  inv_done : handed (log s) ≡ₚ dones (log s) ++ held holds (workers s);
  (* the events of each worker *)
  inv_events :
    Forall (λ e, ∀ i, worker_of e = Some i →
                      (0 ≤ i < Z.of_nat (length (workers s)))%Z) (log s);
  inv_building : Forall building_has_language (workers s);
  inv_trace : ∀ j w, workers s !! j = Some w → traced (log s) w;
  (* spawns come first *)
  inv_order : ∀ l1 j f l2, log s = l1 ++ EHandoff j f :: l2 →
    spawns l1 = indices (Z.to_nat queueDepth) ∧ spawns l2 = [];
}.

End Accounting.


(** ** Concrete dispatches

    The scenario of the spec: [a] is built, [b] is skipped and carries
    no name of its own in the manifest, [c] names no language. *)

Definition demo_flags : flags :=
  mkFlags "" "" "" "" "stack.yml" false false 2 false [] ∅.

Definition demo_services : Services :=
  mkServices [("a", mkFunction "" "node" "./a" "a:latest" false);
              ("b", mkFunction "" "python" "./b" "b:latest" true);
              ("c", mkFunction "" "" "./c" "c:latest" false)].

(** Two workers that overlap. *)
Definition demo_schedule : list choice :=
  [Producer; Producer; Producer; Worker 0; Worker 1; Producer; Handoff 0;
   Producer; Producer; Handoff 1; Worker 0; Worker 1; Worker 0; Worker 1;
   Worker 1; Worker 0; Worker 0; Producer; Producer; Worker 0; Worker 1;
   Worker 0; Worker 1; Worker 0; Worker 1; Producer].

Definition demo_state : state :=
  Eval vm_compute in default init (run demo_services 2 demo_schedule init).

(** One worker; the producer announces the skip of [b] while the
    worker has not yet printed the start marker of [a]. *)
Definition solo_schedule : list choice :=
  [Producer; Producer; Worker 0; Producer; Handoff 0; Producer; Worker 0;
   Producer; Worker 0; Worker 0; Worker 0; Handoff 0; Worker 0; Worker 0;
   Worker 0; Producer; Producer; Worker 0; Worker 0; Worker 0; Producer].

Definition solo_state : state :=
  Eval vm_compute in default init (run demo_services 1 solo_schedule init).

(** No worker at all: the producer reaches its first send. *)
Definition blocked_schedule : list choice := [Producer; Producer].

Definition blocked_state : state :=
  Eval vm_compute in default init (run demo_services 0 blocked_schedule init).

(** One function and two workers, the second of which is not
    scheduled before [build] returns. *)
Definition late_services : Services :=
  mkServices [("a", mkFunction "" "node" "./a" "a:latest" false)].

Definition late_schedule : list choice :=
  [Producer; Producer; Producer; Producer; Worker 0; Handoff 0; Producer; Producer;
   Worker 0; Worker 0; Worker 0; Worker 0; Worker 0; Worker 0; Worker 0; Producer].

Definition late_function : Function := mkFunction "a" "node" "./a" "a:latest" false.

Definition late_state : state :=
  mkState PReturned [mkWorker 0 WExited; mkWorker 1 WNew] true 0 false
    [ESpawn 0; ESpawn 1; EHandoff 0 late_function; EStart 0 late_function;
     EBuildImage 0 late_function; EBuildImageRet 0 late_function;
     EDone 0 late_function; EWorkerDone 0].

(** * The deploy command and the template fetcher

    The remaining functions of [commands/deploy.go], the template
    expansion of [commands/fetch_templates.go] that [PullTemplates]
    reaches, and the change filter of the [up] command. *)

(** ** Go strings: [Index], slicing, [Split], [Join], [HasSuffix] *)

(** [strings.Index(s, sep)] for a one-byte separator: the position of
    its first occurrence, or -1. *)
Fixpoint Index_from (pos : Z) (s : string) (sep : ascii) : Z :=
  match s with
  | EmptyString => (-1)%Z
  | String c s' => if Ascii.eqb c sep then pos else Index_from (pos + 1) s' sep
  end.

Definition Index (s : string) (sep : ascii) : Z := Index_from 0 s sep.

(** The slice expression [s[lo:hi]]; out of range it panics ([None]). *)
Definition slice (s : string) (lo hi : Z) : option string :=
  if ((0 <=? lo)%Z && (lo <=? hi)%Z && (hi <=? Z.of_nat (String.length s))%Z)%bool
  then Some (substring (Z.to_nat lo) (Z.to_nat (hi - lo)) s)
  else None.

(** [strings.Split(s, sep)] for a one-byte separator: the pieces
    between the separators, one more than there are separators. *)
Fixpoint Split (s : string) (sep : ascii) : list string :=
  match s with
  | EmptyString => [EmptyString]
  | String c s' =>
      if Ascii.eqb c sep then EmptyString :: Split s' sep
      else match Split s' sep with
           | piece :: pieces => String c piece :: pieces
           | [] => [String c EmptyString]
           end
  end.

(** [strings.Join(elems, sep)] *)
Fixpoint Join (elems : list string) (sep : string) : string :=
  match elems with
  | [] => EmptyString
  | [e] => e
  | e :: rest => e +:+ sep +:+ Join rest sep
  end.

(** [strings.HasSuffix(s, suffix)] *)
Definition HasSuffix (s suffix : string) : bool :=
  let n := String.length s in
  let m := String.length suffix in
  (m <=? n)%nat && String.eqb (substring (n - m) m s) suffix.

(** ** [mergeMap] and [compileEnvironment] (commands/deploy.go) *)

(** [for k, v := range m { merged[k] = v }] with the entries of [m]
    coming in the order [order]. *)
Definition copy_into (merged : gmap string string) (order : list (string * string))
  : gmap string string :=
  foldl (λ acc kv, <[kv.1 := kv.2]> acc) merged order.

(** [mergeMap] when the two [range] loops yield the entries of [i] and
    of [j] in the given orders. *)
Definition mergeMap_in (order_i order_j : list (string * string)) : gmap string string :=
  copy_into (copy_into ∅ order_i) order_j.

Definition mergeMap (i j : gmap string string) : gmap string string :=
  mergeMap_in (map_to_list i) (map_to_list j).

Section CompileEnvironment.

Variable TrimSpace : string -> string.

Definition compileEnvironment (envvarOpts : list string)
    (yamlEnvironment fileEnvironment : gmap string string)
  : outcome (gmap string string) :=
  match parseMap TrimSpace envvarOpts "env" with
  | Err err => Err ("error parsing envvars: " +:+ err)
  | Panic => Panic
  | Ok envvarArguments =>
      let functionAndStack := mergeMap yamlEnvironment fileEnvironment in
      Ok (mergeMap functionAndStack envvarArguments)
  end.

End CompileEnvironment.

(** ** [getGatewayURL] *)

Definition getGatewayURL (argumentURL defaultURL yamlURL : string) : string :=
  if (0 <? String.length argumentURL)%nat && negb (String.eqb argumentURL defaultURL)
  then argumentURL
  else if (0 <? String.length yamlURL)%nat then yamlURL
  else defaultURL.

(** ** [buildLabelMap] *)

(** The map built so far and the lines printed; a slice out of range
    would panic. *)
Fixpoint buildLabelMap_from (labelMap : gmap string string) (printed_lines : list string)
    (labelOpts : list string) : outcome (gmap string string * list string) :=
  match labelOpts with
  | [] => Ok (labelMap, printed_lines)
  | opt :: rest =>
      if negb (contains "=" opt) then
        buildLabelMap_from labelMap
          (printed_lines ++ ["Error - label option does not contain a value"]) rest
      else
        let index := Index opt "=" in
        match slice opt 0 index, slice opt (index + 1) (Z.of_nat (String.length opt)) with
        | Some key, Some value =>
            buildLabelMap_from (<[key := value]> labelMap) printed_lines rest
        | _, _ => Panic
        end
  end.

Definition buildLabelMap (labelOpts : list string)
  : outcome (gmap string string * list string) :=
  buildLabelMap_from ∅ [] labelOpts.

(** ** [getRegistryAuth] *)

Record authConfig : Type := mkAuthConfig {
  Auth : string;
}.

Record configFile : Type := mkConfigFile {
  AuthConfigs : gmap string authConfig;
  CredentialsStore : string;
}.

Definition defaultDockerRegistry : string := "https://index.docker.io/v1/".

(** [config.AuthConfigs[registry].Auth]: a missing key yields the zero
    [authConfig], whose [Auth] is empty. *)
Definition auth_for (config : configFile) (registry : string) : string :=
  match AuthConfigs config !! registry with
  | Some a => Auth a
  | None => EmptyString
  end.

Definition getRegistryAuth (config : configFile) (image : string) : outcome string :=
  if (size (AuthConfigs config) =? 0)%nat then Ok EmptyString
  else
    let regS := Split image "/" in
    (* regS[:len(regS)-2] panics when the bound is negative *)
    if (Z.of_nat (length regS) - 2 <? 0)%Z then Panic
    else
      let registry := Join (take (length regS - 2) regS) ", " in
      if negb (String.eqb registry EmptyString) then Ok (auth_for config registry)
      else if String.eqb registry EmptyString
              && negb (String.eqb (auth_for config defaultDockerRegistry) EmptyString)
      then Ok (auth_for config defaultDockerRegistry)
      else Ok EmptyString.

(** ** What [parseMap] stores *)

Section EntryPair.

Variable TrimSpace : string -> string.

(** The key and value [parseMap] stores for an entry. *)
Definition entry_pair (envvar : string) : string * string :=
  default (EmptyString, EmptyString) (cut "=" (TrimSpace envvar)).

End EntryPair.

(** ** Template expansion (commands/fetch_templates.go) *)

Inductive ExtractAction : Type :=
| ShouldExtractData
| NewTemplateFound
| DirectoryAlreadyExists
| SkipWritingData.

Definition templateDirectory : string := "./template/".

Definition rootLanguageDirSplitCount : nat := 3.

Section Templates.

(** The package variable [overwrite] (the flag of the template
    commands, declared in another file): [canExpandTemplateData] reads
    it; the [overwrite] parameters of [fetchTemplates] and
    [expandTemplatesFromZip] do not reach it. *)
Variable overwrite : bool.

(** [stat_ok dir]: [os.Stat(dir)] returns no error. *)
Definition templateFolderExists (stat_ok : string → bool) (language : string)
    (overwrite : bool) : bool :=
  let dir := templateDirectory +:+ language in
  if stat_ok dir && negb overwrite then false else true.

(** The map of known languages is [None] when it is nil.  The result
    is the answer and the map after the call. *)
Definition canWriteLanguage (stat_ok : string → bool)
    (availableLanguages : option (gmap string bool)) (language : string)
    (overwrite : bool) : bool * option (gmap string bool) :=
  match availableLanguages with
  | Some known =>
      if (0 <? String.length language)%nat then
        match known !! language with
        | Some value => (value, availableLanguages)
        | None =>
            let canWrite := templateFolderExists stat_ok language overwrite in
            (canWrite, Some (<[language := canWrite]> known))
        end
      else (false, availableLanguages)
  | None => (false, None)
  end.

(** The action, the language and whether the path is a directory, with
    the map after the call; [None] stands for an index or a slice out
    of range. *)
Definition canExpandTemplateData (stat_ok : string → bool)
    (availableLanguages : option (gmap string bool)) (relativePath : string)
  : option (ExtractAction * string * bool * option (gmap string bool)) :=
  let pathSplit := Split relativePath "/" in
  if (2 <? length pathSplit)%nat then
    language ← pathSplit !! 1%nat;
    last ← slice relativePath (Z.of_nat (String.length relativePath) - 1)
                 (Z.of_nat (String.length relativePath));
    let isDirectory := String.eqb last "/" in
    let '(canWrite, known) :=
      canWriteLanguage stat_ok availableLanguages language overwrite in
    if (length pathSplit =? rootLanguageDirSplitCount)%nat && isDirectory then
      if negb canWrite then Some (DirectoryAlreadyExists, language, isDirectory, known)
      else Some (NewTemplateFound, language, isDirectory, known)
    else
      if negb canWrite then Some (SkipWritingData, language, isDirectory, known)
      else Some (ShouldExtractData, language, isDirectory, known)
  else Some (SkipWritingData, EmptyString, true, availableLanguages).

(** One file of the zip archive together with the answers of the
    system while it is processed: the state of the file system seen by
    [os.Stat], and the errors of [z.Open], [createPath] and
    [writeFile], if any. *)
Record zip_entry : Type := mkEntry {
  z_Name : string;
  entry_stat_ok : string → bool;
  Open_error : option string;
  createPath_error : option string;
  writeFile_error : option string;
}.

(** What the expansion does to the file system. *)
Inductive extract_event : Type :=
| CreatedPath (relativePath : string)
| WroteFile (relativePath : string).

(** The three results of [expandTemplatesFromZip] and its effects. *)
Record expansion : Type := mkExpansion {
  existingLanguages : list string;
  fetchedLanguages : list string;
  expand_error : option string;
  extract_events : list extract_event;
}.

(** [z.Name[strings.Index(z.Name, "/")+1:]] *)
Definition relative_path (name : string) : option string :=
  slice name (Index name "/" + 1) (Z.of_nat (String.length name)).

(** The loop over [zipFile.File]; [None] stands for a panic. *)
Fixpoint expand_entries (existing fetched : list string)
    (known : option (gmap string bool)) (events : list extract_event)
    (files : list zip_entry) : option expansion :=
  match files with
  | [] => Some (mkExpansion existing fetched None events)
  | z :: rest =>
      relativePath ← relative_path (z_Name z);
      (* strings.Index(relativePath, "template/") != 0 *)
      if negb (String.prefix "template/" relativePath) then
        expand_entries existing fetched known events rest
      else
        '(action, language, isDirectory, known') ←
          canExpandTemplateData (entry_stat_ok z) known relativePath;
        let '(expandFromZip, existing', fetched') :=
          match action with
          | ShouldExtractData => (true, existing, fetched)
          | NewTemplateFound => (true, existing, fetched ++ [language])
          | DirectoryAlreadyExists => (false, existing ++ [language], fetched)
          | SkipWritingData => (false, existing, fetched)
          end in
        if expandFromZip then
          match Open_error z with
          | Some _ => Some (mkExpansion existing' fetched' None events) (* break *)
          | None =>
              match createPath_error z with
              | Some _ => Some (mkExpansion existing' fetched' None events) (* break *)
              | None =>
                  let events' := events ++ [CreatedPath relativePath] in
                  if (1 <? String.length relativePath)%nat && negb isDirectory then
                    match writeFile_error z with
                    | Some err => Some (mkExpansion [] [] (Some err) events')
                    | None =>
                        expand_entries existing' fetched' known'
                          (events' ++ [WroteFile relativePath]) rest
                    end
                  else expand_entries existing' fetched' known' events' rest
              end
          end
        else expand_entries existing' fetched' known' events rest
  end.

(** [expandTemplatesFromZip]: [zip.OpenReader] fails or yields the
    files of the archive; the map of known languages starts empty. *)
Definition expandTemplatesFromZip (OpenReader : string + list zip_entry)
    (overwrite_param : bool) : option expansion :=
  match OpenReader with
  | inl err => Some (mkExpansion [] [] (Some err) [])
  | inr files => expand_entries [] [] (Some ∅) [] files
  end.

End Templates.

(** ** The change filter of [up] *)

(** The suffixes [upHandler] passes to [skipIgnoredSuffix]. *)
Definition ignoredSuffixes : list string := ["~"; "build"; ".git"; "template"].

(** [skipIgnoredSuffix], on the [Name] of the event. *)
Fixpoint skipIgnoredSuffix (name : string) (ignoredSuffixes : list string) : bool :=
  match ignoredSuffixes with
  | [] => false
  | ignoredSuffix :: rest =>
      if HasSuffix name ignoredSuffix then true else skipIgnoredSuffix name rest
  end.

(** Whether an action lets the entry be expanded from the zip. *)
Definition extracts (action : ExtractAction) : bool :=
  match action with
  | ShouldExtractData | NewTemplateFound => true
  | DirectoryAlreadyExists | SkipWritingData => false
  end.


(** A path inside the directory of a language: [template/LANG/...]. *)
Definition language_of_path (relativePath : string) : option string :=
  if String.prefix "template/" relativePath
     && (2 <? length (Split relativePath "/"))%nat
  then Split relativePath "/" !! 1%nat
  else None.

(** The language a zip entry belongs to, if any. *)
Definition entry_language (z : zip_entry) : option string :=
  relative_path (z_Name z) ≫= language_of_path.

(** No system call fails while the entry is processed. *)
Definition entry_io_ok (z : zip_entry) : Prop :=
  Open_error z = None ∧ createPath_error z = None ∧ writeFile_error z = None.

(** Whether a language may be written: what the map of known
    languages says, else what the file system says at the first entry
    of that language among [files]. *)
Fixpoint first_verdict (overwrite : bool) (known : gmap string bool)
    (files : list zip_entry) (language : string) : bool :=
  match known !! language with
  | Some b => b
  | None =>
      match files with
      | [] => false
      | z :: rest =>
          if decide (entry_language z = Some language)
          then templateFolderExists (entry_stat_ok z) language overwrite
          else first_verdict overwrite known rest language
      end
  end.

(** An archive as GitHub serves it: [template/node] is there before
    the expansion, [template/go] only once the expansion has made it. *)
Definition demo_archive : list zip_entry :=
  [ mkEntry "faas-cli-master/" (λ _, false) None None None;
    mkEntry "faas-cli-master/README.md" (λ _, false) None None None;
    mkEntry "faas-cli-master/template/" (λ _, false) None None None;
    mkEntry "faas-cli-master/template/go/" (String.eqb "./template/node") None None None;
    mkEntry "faas-cli-master/template/go/main.go"
      (λ dir, String.eqb "./template/node" dir || String.eqb "./template/go" dir)
      None None None;
    mkEntry "faas-cli-master/template/node/" 
      (λ dir, String.eqb "./template/node" dir || String.eqb "./template/go" dir)
      None None None;
    mkEntry "faas-cli-master/template/node/index.js"
      (λ dir, String.eqb "./template/node" dir || String.eqb "./template/go" dir)
      None None None ].

(** ** [readFiles] (commands/deploy.go) *)

Section ReadFiles.

(** [ioutil.ReadFile]: an error or the content of the file. *)
Variable ReadFile : string → string + string.

(** [yaml.Unmarshal] into a [stack.EnvironmentFile]: an error or the
    [Environment] map of the file. *)
Variable Unmarshal : string → string + gmap string string.

Fixpoint readFiles_from (envs : gmap string string) (files : list string)
  : outcome (gmap string string) :=
  match files with
  | [] => Ok envs
  | file :: rest =>
      match ReadFile file with
      | inl readErr => Err readErr
      | inr bytesOut =>
          match Unmarshal bytesOut with
          | inl unmarshalErr => Err unmarshalErr
          | inr environment =>
              readFiles_from (copy_into envs (map_to_list environment)) rest
          end
      end
  end.

Definition readFiles (files : list string) : outcome (gmap string string) :=
  readFiles_from ∅ files.

(** The environment a file contributes when it can be read and parsed. *)
Definition file_environment (file : string) : option (gmap string string) :=
  match ReadFile file with
  | inl _ => None
  | inr bytesOut =>
      match Unmarshal bytesOut with
      | inl _ => None
      | inr environment => Some environment
      end
  end.

(** The error a file raises, from [ioutil.ReadFile] or else from
    [yaml.Unmarshal]. *)
Definition file_error (file : string) : option string :=
  match ReadFile file with
  | inl readErr => Some readErr
  | inr bytesOut =>
      match Unmarshal bytesOut with
      | inl unmarshalErr => Some unmarshalErr
      | inr _ => None
      end
  end.

End ReadFiles.

(** ** [runDeploy] (commands/deploy.go) *)

Module Deploy.

(** The types of the [stack] package with the fields [runDeploy]
    reads, at the types its code uses them: [Constraints] and [Labels]
    are pointers, nil when the manifest gives none. *)
Record provider : Type := mkProvider {
  GatewayURL : string;
  Network : string;
}.

Record Function : Type := mkFunction {
  Name : string;
  Language : string;
  Image : string;
  FProcess : string;
  Environment : gmap string string;
  EnvironmentFile : list string;
  Labels : option (gmap string string);
  Constraints : option (list string);
}.

(** [Functions] in the order of the one [range] over the map. *)
Record Services : Type := mkServices {
  Provider : provider;
  Functions : list (string * Function);
}.

(** The package-level flag variables [runDeploy] reads. *)
Record flags : Type := mkFlags {
  update : bool;
  replace : bool;
  yamlFile : string;
  gateway : string;
  network : string;
  image : string;
  functionName : string;
  fprocess : string;
  language : string;
  envvarOpts : list string;
  labelOpts : list string;
  constraints : list string;
  secrets : list string;
}.

(** The arguments of one call of [proxy.DeployFunction], in order. *)
Record DeployFunction_call : Type := mkDeploy {
  arg_fprocess : string;
  arg_gateway : string;
  arg_functionName : string;
  arg_image : string;
  arg_registryAuth : string;
  arg_language : string;
  arg_replace : bool;
  arg_envVars : gmap string string;
  arg_network : string;
  arg_constraints : list string;
  arg_update : bool;
  arg_secrets : list string;
  arg_labels : gmap string string;
}.

(** What [runDeploy] does, in order: a line on the standard output, a
    line on the logger, a call of [proxy.DeployFunction]. *)
Inductive output : Type :=
| Printed (line : string)
| Logged (line : string)
| Deployed (call : DeployFunction_call).

(** How [runDeploy] ends: it returns, the process exits ([os.Exit],
    [log.Fatalln]), or the runtime panics. *)
Inductive ending : Type :=
| Returns
| Exits (code : Z)
| Panics.

Definition call_of_output (o : output) : option DeployFunction_call :=
  match o with Deployed call => Some call | _ => None end.

Definition deploy_calls (out : list output) : list DeployFunction_call :=
  omap call_of_output out.

Definition update_and_replace_message : string :=
  "Cannot specify --update and --replace at the same time.
  --replace    removes an existing deployment before re-creating it
  --update     provides a rolling update to a new function image or configuration".

Section RunDeploy.

Variable TrimSpace : string → string.
Variable ReadFile : string → string + string.
Variable Unmarshal : string → string + gmap string string.

(** The constants [defaultGateway] and [defaultNetwork] are declared in
    another file of the package. *)
Variable defaultGateway : string.
Variable defaultNetwork : string.

(** [dockerConfig] after the two calls of [readDockerConfig], and the
    error of the second call. *)
Variable dockerConfig : configFile.
Variable readDockerConfig_error : option string.

(** The answer of [stack.ParseYAMLFile]: an error, or a possibly nil
    pointer to the services. *)
Variable ParseYAMLFile_result : string + option Services.

Variable g : flags.

(** The body of [for k, function := range services.Functions], with
    the package variable [constraints] as it stands and the output so
    far. *)
Fixpoint deploy_functions (GatewayURL Network : string) (constraints : list string)
    (out : list output) (functions : list (string * Function))
  : list output * ending :=
  match functions with
  | [] => (out, Returns)
  | (k, function) :: rest =>
      let out :=
        out ++ [Printed ((if update g then "Updating: " else "Deploying: ") +:+ k +:+ ".")] in
      let constraints :=
        match Constraints function with
        | Some c => c
        | None => constraints
        end in
      match getRegistryAuth dockerConfig (Image function) with
      | Ok RegistryAuth =>
          match readFiles ReadFile Unmarshal (EnvironmentFile function) with
          | Ok fileEnvironment =>
              let labelMap :=
                match Labels function with
                | Some l => l
                | None => ∅
                end in
              match parseMap TrimSpace (labelOpts g) "label" with
              | Ok labelArgumentMap =>
                  let allLabels := mergeMap labelMap labelArgumentMap in
                  match compileEnvironment TrimSpace (envvarOpts g)
                          (Environment function) fileEnvironment with
                  | Ok allEnvironment =>
                      deploy_functions GatewayURL Network constraints
                        (out ++ [Deployed
                           (mkDeploy (FProcess function) GatewayURL k (Image function)
                              RegistryAuth (Language function) (replace g) allEnvironment
                              Network constraints (update g) (secrets g) allLabels)])
                        rest
                  | Err envErr => (out ++ [Logged envErr], Exits 1)
                  | Panic => (out, Panics)
                  end
              | Err labelErr =>
                  (out ++ [Printed ("Error parsing labels: " +:+ labelErr)], Exits 1)
              | Panic => (out, Panics)
              end
          | Err err => (out ++ [Logged err], Exits 1)
          | Panic => (out, Panics)
          end
      | _ => (out, Panics)
      end
  end.

(** The branch for a single function given by flags. *)
Definition deploy_from_flags (out : list output) : list output * ending :=
  if (String.length (image g) =? 0)%nat then
    (out ++ [Printed "Please provide a --image to be deployed."], Returns)
  else if (String.length (functionName g) =? 0)%nat then
    (out ++ [Printed "Please provide a --name for your function as it will be deployed on FaaS"],
     Returns)
  else
    match getRegistryAuth dockerConfig (image g) with
    | Ok registryAuth =>
        match parseMap TrimSpace (envvarOpts g) "env" with
        | Ok envvars =>
            match parseMap TrimSpace (labelOpts g) "label" with
            | Ok labelMap =>
                (out ++ [Deployed
                   (mkDeploy (fprocess g) (gateway g) (functionName g) (image g)
                      registryAuth (language g) (replace g) envvars (network g)
                      (constraints g) (update g) (secrets g) labelMap)],
                 Returns)
            | Err labelErr =>
                (out ++ [Printed ("Error parsing labels: " +:+ labelErr)], Exits 1)
            | Panic => (out, Panics)
            end
        | Err err => (out ++ [Printed ("Error parsing envvars: " +:+ err)], Exits 1)
        | Panic => (out, Panics)
        end
    | _ => (out, Panics)
    end.

(** After the services are known. *)
Definition deploy_services (out : list output) (services : Services)
  : list output * ending :=
  if (0 <? length (Functions services))%nat then
    let Network :=
      if (String.length (Network (Provider services)) =? 0)%nat then defaultNetwork
      else Network (Provider services) in
    deploy_functions (GatewayURL (Provider services)) Network (constraints g) out
      (Functions services)
  else deploy_from_flags out.

Definition runDeploy : list output * ending :=
  if update g && replace g then ([Printed update_and_replace_message], Returns)
  else
    let out :=
      match readDockerConfig_error with
      | Some err => [Logged ("Unable to read the docker config - %v " +:+ err)]
      | None => []
      end in
    if (0 <? String.length (yamlFile g))%nat then
      match ParseYAMLFile_result with
      | inl err => (out ++ [Logged err], Exits 1)
      | inr None => (out, Panics)
      | inr (Some parsedServices) =>
          let GatewayURL :=
            getGatewayURL (gateway g) defaultGateway
              (GatewayURL (Provider parsedServices)) in
          let Network :=
            if (0 <? String.length (network g))%nat
               && negb (String.eqb (network g) defaultNetwork)
            then network g
            else Network (Provider parsedServices) in
          deploy_services out
            (mkServices (mkProvider GatewayURL Network) (Functions parsedServices))
      end
    else deploy_services out (mkServices (mkProvider EmptyString EmptyString) []).

End RunDeploy.

End Deploy.

(** Two environment files and a missing one; a file's content stands
    for its name. *)
Definition demo_ReadFile (file : string) : string + string :=
  if String.eqb file "missing.yml" then inl "open missing.yml: no such file or directory"
  else inr file.

Definition demo_Unmarshal (bytesOut : string) : string + gmap string string :=
  if String.eqb bytesOut "a.yml" then inr {[ "A" := "1"; "B" := "1" ]}
  else if String.eqb bytesOut "b.yml" then inr {[ "B" := "2" ]}
  else inl "yaml: unmarshal errors".

(** The value of the package variable [constraints] after the loop of
    [runDeploy] has gone through [functions]. *)
Definition constraints_after (constraints : list string)
    (functions : list (string * Deploy.Function)) : list string :=
  foldl (λ c kf, default c (Deploy.Constraints kf.2)) constraints functions.

(** The YAML mode of [runDeploy]: the flags do not clash, a YAML file
    is named, and it parses to at least one function. *)
Definition yaml_mode (g : Deploy.flags)
    (ParseYAMLFile_result : string + option Deploy.Services)
    (parsedServices : Deploy.Services) : Prop :=
  Deploy.update g && Deploy.replace g = false
  ∧ Deploy.yamlFile g ≠ ""
  ∧ ParseYAMLFile_result = inr (Some parsedServices)
  ∧ Deploy.Functions parsedServices ≠ [].

(** A manifest of three functions, of which only [b] has constraints,
    labels, an environment and an environment file. *)
Definition demo_stack (functions : list (string * Deploy.Function)) : Deploy.Services :=
  Deploy.mkServices (Deploy.mkProvider "http://gateway:8080" "") functions.

Definition demo_a : Deploy.Function :=
  Deploy.mkFunction "" "go" "registry/user/a" "" ∅ [] None None.

Definition demo_b : Deploy.Function :=
  Deploy.mkFunction "" "go" "registry/user/b" "" {[ "STAGE" := "dev"; "B" := "0" ]}
    ["a.yml"; "b.yml"] (Some {[ "canary" := "false"; "team" := "x" ]})
    (Some ["node.role==worker"]).

Definition demo_c : Deploy.Function :=
  Deploy.mkFunction "" "go" "registry/user/c" "" ∅ [] None None.

Definition demo_deploy_flags : Deploy.flags :=
  Deploy.mkFlags false false "stack.yml" "" "" "ignored/image" "ignored" "" ""
    ["STAGE=prod"] ["canary=true"] ["flag.constraint==1"] [].

Definition demo_runDeploy (g : Deploy.flags) (functions : list (string * Deploy.Function))
  : list Deploy.output * Deploy.ending :=
  Deploy.runDeploy TrimSpace_ascii demo_ReadFile demo_Unmarshal
    "http://127.0.0.1:8080" "func_functions" (mkConfigFile ∅ "") None
    (inr (Some (demo_stack functions))) g.

(** * Properties *)

(** ** [parseMap] and [preRunBuild] *)

Lemma cut_contains sep s : cut sep s = None ↔ contains sep s = false.
Proof.
  induction s as [|c s IH]; simpl; [done|].
  destruct (Ascii.eqb c sep); simpl; [done|].
  destruct (cut sep s) as [[a b]|]; [|tauto].
  split; [done|]. intros H. apply IH in H. done.
Qed.

Lemma length_zero_empty (s : string) : (0 <? String.length s)%nat = false ↔ s = "".
Proof. destruct s; simpl; split; done. Qed.

Section ParseMapFacts.

Variable TrimSpace : string -> string.

(** One turn of the loop on an accepted entry stores it and goes on. *)
Lemma parseMap_from_well_formed result envvar rest keyName :
  well_formed_entry TrimSpace envvar →
  ∃ k v, cut "=" (TrimSpace envvar) = Some (k, v) ∧
    parseMap_from TrimSpace result (envvar :: rest) keyName
    = parseMap_from TrimSpace (<[k := v]> result) rest keyName.
Proof.
  intros (k & v & Hcut & Hk & Hv). exists k, v. split; [done|].
  simpl. unfold SplitN2. rewrite Hcut. simpl.
  destruct k; [done|]. destruct v; [done|]. done.
Qed.

Lemma parseMap_from_skip result ok rest keyName :
  Forall (well_formed_entry TrimSpace) ok →
  ∃ result', parseMap_from TrimSpace result (ok ++ rest) keyName
             = parseMap_from TrimSpace result' rest keyName.
Proof.
  intros Hok. revert result.
  induction Hok as [|e ok He _ IH]; intros result; [by exists result|].
  destruct (parseMap_from_well_formed result e (ok ++ rest) keyName He)
    as (k & v & _ & Heq).
  rewrite <- app_comm_cons, Heq. apply IH.
Qed.

Lemma parseMap_from_no_separator result envvar rest keyName :
  contains "=" (TrimSpace envvar) = false →
  parseMap_from TrimSpace result (envvar :: rest) keyName = Panic.
Proof.
  intros H. apply cut_contains in H. simpl. unfold SplitN2. by rewrite H.
Qed.

Lemma parseMap_from_error result envvars keyName msg :
  parseMap_from TrimSpace result envvars keyName = Err msg →
  ∃ ok envvar rest, envvars = ok ++ envvar :: rest
    ∧ Forall (well_formed_entry TrimSpace) ok
    ∧ empty_side_entry TrimSpace envvar
    ∧ (msg = empty_name_error keyName envvar ∨ msg = empty_value_error keyName envvar).
Proof.
  revert result. induction envvars as [|e envvars IH]; intros result; [done|].
  simpl. unfold SplitN2.
  destruct (cut "=" (TrimSpace e)) as [[k v]|] eqn:Hcut; simpl; [|done].
  destruct (0 <? String.length k)%nat eqn:Hk; simpl.
  - destruct (0 <? String.length v)%nat eqn:Hv; simpl.
    + intros H. destruct (IH _ H) as (ok & envvar & rest & -> & Hok & Hside & Hmsg).
      exists (e :: ok), envvar, rest. split_and!; try done.
      constructor; [|done]. exists k, v. split_and!; [done| |].
      * intros ->. done.
      * intros ->. done.
    + intros [= <-]. apply length_zero_empty in Hv.
      exists [], e, envvars. split_and!; [done|constructor| |by right].
      exists k, v. tauto.
  - intros [= <-]. apply length_zero_empty in Hk.
    exists [], e, envvars. split_and!; [done|constructor| |by left].
    exists k, v. tauto.
Qed.

(** C10. [parseMap] returns an error only when, after well-formed
    entries, it meets an entry with an empty key or an empty value
    around its first ['=']; when instead the entry it meets contains no
    ['='] at all it panics (reading [s[1]] of a one-element slice), and
    [preRunBuild] panics with it instead of reporting a parse failure. *)
Theorem parseMap_error_or_panic (envvars : list string) (keyName : string) :
  (∀ msg, parseMap TrimSpace envvars keyName = Err msg →
     ∃ ok envvar rest, envvars = ok ++ envvar :: rest
       ∧ Forall (well_formed_entry TrimSpace) ok
       ∧ empty_side_entry TrimSpace envvar
       ∧ (msg = empty_name_error keyName envvar
          ∨ msg = empty_value_error keyName envvar))
  ∧ (∀ ok envvar rest, envvars = ok ++ envvar :: rest →
       Forall (well_formed_entry TrimSpace) ok →
       contains "=" (TrimSpace envvar) = false →
       parseMap TrimSpace envvars keyName = Panic
       ∧ ∀ validateLanguageFlag g, flag_buildArgs g = envvars → keyName = "build-arg" →
           (preRunBuild TrimSpace validateLanguageFlag g).2 = Panic).
Proof.
  split.
  - intros msg. apply parseMap_from_error.
  - intros ok envvar rest -> Hok Hno.
    assert (∀ kn, parseMap TrimSpace (ok ++ envvar :: rest) kn = Panic) as HP.
    { intros kn. unfold parseMap.
      destruct (parseMap_from_skip ∅ ok (envvar :: rest) kn Hok) as [r ->].
      by apply parseMap_from_no_separator. }
    split; [apply HP|].
    intros validate g Hargs ->. unfold preRunBuild. simpl.
    rewrite Hargs, HP. done.
Qed.

End ParseMapFacts.

Lemma parseMap_error_or_panic_witness :
  parseMap TrimSpace_ascii ["NPM_VERSION=0.2.2"; " novalue "] "build-arg" = Panic
  ∧ (preRunBuild TrimSpace_ascii (λ l, (l, None))
       (mkFlags "" "" "" "" "stack.yml" false false 1 false
                ["NPM_VERSION=0.2.2"; " novalue "] ∅)).2 = Panic.
Proof.
  pose proof (proj2 (parseMap_error_or_panic TrimSpace_ascii
                       ["NPM_VERSION=0.2.2"; " novalue "] "build-arg")
                ["NPM_VERSION=0.2.2"] " novalue " [] eq_refl) as H.
  destruct H as [H1 H2].
  - repeat constructor. exists "NPM_VERSION", "0.2.2". by vm_compute.
  - reflexivity.
  - split; [exact H1|]. apply H2; reflexivity.
Defined.

(** Entries with an empty key or value, and one that is accepted. *)
Example parseMap_empty_key :
  parseMap TrimSpace_ascii ["=x"] "build-arg" = Err "Empty build-arg name: [=x]".
Proof. reflexivity. Qed.

Example parseMap_empty_value :
  parseMap TrimSpace_ascii ["a= "] "build-arg" = Err "Empty build-arg value: [a= ]".
Proof. reflexivity. Qed.

Example parseMap_first_separator :
  parseMap TrimSpace_ascii ["a=b=c"] "build-arg" = Ok {[ "a" := "b=c" ]}.
Proof. reflexivity. Qed.

(** ** [runBuild] in single-function mode *)

Lemma string_length_zero (s : string) : (String.length s =? 0)%nat = true ↔ s = "".
Proof. destruct s; simpl; split; done. Qed.

(** With functions parsed and the templates pulled, [runBuild] hands
    the user's [--parallel] value to [build] as it is. *)
Lemma runBuild_dispatch g w services :
  parsed_services g w = inr services →
  PullTemplates_result w = None →
  Functions services ≠ [] →
  runBuild g w = (Dispatch services (flag_parallel g) (flag_shrinkwrap g), None).
Proof.
  intros Hp Hpull Hne. unfold runBuild. rewrite Hp, Hpull.
  destruct (Functions services); [done|]. done.
Qed.

Lemma runBuild_single g w :
  single_function_mode g w →
  (fst (runBuild g w) = NoBuild ∧ is_Some (snd (runBuild g w)))
  ∨ (runBuild g w
     = (Single (mkCall (flag_image g) (flag_handler g) (flag_functionName g)
                       (flag_language g) (flag_nocache g) (flag_squash g)
                       (flag_shrinkwrap g) (flag_buildArgMap g)), None)
     ∧ flag_image g ≠ "" ∧ flag_handler g ≠ "" ∧ flag_functionName g ≠ "").
Proof.
  unfold single_function_mode, runBuild.
  destruct (parsed_services g w) as [err|services]; [by eauto|].
  intros ->. destruct (PullTemplates_result w); [by eauto|]. simpl.
  destruct (String.length (flag_image g) =? 0)%nat eqn:Hi; [by eauto|].
  destruct (String.length (flag_handler g) =? 0)%nat eqn:Hh; [by eauto|].
  destruct (String.length (flag_functionName g) =? 0)%nat eqn:Hn; [by eauto|].
  right. split_and!; [done| | |]; intros Heq; rewrite Heq in *; done.
Qed.

(** C3 as stated fails: in single-function mode with image, handler
    and name given and the language left empty, [runBuild] returns no
    error and invokes the Build Executor with the empty language. *)
Lemma runBuild_empty_language_builds :
  single_function_mode (mkFlags "img" "./fn" "fn" "" "" false false 1 false [] ∅)
                       (mkCollaborators (inr None) None)
  ∧ flag_language (mkFlags "img" "./fn" "fn" "" "" false false 1 false [] ∅) = ""
  ∧ runBuild (mkFlags "img" "./fn" "fn" "" "" false false 1 false [] ∅)
             (mkCollaborators (inr None) None)
    = (Single (mkCall "img" "./fn" "fn" "" false false false ∅), None).
Proof. split_and!; reflexivity. Qed.

(** C3, amended.  In single-function mode an empty image, handler or
    name makes [runBuild] return an error without invoking the Build
    Executor.  The language is not examined: with those three present,
    a run that returns no error has invoked the Build Executor with the
    language as given, empty or not. *)
Theorem runBuild_single_function_checks (g : flags) (w : collaborators) :
  single_function_mode g w →
  (flag_image g = "" ∨ flag_handler g = "" ∨ flag_functionName g = "" →
     is_Some (snd (runBuild g w)) ∧ starts_build (fst (runBuild g w)) = false)
  ∧ (flag_image g ≠ "" → flag_handler g ≠ "" → flag_functionName g ≠ "" →
     snd (runBuild g w) = None →
     runBuild g w
     = (Single (mkCall (flag_image g) (flag_handler g) (flag_functionName g)
                       (flag_language g) (flag_nocache g) (flag_squash g)
                       (flag_shrinkwrap g) (flag_buildArgMap g)), None)).
Proof.
  intros Hsingle.
  destruct (runBuild_single g w Hsingle) as [[Hno Herr]|(Hrun & Hi & Hh & Hn)].
  - split.
    + intros _. by rewrite Hno.
    + intros _ _ _ Hnil. rewrite Hnil in Herr. by destruct Herr.
  - split; [|done]. intros [?|[?|?]]; done.
Qed.

Lemma runBuild_single_function_checks_witness :
  is_Some (snd (runBuild (mkFlags "img" "" "fn" "python" "" false false 1 false [] ∅)
                         (mkCollaborators (inr None) None)))
  ∧ starts_build (fst (runBuild (mkFlags "img" "" "fn" "python" "" false false 1 false [] ∅)
                                (mkCollaborators (inr None) None))) = false.
Proof.
  apply (proj1 (runBuild_single_function_checks
                  (mkFlags "img" "" "fn" "python" "" false false 1 false [] ∅)
                  (mkCollaborators (inr None) None) eq_refl)).
  right; left; reflexivity.
Defined.

(** ** The dispatcher: lists of workers and logs *)

(** Moving one worker changes a sum over the workers by the difference
    of its two summands, and the functions held by the workers by the
    function it drops or takes. *)
Lemma total_insert (m : worker_pc → nat) (ws : list worker) (j : nat) w w' :
  ws !! j = Some w →
  total m (<[j := w']> ws) + m (wpc w) = total m ws + m (wpc w').
Proof.
  intros H. unfold total.
  rewrite <- (take_drop_middle ws j w H) at 2.
  rewrite insert_take_drop by (by eapply lookup_lt_Some).
  rewrite !sum_list_with_app. simpl. lia.
Qed.

Lemma total_app m ws w : total m (ws ++ [w]) = total m ws + m (wpc w).
Proof. unfold total. rewrite sum_list_with_app. simpl. lia. Qed.

Lemma held_insert h (ws : list worker) (j : nat) w w' :
  ws !! j = Some w →
  held h (<[j := w']> ws) ++ option_list (h (wpc w))
  ≡ₚ held h ws ++ option_list (h (wpc w')).
Proof.
  intros H. unfold held.
  rewrite <- (take_drop_middle ws j w H) at 2.
  rewrite insert_take_drop by (by eapply lookup_lt_Some).
  rewrite !omap_app. simpl.
  destruct (h (wpc w)), (h (wpc w')); simpl; rewrite ?app_nil_r; try done.
  all: rewrite <- ?app_assoc; simpl; rewrite <- ?Permutation_middle.
  all: rewrite ?app_nil_r; try done.
  apply perm_swap.
Qed.

Lemma held_app h ws w : held h (ws ++ [w]) = held h ws ++ option_list (h (wpc w)).
Proof. unfold held. rewrite omap_app. simpl. by destruct (h (wpc w)). Qed.

(** The shape of every accounting step: the log grows by [a] on the left
    and by [b] on the right while worker [j] moves. *)
Lemma stage_step (A B a b : list Function) h (ws : list worker) (j : nat) w w' :
  ws !! j = Some w →
  A ≡ₚ B ++ held h ws →
  a ++ option_list (h (wpc w)) ≡ₚ b ++ option_list (h (wpc w')) →
  A ++ a ≡ₚ (B ++ b) ++ held h (<[j := w']> ws).
Proof.
  intros Hl HA Hab.
  apply (Permutation_app_inv_r (option_list (h (wpc w)))).
  rewrite <- !app_assoc, (held_insert h ws j w w' Hl), Hab, HA.
  rewrite <- !app_assoc. f_equiv.
  rewrite !app_assoc. f_equiv. apply Permutation_app_comm.
Qed.

(** A worker keeps its index whatever it does. *)
Lemma fmap_windex_jump (ws : list worker) (j : nat) i pc pc' :
  ws !! j = Some (mkWorker i pc) →
  windex <$> <[j := mkWorker i pc']> ws = windex <$> ws.
Proof.
  intros H. rewrite list_fmap_insert. simpl.
  apply list_insert_id. by rewrite list_lookup_fmap, H.
Qed.

Lemma indices_S n : indices (S n) = indices n ++ [Z.of_nat n].
Proof. unfold indices. rewrite seq_S, fmap_app. done. Qed.

Lemma indices_lookup (ws : list worker) (j : nat) w :
  windex <$> ws = indices (length ws) → ws !! j = Some w → windex w = Z.of_nat j.
Proof.
  intros Hi Hl.
  assert ((windex <$> ws) !! j = Some (windex w)) as H by (by rewrite list_lookup_fmap, Hl).
  rewrite Hi in H. unfold indices in H. rewrite list_lookup_fmap in H.
  apply lookup_lt_Some in Hl.
  rewrite lookup_seq_lt in H by done. simpl in H. congruence.
Qed.

Lemma events_of_snoc i l e :
  events_of i (l ++ [e])
  = events_of i l ++ (if decide (worker_of e = Some i) then [e] else []).
Proof.
  unfold events_of. by rewrite filter_app.
Qed.

(** An element of a list that was extended at the end is the new last
    element or was there before. *)
Lemma snoc_split {A} (l l1 l2 : list A) e x :
  l ++ [e] = l1 ++ x :: l2 →
  (l2 = [] ∧ x = e ∧ l1 = l) ∨ (∃ l2', l2 = l2' ++ [e] ∧ l = l1 ++ x :: l2').
Proof.
  destruct l2 as [|y l2 _] using rev_ind.
  - intros H. apply app_inj_tail in H as [-> ->]. by left.
  - intros H. right. exists l2.
    rewrite app_comm_cons, app_assoc in H. apply app_inj_tail in H as [-> ->]. done.
Qed.

(** With a WaitGroup counter of zero no worker is between [wg.Add]
    and [wg.Done], so none holds a function. *)
Lemma total_counted_zero ws :
  total counted ws = 0 → Forall (λ w, holds (wpc w) = None) ws.
Proof.
  unfold total. induction ws as [|w ws IH]; simpl; [constructor|].
  intros H. constructor; [|apply IH; lia].
  destruct (wpc w); simpl in *; done || lia.
Qed.

(** Case analysis on a step: one goal per statement of [build]. *)
Ltac step_inv H :=
  match type of H with
  | step _ _ _ ?s = Some _ => destruct s as [p ws cl n d lg]
  end;
  unfold step, producer_step, worker_step, handoff_step, fatal_step in H;
  simpl in H;
  repeat (match type of H with
          | context [match ?x with _ => _ end] => destruct x eqn:?
          end; simplify_option_eq);
  repeat match goal with w : worker |- _ => destruct w as [wi wp] end;
  simplify_eq/=.

(** ** The dispatcher: every reachable state satisfies the invariant *)

Section Invariant.
Variable services : Services.
Variable queueDepth : Z.
Local Abbreviation invariant := (invariant services queueDepth).
Local Abbreviation step := (step services queueDepth).

(** Every step uses up fuel: schedules are finite. *)
Lemma step_fuel c s s' :
  step c s = Some s' →
  (fuel services queueDepth s' < fuel services queueDepth s)%nat.
Proof.
  intros H. step_inv H.
  all: unfold fuel;
    cbn [dead prod workers emit jump goto spawn set_closed set_wg die
         producer_fuel length].
  all: rewrite ?total_app; cbn [wpc worker_fuel]; try lia.
  all: match goal with
       | Hl : ?ws !! ?j = Some ?w |- context [total ?m (<[?j := ?w']> ?ws)] =>
           pose proof (total_insert m ws j w w' Hl); cbn [wpc worker_fuel] in *; lia
       end.
Qed.

(** The producer hands out the descriptors and prints the skip notices
    in iteration order. *)
Lemma step_handed c s s' :
  invariant s → step c s = Some s' →
  handed (log s') ++ pending services (prod s') = enqueued (Functions services)
  ∧ skips (log s') ++ pending_skips services (prod s') = skipped (Functions services).
Proof.
  intros [H1 H2 _ _ _ _ _ _ _ _ _ _ _ _ _ _] H. step_inv H.
  all: unfold handed, skips in *; rewrite ?omap_app; simpl in *.
  all: repeat match goal with Hs : SkipBuild _ = _ |- _ => rewrite Hs in * end.
  all: rewrite ?app_nil_r in *; rewrite <- ?app_assoc; done.
Qed.

(** The workers are those spawned, numbered from zero; the channel is
    closed exactly after the deferred [close]. *)
Lemma step_spawns c s s' :
  invariant s → step c s = Some s' →
  spawns (log s') = windex <$> workers s'
  ∧ windex <$> workers s' = indices (length (workers s'))
  ∧ match prod s' with
    | PSpawn i => i = Z.of_nat (length (workers s')) ∧ (i ≤ Z.max 0 queueDepth)%Z
    | _ => Z.of_nat (length (workers s')) = Z.max 0 queueDepth
    end
  ∧ closed s' = after_close (prod s').
Proof.
  intros [_ _ H3 H4 H5 H6 _ _ _ _ _ _ _ _ _ _] H. step_inv H.
  all: unfold spawns in *; rewrite ?omap_app; simpl in *.
  all: rewrite ?app_nil_r, ?length_insert, ?length_app, ?fmap_app; simpl.
  all: try match goal with
       | Hl : ?ws !! ?j = Some (mkWorker ?i ?pc)
         |- context [windex <$> <[?j := mkWorker ?i ?pc']> ?ws] =>
           rewrite (fmap_windex_jump ws j i pc pc' Hl)
       end.
  all: try (split_and!; done || lia).
  - destruct H5 as [-> H5]. rewrite Nat.add_1_r, indices_S, <- H4, H3.
    split_and!; done || lia.
Qed.

Local Ltac use_lookup :=
  repeat match goal with
  | HF : Forall ?P ?ws, Hl : ?ws !! ?j = Some ?w |- _ =>
      lazymatch goal with
      | _ : P w |- _ => fail
      | _ => assert (P w) by exact (proj1 (Forall_lookup P ws) HF j w Hl)
      end
  end; simpl in *.

(** No worker leaves its loop while the channel is open. *)
Lemma step_open c s s' :
  invariant s → step c s = Some s' →
  closed s' = false → Forall (λ w, left_loop (wpc w) = false) (workers s').
Proof.
  intros [_ _ _ _ _ _ H7 _ _ _ _ _ _ _ _ _] H. step_inv H.
  all: intros Hc; try done; specialize (H7 Hc).
  all: try (apply Forall_insert; [done|]); try done.
  all: try (use_lookup; done).
  - apply Forall_app. split; [done|]. by repeat constructor.
Qed.

(** The WaitGroup counts the workers between [wg.Add] and [wg.Done]. *)
Lemma step_wg c s s' :
  invariant s → step c s = Some s' →
  wg s' = Z.of_nat (total counted (workers s')).
Proof.
  intros [_ _ _ _ _ _ _ H8 _ _ _ _ _ _ _ _] H. step_inv H.
  all: rewrite ?total_app; simpl; try lia.
  all: match goal with
       | Hl : ?ws !! ?j = Some ?w |- context [total ?m (<[?j := ?w']> ?ws)] =>
           pose proof (total_insert m ws j w w' Hl); simpl in *; lia
       end.
Qed.

(** After the return of [build] no worker holds a function. *)
Lemma step_returned c s s' :
  invariant s → step c s = Some s' →
  prod s' = PReturned → Forall (λ w, holds (wpc w) = None) (workers s').
Proof.
  intros [_ _ _ _ _ _ _ H8 H9 _ _ _ _ _ _ _] H. step_inv H.
  all: intros Hp; try done; try specialize (H9 Hp).
  all: try (apply Forall_insert; [done|]); try done.
  all: try (use_lookup; done).
  - apply total_counted_zero. lia.
Qed.

Local Ltac stage_tac :=
  unfold handed, started, builds, dones in *;
  rewrite ?omap_app, ?filter_app; simpl;
  rewrite ?held_app; simpl; rewrite ?app_nil_r;
  try done;
  try match goal with
  | Hl : ?ws !! ?j = Some ?w, IH : ?A ≡ₚ ?B ++ held ?h ?ws
    |- _ ≡ₚ _ ++ held ?h (<[?j := ?w']> ?ws) =>
      first
        [ apply (stage_step A B [] [] h ws j w w' Hl IH)
        | rewrite <- (app_nil_r A);
          apply (stage_step A B [] _ h ws j w w' Hl IH)
        | rewrite <- (app_nil_r B);
          apply (stage_step A B _ [] h ws j w w' Hl IH)
        | rewrite <- (app_nil_r A), <- (app_nil_r B);
          apply (stage_step A B [] [] h ws j w w' Hl IH)
        | apply (stage_step A B _ _ h ws j w w' Hl IH) ];
      simpl; try done
  end.

(** Every descriptor handed to a worker has its start marker, its
    Build Executor call (when it names a language) and its done marker
    logged, or is still held by a worker that has not got that far. *)
Lemma step_started c s s' :
  invariant s → step c s = Some s' →
  handed (log s') ≡ₚ started (log s') ++ held holds_unstarted (workers s').
Proof.
  intros [_ _ _ _ _ _ _ _ _ H10 _ _ _ _ _ _] H. step_inv H.
  all: stage_tac.
Qed.

Lemma step_done c s s' :
  invariant s → step c s = Some s' →
  handed (log s') ≡ₚ dones (log s') ++ held holds (workers s').
Proof.
  intros [_ _ _ _ _ _ _ _ _ _ _ H12 _ _ _ _] H. step_inv H.
  all: stage_tac.
Qed.

Lemma has_language_length f :
  has_language f = negb (String.length (Language f) =? 0)%nat.
Proof. done. Qed.

Lemma step_built c s s' :
  invariant s → step c s = Some s' →
  filter (λ f, has_language f = true) (handed (log s'))
  ≡ₚ builds (log s') ++ held holds_unbuilt (workers s').
Proof.
  intros [_ _ _ _ _ _ _ _ _ _ H11 _ _ _ _ _] H. step_inv H.
  all: stage_tac.
  all: try match goal with
           | Hz : (String.length _ =? 0)%nat = _ |- _ =>
               by rewrite has_language_length, Hz
           end.
  rewrite filter_cons, filter_nil.
  case_decide as Hd; rewrite ?Hd; simpl; [done|].
  match goal with |- context [has_language ?f] => by destruct (has_language f) end.
Qed.

(** Worker events carry the index of an existing worker. *)
Lemma step_events c s s' :
  invariant s → step c s = Some s' →
  Forall (λ e, ∀ i, worker_of e = Some i →
                    (0 ≤ i < Z.of_nat (length (workers s')))%Z) (log s').
Proof.
  intros [_ _ _ H4 _ _ _ _ _ _ _ _ H13 _ _ _] H. step_inv H.
  all: rewrite ?length_insert, ?length_app; simpl; try done.
  all: try (apply Forall_app; split; [|apply Forall_singleton; simpl]); try done.
  all: try match goal with
       | Hl : ?ws !! ?j = Some ?w |- ∀ _, Some _ = Some _ → _ =>
           intros ? [= <-];
           pose proof (indices_lookup ws j w H4 Hl);
           apply lookup_lt_Some in Hl; simpl in *; lia
       end.
  - eapply Forall_impl; [exact H13|]. simpl. intros e He i' Hi.
    specialize (He i' Hi). lia.
Qed.

Lemma events_of_app i l1 l2 : events_of i (l1 ++ l2) = events_of i l1 ++ events_of i l2.
Proof. unfold events_of. by rewrite filter_app. Qed.

(** A worker that is being spawned has no events yet. *)
Lemma events_of_fresh (n : nat) lg :
  Forall (λ e, ∀ i, worker_of e = Some i → (0 ≤ i < Z.of_nat n)%Z) lg →
  events_of (Z.of_nat n) lg = [].
Proof.
  induction 1 as [|e lg He _ IH]; [done|].
  unfold events_of in *. rewrite filter_cons. case_decide as Hd; [|done].
  specialize (He _ Hd). lia.
Qed.

(** A step of worker [j] that logs [es] extends the trace of [j] and
    leaves the traces of the other workers alone. *)
Lemma trace_jump (ws : list worker) lg (j : nat) wi pc pc' es :
  windex <$> ws = indices (length ws) →
  ws !! j = Some (mkWorker wi pc) →
  (∀ j w, ws !! j = Some w → traced lg w) →
  (∀ hist, ∃ hist',
     flat_map (cycle wi) hist ++ partial_cycle wi pc ++ es
     = flat_map (cycle wi) hist' ++ partial_cycle wi pc') →
  Forall (λ e, worker_of e = Some wi) es →
  ∀ j' w', <[j := mkWorker wi pc']> ws !! j' = Some w' → traced (lg ++ es) w'.
Proof.
  intros Hidx Hl Htr Hcyc Hes j' w' Hl'. unfold traced. rewrite events_of_app.
  destruct (decide (j = j')) as [<-|Hne].
  - rewrite list_lookup_insert_eq in Hl' by (by eapply lookup_lt_Some).
    injection Hl' as <-. simpl.
    destruct (Htr j _ Hl) as [hist Hh]. simpl in Hh. rewrite Hh.
    destruct (Hcyc hist) as [hist' Hh']. exists hist'.
    rewrite <- Hh', <- app_assoc. do 2 f_equal.
    unfold events_of. clear -Hes. induction Hes as [|e es He _ IH]; [done|].
    rewrite filter_cons, decide_True by done. by rewrite IH.
  - rewrite list_lookup_insert_ne in Hl' by done.
    destruct (Htr j' w' Hl') as [hist Hh]. exists hist. rewrite Hh.
    assert (events_of (windex w') es = []) as ->; [|by rewrite app_nil_r].
    pose proof (indices_lookup ws j _ Hidx Hl) as H1.
    pose proof (indices_lookup ws j' _ Hidx Hl') as H2. simpl in H1.
    unfold events_of. clear -Hes H1 H2 Hne.
    induction Hes as [|e es He _ IH]; [done|].
    rewrite filter_cons, decide_False; [done|]. rewrite He. intros [= ->]. lia.
Qed.

Lemma step_building c s s' :
  invariant s → step c s = Some s' → Forall building_has_language (workers s').
Proof.
  intros [_ _ _ _ _ _ _ _ _ _ _ _ _ H14 _ _] H. step_inv H.
  all: try done.
  all: try (apply Forall_insert; [done|]); try done.
  - apply Forall_app. split; [done|]. by apply Forall_singleton.
  - unfold building_has_language. simpl. rewrite has_language_length.
    match goal with Hz : (String.length _ =? 0)%nat = _ |- _ => by rewrite Hz end.
Qed.

(** Each worker runs its loop sequentially. *)
Lemma step_trace c s s' :
  invariant s → step c s = Some s' →
  ∀ j w, workers s' !! j = Some w → traced (log s') w.
Proof.
  intros [_ _ _ H4 H5 _ _ _ _ _ _ _ H13 HB H14 _] H. step_inv H.
  all: try done.
  all: try lazymatch goal with
       | Hl : ?ws !! ?j = Some (mkWorker ?wi ?pc)
         |- ∀ _ _, <[?j := mkWorker ?wi ?pc']> ?ws !! _ = Some _ → traced (?lg ++ ?es) _ =>
           apply (trace_jump ws lg j wi pc pc' es H4 Hl H14);
           [intros hist|by repeat constructor]
       | Hl : ?ws !! ?j = Some (mkWorker ?wi ?pc)
         |- ∀ _ _, <[?j := mkWorker ?wi ?pc']> ?ws !! _ = Some _ → traced ?lg _ =>
           rewrite <- (app_nil_r lg);
           apply (trace_jump ws lg j wi pc pc' [] H4 Hl H14);
           [intros hist|by repeat constructor]
       end.
  all: try (use_lookup; unfold building_has_language in *; simpl in *).
  all: try match goal with
           | Hz : (String.length (Language ?f) =? 0)%nat = ?b |- _ =>
               assert (has_language f = negb b) as Hlang
                 by (by rewrite has_language_length, Hz); simpl in Hlang
           end.
  all: try (exists hist; simpl; rewrite ?app_nil_r;
            repeat match goal with Hh : has_language _ = _ |- _ => rewrite Hh end;
            done).
  - intros j w Hl. unfold traced. rewrite events_of_app. simpl. rewrite app_nil_r.
    destruct H5 as [-> _].
    apply lookup_app_Some in Hl as [Hl|[Hlen Hl]].
    + by apply (H14 j).
    + apply list_lookup_singleton_Some in Hl as [_ <-]. simpl.
      exists []. by rewrite (events_of_fresh _ _ H13).
  - intros j w Hl. unfold traced. rewrite events_of_app. simpl. rewrite app_nil_r.
    by apply (H14 j).
  - exists (hist ++ [function]). rewrite flat_map_app. simpl.
    by rewrite !app_nil_r.
Qed.

Lemma handed_middle l1 j f l2 : handed (l1 ++ EHandoff j f :: l2) ≠ [].
Proof.
  unfold handed. rewrite omap_app. simpl. intros H.
  apply app_eq_nil in H as [_ H]. done.
Qed.

(** All spawns precede the first handoff. *)
Lemma step_order c s s' :
  invariant s → step c s = Some s' →
  ∀ l1 j f l2, log s' = l1 ++ EHandoff j f :: l2 →
    spawns l1 = indices (Z.to_nat queueDepth) ∧ spawns l2 = [].
Proof.
  intros [H1 _ H3 H4 H5 _ _ _ _ _ _ _ _ _ _ H15] H. step_inv H.
  all: try done.
  all: intros l1 j0 f0 l2 Hlog;
    apply snoc_split in Hlog as [(-> & Hx & ->)|(l2' & -> & ->)];
    try discriminate Hx.
  all: try (destruct (H15 _ _ _ _ eq_refl) as [Hs1 Hs2]; split; [done|];
            unfold spawns in *; rewrite omap_app, Hs2; done).
  - exfalso. apply (handed_middle l1 j0 f0 l2').
    by apply (app_inv_tail (enqueued (Functions services)) _ []).
  - split; [|done]. rewrite H3, H4. f_equal. lia.
Qed.

Lemma invariant_init : invariant (init).
Proof.
  split; simpl; try done.
  - split; [done|lia].
  - intros l1 j f l2 H. by destruct l1.
Qed.

Lemma invariant_step c s s' : invariant s → step c s = Some s' → invariant s'.
Proof.
  intros Hi Hs.
  destruct (step_handed c s s' Hi Hs) as [? ?].
  destruct (step_spawns c s s' Hi Hs) as (? & ? & ? & ?).
  split; try done.
  - by apply (step_open c s).
  - by apply (step_wg c s).
  - by apply (step_returned c s).
  - by apply (step_started c s).
  - by apply (step_built c s).
  - by apply (step_done c s).
  - by apply (step_events c s).
  - by apply (step_building c s).
  - by apply (step_trace c s).
  - by apply (step_order c s).
Qed.

Lemma invariant_run sched s s' :
  invariant s → run services queueDepth sched s = Some s' → invariant s'.
Proof.
  revert s. induction sched as [|c sched IH]; intros s Hi; simpl.
  - by intros [= <-].
  - destruct (step c s) as [s1|] eqn:Hs; simpl; [|done].
    apply IH. by apply (invariant_step c s).
Qed.

Lemma reachable_invariant s : reachable services queueDepth s → invariant s.
Proof. intros [sched H]. apply (invariant_run sched init); [apply invariant_init|done]. Qed.

Lemma run_fuel sched s s' :
  run services queueDepth sched s = Some s' →
  (length sched + fuel services queueDepth s' ≤ fuel services queueDepth s)%nat.
Proof.
  revert s. induction sched as [|c sched IH]; intros s; simpl.
  - intros [= <-]. lia.
  - destruct (step c s) as [s1|] eqn:Hs; simpl; [|done].
    intros H. apply IH in H. apply step_fuel in Hs. lia.
Qed.
End Invariant.

(** ** The dispatcher: progress and completion *)

Lemma held_nil (h : worker_pc → option Function) ws :
  (∀ pc, holds pc = None → h pc = None) →
  Forall (λ w, holds (wpc w) = None) ws → held h ws = [].
Proof.
  intros Hh. induction 1 as [|w ws Hw _ IH]; [done|].
  unfold held in *. simpl. by rewrite (Hh _ Hw).
Qed.

Lemma total_counted_pos ws :
  (0 < total counted ws)%nat →
  ∃ (j : nat) w, ws !! j = Some w ∧ counted (wpc w) = 1%nat.
Proof.
  unfold total. induction ws as [|w ws IH]; simpl; [lia|].
  intros H. destruct (counted (wpc w)) as [|[|n]] eqn:Hc.
  - destruct IH as (j & w' & Hl & Hw); [lia|]. by exists (S j), w'.
  - by exists 0%nat, w.
  - destruct (wpc w); simpl in Hc; lia.
Qed.

Section Progress.
Variable services : Services.
Variable queueDepth : Z.
Local Abbreviation invariant := (invariant services queueDepth).
Local Abbreviation step := (step services queueDepth).

(** With at least one worker the dispatch never blocks before it
    returns: as long as the process is alive some party can take a step
    that keeps it alive. *)
Lemma progress s :
  (1 ≤ queueDepth)%Z → invariant s →
  prod s ≠ PReturned → dead s = false → can_move services queueDepth s.
Proof.
  intros Hq Hinv Hp Hd. unfold can_move.
  destruct s as [p ws cl n d lg]. simpl in *. subst d.
  destruct p as [i|[|[k f] rest]|g rest| | |]; try done.
  - exists Producer. unfold step, producer_step. simpl. destruct (i <? queueDepth)%Z; eauto.
  - exists Producer. unfold step, producer_step. simpl. eauto.
  - exists Producer. unfold step, producer_step. simpl. destruct (SkipBuild f); eauto.
  - pose proof (inv_spawning _ _ _ Hinv) as Hlen. simpl in Hlen.
    pose proof (inv_closed _ _ _ Hinv) as Hcl. simpl in Hcl. subst cl.
    pose proof (inv_open _ _ _ Hinv eq_refl) as Hopen. simpl in Hopen.
    destruct ws as [|[wi pc] ws]; simpl in Hlen; [lia|].
    apply Forall_cons in Hopen as [Hw _]. simpl in Hw.
    destruct pc; try done.
    all: try (exists (Worker 0); unfold step, worker_step; simpl; eauto; fail).
    + exists (Handoff 0). unfold step, handoff_step. simpl. eauto.
    + exists (Worker 0). unfold step, worker_step. simpl.
      destruct (String.length (Language function) =? 0)%nat; eauto.
  - exists Producer. unfold step, producer_step. simpl. eauto.
  - pose proof (inv_wg _ _ _ Hinv) as Hwg. simpl in Hwg.
    pose proof (inv_closed _ _ _ Hinv) as Hcl. simpl in Hcl. subst cl.
    destruct (decide (n = 0%Z)) as [->|Hn].
    + exists Producer. unfold step, producer_step. simpl. eauto.
    + destruct (total_counted_pos ws) as (j & [wi pc] & Hl & Hc); [lia|].
      exists (Worker j). unfold step, worker_step. simpl. rewrite Hl. simpl.
      destruct pc; simpl in Hc; try done; eauto.
      * destruct (String.length (Language function) =? 0)%nat; eauto.
      * destruct (n - 1 <? 0)%Z eqn:Hneg; [lia|]. eauto.
Qed.

(** Hence an alive dispatch with at least one worker can always be
    run to the return of [build]. *)
Lemma returns s :
  (1 ≤ queueDepth)%Z → invariant s → dead s = false →
  can_return services queueDepth s.
Proof.
  intros Hq. remember (fuel services queueDepth s) as n eqn:Hn.
  revert s Hn. induction (lt_wf n) as [n _ IH]. intros s -> Hinv Hd.
  destruct (prod s) eqn:Hp.
  6: { exists [], s. by simpl. }
  all: destruct (progress s Hq Hinv) as (c & s1 & Hs & Hd1); [by rewrite Hp|done|].
  all: destruct (IH (fuel services queueDepth s1)
                    (step_fuel services queueDepth c s s1 Hs) s1 eq_refl
                    (invariant_step services queueDepth c s s1 Hinv Hs) Hd1)
         as (sched & s' & Hrun & Hr & Hd').
  all: exists (c :: sched), s'; split; [|done].
  all: cbn [run]; by rewrite Hs.
Qed.
End Progress.

Lemma enqueued_names_sublist fns : Name <$> enqueued fns `sublist_of` keys fns.
Proof.
  induction fns as [|[k f] fns IH]; simpl; [done|].
  destruct (SkipBuild f); simpl.
  - by apply sublist_cons.
  - by apply sublist_skip.
Qed.

Lemma valid_builds_names fns :
  unique_keys fns → NoDup (Name <$> valid_builds fns).
Proof.
  intros H. eapply sublist_NoDup; [exact H|].
  etrans; [|apply enqueued_names_sublist].
  unfold valid_builds. apply fmap_sublist, sublist_filter.
Qed.

(** The enqueued descriptors are the entries that are not skipped,
    with the key as name. *)
Lemma elem_of_enqueued g fns :
  g ∈ enqueued fns ↔ ∃ k f, (k, f) ∈ fns ∧ SkipBuild f = false ∧ g = set_Name k f.
Proof.
  induction fns as [|[k f] fns IH]; simpl.
  - split; [by intros ?%elem_of_nil|]. by intros (? & ? & ?%elem_of_nil & _).
  - destruct (SkipBuild f) eqn:Hs.
    + rewrite IH. split.
      * intros (k' & f' & ? & ? & ?). exists k', f'. split_and!; try done. by right.
      * intros (k' & f' & [[= -> ->]|?]%elem_of_cons & ? & ?); [congruence|]. eauto.
    + rewrite elem_of_cons, IH. split.
      * intros [->|(k' & f' & ? & ? & ?)].
        -- exists k, f. split_and!; try done. by left.
        -- exists k', f'. split_and!; try done. by right.
      * intros (k' & f' & [[= -> ->]|?]%elem_of_cons & ? & ?); [by left|]. right. eauto.
Qed.

Lemma unique_keys_lookup fns k f f' :
  unique_keys fns → (k, f) ∈ fns → (k, f') ∈ fns → f = f'.
Proof.
  unfold unique_keys, keys.
  induction fns as [|[k0 f0] fns IH]; simpl; [by intros _ ?%elem_of_nil|].
  intros [Hk Hnd]%NoDup_cons.
  assert (∀ x, (k0, x) ∈ fns → False) as Hfresh.
  { intros x Hx. apply Hk. apply list_elem_of_fmap. by exists (k0, x). }
  intros [[= -> ->]|H1]%elem_of_cons [[= ->]|H2]%elem_of_cons; try done.
  - by destruct (Hfresh f').
  - subst. by destruct (Hfresh f).
  - by apply IH.
Qed.

Section Returned.
Variable services : Services.
Variable queueDepth : Z.
Local Abbreviation invariant := (invariant services queueDepth).
Local Abbreviation fns := (Functions services).

Lemma builds_at_most_once s :
  invariant s → ∃ later, builds (log s) ++ later ≡ₚ valid_builds fns.
Proof.
  intros Hinv.
  exists (held holds_unbuilt (workers s)
          ++ filter (λ f, has_language f = true) (pending services (prod s))).
  unfold valid_builds. rewrite <- (inv_handed _ _ _ Hinv), filter_app.
  rewrite (inv_built _ _ _ Hinv). by rewrite app_assoc.
Qed.

Lemma returned_complete s :
  invariant s → prod s = PReturned →
  handed (log s) = enqueued fns
  ∧ started (log s) ≡ₚ enqueued fns
  ∧ builds (log s) ≡ₚ valid_builds fns
  ∧ dones (log s) ≡ₚ enqueued fns.
Proof.
  intros Hinv Hp.
  pose proof (inv_returned _ _ _ Hinv Hp) as Hret.
  pose proof (inv_handed _ _ _ Hinv) as Hh. rewrite Hp in Hh. simpl in Hh.
  rewrite app_nil_r in Hh.
  pose proof (inv_started _ _ _ Hinv) as H1.
  pose proof (inv_built _ _ _ Hinv) as H2.
  pose proof (inv_done _ _ _ Hinv) as H3.
  rewrite held_nil, app_nil_r in H1, H2, H3; try done.
  - unfold valid_builds. rewrite <- Hh. done.
  - by intros [].
  - by intros [].
Qed.

Lemma builds_have_language s :
  invariant s → Forall (λ f, has_language f = true) (builds (log s)).
Proof.
  intros Hinv. apply Forall_forall. intros f Hf.
  assert (f ∈ filter (λ f, has_language f = true) (handed (log s))) as H.
  { rewrite (inv_built _ _ _ Hinv). apply elem_of_app. by left. }
  by apply list_elem_of_filter in H as [? _].
Qed.
End Returned.

Lemma NoDup_count {A} `{EqDecision A} (l : list A) (x : A) :
  NoDup l → x ∈ l → length (filter (λ y, y = x) l) = 1%nat.
Proof.
  induction 1 as [|y l Hy Hnd IH]; [by intros ?%elem_of_nil|].
  rewrite filter_cons. intros [->|Hx]%elem_of_cons.
  - rewrite decide_True by done. simpl. f_equal.
    apply length_zero_iff_nil, elem_of_nil_inv. intros z Hz.
    apply list_elem_of_filter in Hz as [-> Hz]. done.
  - rewrite decide_False; [by apply IH|]. by intros ->.
Qed.

Lemma has_language_set_Name k f :
  has_language (set_Name k f) = true ↔ Language f ≠ "".
Proof. unfold has_language. simpl. by destruct (Language f). Qed.

Section ExactlyOnce.
Variable g : flags.
Variable services : Services.
Variable queueDepth : Z.
Variable shrinkwrap : bool.
Local Abbreviation fns := (Functions services).

(** At no time do two workers hold the same descriptor. *)
Lemma held_names_distinct s :
  unique_keys fns → invariant services queueDepth s →
  NoDup (Name <$> held holds (workers s)).
Proof.
  intros Hk Hinv.
  assert (NoDup (Name <$> enqueued fns)) as Hnd
    by (eapply sublist_NoDup; [exact Hk|apply enqueued_names_sublist]).
  rewrite <- (inv_handed _ _ _ Hinv), fmap_app in Hnd.
  apply NoDup_app in Hnd as (Hnd & _ & _).
  rewrite (inv_done _ _ _ Hinv), fmap_app in Hnd.
  by apply NoDup_app in Hnd as (_ & _ & Hnd).
Qed.

(** C1. With at least one worker, every descriptor that is not
    skipped and names a language is passed to the Build Executor
    exactly once per dispatch.  At no time has one been passed twice,
    nor do two workers hold the same descriptor.  When [build] has
    returned each has been passed: the invocation log holds exactly
    their calls, and the name of every such function occurs in it once.
    Until then the dispatch is never blocked, every schedule is bounded,
    and the dispatch can be run to the return of [build] as long as the
    Build Executor has not ended the process. *)
Theorem build_exactly_once (sched : list choice) (s : state) :
  (1 ≤ queueDepth)%Z →
  unique_keys fns →
  run services queueDepth sched init = Some s →
  (∃ later, builds (log s) ++ later ≡ₚ valid_builds fns)
  ∧ NoDup (Name <$> held holds (workers s))
  ∧ (prod s = PReturned →
       builds (log s) ≡ₚ valid_builds fns
       ∧ invocations g shrinkwrap (log s) ≡ₚ call_of g shrinkwrap <$> valid_builds fns
       ∧ ∀ k f, (k, f) ∈ fns → SkipBuild f = false → Language f ≠ "" →
           call_of g shrinkwrap (set_Name k f) ∈ invocations g shrinkwrap (log s)
           ∧ length (filter (λ n, n = k)
                       (call_functionName <$> invocations g shrinkwrap (log s))) = 1%nat)
  ∧ (prod s ≠ PReturned → dead s = false → can_move services queueDepth s)
  ∧ (dead s = false → can_return services queueDepth s)
  ∧ (length sched ≤ fuel services queueDepth init)%nat.
Proof.
  intros Hq Hk Hrun.
  assert (invariant services queueDepth s) as Hinv
    by (apply reachable_invariant; by exists sched).
  split_and!.
  - by apply (builds_at_most_once services queueDepth).
  - by apply held_names_distinct.
  - intros Hp.
    destruct (returned_complete services queueDepth s Hinv Hp) as (_ & _ & Hb & _).
    assert (invocations g shrinkwrap (log s)
            ≡ₚ call_of g shrinkwrap <$> valid_builds fns) as Hi
      by (unfold invocations; by rewrite Hb).
    split_and!; [done|done|].
    intros k f Hin Hskip Hlang.
    assert (set_Name k f ∈ valid_builds fns) as Hv.
    { apply list_elem_of_filter. split; [by apply has_language_set_Name|].
      apply elem_of_enqueued. by exists k, f. }
    split.
    + rewrite Hi. apply list_elem_of_fmap. by exists (set_Name k f).
    + rewrite Hi, <- list_fmap_compose.
      change (call_functionName ∘ call_of g shrinkwrap) with Name.
      apply NoDup_count; [by apply valid_builds_names|].
      apply list_elem_of_fmap. by exists (set_Name k f).
  - by apply progress.
  - by apply returns.
  - apply run_fuel in Hrun. lia.
Qed.
End ExactlyOnce.

(** ** The dispatcher: spawning, skipping, empty languages *)

Lemma indices_NoDup n : NoDup (indices n).
Proof.
  unfold indices. apply NoDup_fmap_2; [apply _|apply NoDup_seq].
Qed.

Lemma indices_range n i : i ∈ indices n → (0 ≤ i < Z.of_nat n)%Z.
Proof.
  unfold indices. intros (j & -> & Hj)%list_elem_of_fmap.
  apply elem_of_seq in Hj. lia.
Qed.

Lemma skipped_spec fns :
  skipped fns = (λ kf, Name kf.2) <$> filter (λ kf, SkipBuild kf.2 = true) fns.
Proof.
  induction fns as [|[k f] fns IH]; simpl; [done|].
  rewrite filter_cons. simpl. rewrite IH. by destruct (SkipBuild f).
Qed.

Lemma enqueued_spec fns :
  enqueued fns
  = (λ kf, set_Name kf.1 kf.2) <$> filter (λ kf, SkipBuild kf.2 = false) fns.
Proof.
  induction fns as [|[k f] fns IH]; simpl; [done|].
  rewrite filter_cons. simpl. rewrite IH. by destruct (SkipBuild f).
Qed.

Section WorkerCycle.
Variable services : Services.
Variable queueDepth : Z.
Local Abbreviation invariant := (invariant services queueDepth).

Lemma done_not_partial i pc j g : EDone j g ∉ partial_cycle i pc.
Proof.
  intros H. destruct pc; simpl in H; try destruct (has_language function).
  all: repeat (apply elem_of_cons in H as [H|H]; [discriminate H|]).
  all: by apply elem_of_nil in H.
Qed.

Lemma done_in_cycle i f j g : EDone j g ∈ cycle i f → g = f.
Proof.
  unfold cycle, build_cycle. intros H. destruct (has_language f); simpl in H.
  all: repeat (apply elem_of_cons in H as [H|H]; [by simplify_eq|]).
  all: by apply elem_of_nil in H.
Qed.

(** A done marker of worker [j] closes a full turn of its loop: in the
    events of [j] it is preceded, without interruption, by the receive,
    the start marker and the Build Executor call and return or the
    language notice of the same function. *)
Lemma done_closes_cycle s j g :
  invariant s → EDone j g ∈ log s →
  ∃ before after, events_of j (log s) = before ++ cycle j g ++ after.
Proof.
  intros Hinv Hd.
  pose proof (inv_events _ _ _ Hinv) as Hev. rewrite Forall_forall in Hev.
  pose proof (Hev _ Hd j eq_refl) as Hj.
  destruct (lookup_lt_is_Some_2 (workers s) (Z.to_nat j)) as [w Hw]; [lia|].
  pose proof (indices_lookup _ _ _ (inv_index _ _ _ Hinv) Hw) as Hi.
  rewrite Z2Nat.id in Hi by lia.
  destruct (inv_trace _ _ _ Hinv _ _ Hw) as [hist Hh]. rewrite Hi in Hh.
  assert (EDone j g ∈ events_of j (log s)) as Hin
    by (by apply list_elem_of_filter).
  rewrite Hh in Hin. apply elem_of_app in Hin as [Hin|Hin];
    [|by apply done_not_partial in Hin].
  apply list_elem_of_In, in_flat_map in Hin as (f & Hf & Hin).
  apply list_elem_of_In, done_in_cycle in Hin as ->.
  apply list_elem_of_In, list_elem_of_split in Hf as (h1 & h2 & ->).
  exists (flat_map (cycle j) h1), (flat_map (cycle j) h2 ++ partial_cycle j (wpc w)).
  rewrite Hh, flat_map_app. cbn [flat_map]. by rewrite <- !app_assoc.
Qed.
End WorkerCycle.

Section Claims.
Variable services : Services.
Variable queueDepth : Z.
Local Abbreviation invariant := (invariant services queueDepth).
Local Abbreviation step := (step services queueDepth).
Local Abbreviation run := (run services queueDepth).
Local Abbreviation fns := (Functions services).

(** C7. With [queueDepth >= 1] the dispatcher starts exactly
    [queueDepth] workers, one per [go] statement, with the pairwise
    distinct indices [0 .. queueDepth-1]: the indices of the workers are
    those logged by the spawns, they are distinct and in range, all of
    them exist once the producer has left the [go] loop, and in the log
    every spawn precedes the first handoff of a descriptor. *)
Theorem workers_spawned_before_enqueue (sched : list choice) (s : state) :
  (1 ≤ queueDepth)%Z →
  run sched init = Some s →
  spawns (log s) = windex <$> workers s
  ∧ NoDup (windex <$> workers s)
  ∧ Forall (λ i, 0 ≤ i < queueDepth)%Z (windex <$> workers s)
  ∧ ((∀ i, prod s ≠ PSpawn i) →
       windex <$> workers s = indices (Z.to_nat queueDepth))
  ∧ (∀ l1 j f l2, log s = l1 ++ EHandoff j f :: l2 →
       spawns l1 = indices (Z.to_nat queueDepth) ∧ spawns l2 = []).
Proof.
  intros Hq Hrun.
  assert (invariant s) as Hinv by (apply reachable_invariant; by exists sched).
  pose proof (inv_index _ _ _ Hinv) as Hidx.
  pose proof (inv_spawning _ _ _ Hinv) as Hsp.
  assert (length (workers s) ≤ Z.to_nat queueDepth)%nat as Hlen.
  { destruct (prod s); lia. }
  split_and!.
  - apply (inv_spawns _ _ _ Hinv).
  - rewrite Hidx. apply indices_NoDup.
  - rewrite Hidx. apply Forall_forall. intros i Hi%indices_range. lia.
  - intros Hp. rewrite Hidx. f_equal. destruct (prod s); try lia. by destruct (Hp i).
  - apply (inv_order _ _ _ Hinv).
Qed.

(** C5. For any [queueDepth], a function whose [SkipBuild] flag is
    set is never enqueued (neither handed to a worker nor offered on the
    channel), the Build Executor is never invoked for it, and the
    producer prints its skipping notice when the loop reaches it, so
    the notice is in the log once the loop has finished (which, with a
    worker to receive the other functions, it can always do). *)
Theorem skipped_never_built (sched : list choice) (s : state) (k : string) (f : Function) :
  unique_keys fns →
  run sched init = Some s →
  (k, f) ∈ fns →
  SkipBuild f = true →
  (∀ j g, EHandoff j g ∈ log s → Name g ≠ k)
  ∧ (∀ j g, EBuildImage j g ∈ log s → Name g ≠ k)
  ∧ (∀ g rest, prod s = PSend g rest → Name g ≠ k)
  ∧ (∀ rest, prod s = PRange ((k, f) :: rest) → dead s = false →
       step Producer s = Some (emit (ESkip (Name f)) (goto (PRange rest) s)))
  ∧ (range_finished (prod s) = true →
       skips (log s) = skipped fns ∧ Name f ∈ skips (log s)
       ∧ ESkip (Name f) ∈ log s)
  ∧ ((1 ≤ queueDepth)%Z → dead s = false → can_return services queueDepth s).
Proof.
  intros Hk Hrun Hin Hskip.
  assert (invariant s) as Hinv by (apply reachable_invariant; by exists sched).
  assert (∀ g, g ∈ enqueued fns → Name g ≠ k) as Hne.
  { intros g (k' & f' & Hin' & Hs' & ->)%elem_of_enqueued. simpl. intros ->.
    rewrite (unique_keys_lookup fns k f f' Hk Hin Hin') in Hskip. congruence. }
  pose proof (inv_handed _ _ _ Hinv) as Hh.
  assert (∀ g, g ∈ handed (log s) → Name g ≠ k) as Hne'.
  { intros g Hg. apply Hne. rewrite <- Hh. apply elem_of_app. by left. }
  split_and!.
  - intros j g Hg. apply Hne'. apply list_elem_of_omap. by exists (EHandoff j g).
  - intros j g Hg.
    assert (g ∈ filter (λ f, has_language f = true) (handed (log s))) as H.
    { rewrite (inv_built _ _ _ Hinv). apply elem_of_app. left.
      apply list_elem_of_omap. by exists (EBuildImage j g). }
    apply list_elem_of_filter in H as [_ H]. by apply Hne'.
  - intros g rest Hp. apply Hne. rewrite <- Hh, Hp. simpl. apply elem_of_app. right. by left.
  - intros rest Hp Hd. unfold step, producer_step. by rewrite Hd, Hp, Hskip.
  - intros Hp. pose proof (inv_skips _ _ _ Hinv) as Hs.
    assert (skips (log s) = skipped fns) as Heq.
    { destruct (prod s); try done; simpl in Hs; by rewrite app_nil_r in Hs. }
    assert (Name f ∈ skips (log s)) as Hn.
    { rewrite Heq, skipped_spec. apply list_elem_of_fmap. exists (k, f).
      split; [done|]. by apply list_elem_of_filter. }
    split_and!; try done.
    apply list_elem_of_omap in Hn as (e & He & Hn). by destruct e; simplify_eq/=.
  - intros Hq Hd. by apply returns.
Qed.

(** C6. An enqueued descriptor with an empty [Language] is never
    passed to the Build Executor; when [build] has returned, its start
    marker and its done marker have both been printed with its name
    (by the worker that received it, with only the language notice in
    between), and the rest of the batch was built as usual; until then the
    dispatch is never blocked, and it can be run to the return of
    [build] as long as the Build Executor has not ended the process. *)
Theorem empty_language_not_built (sched : list choice) (s : state)
    (k : string) (f : Function) :
  (1 ≤ queueDepth)%Z →
  run sched init = Some s →
  (k, f) ∈ fns →
  SkipBuild f = false →
  Language f = "" →
  (∀ j, EBuildImage j (set_Name k f) ∉ log s)
  ∧ (prod s = PReturned →
       (∃ j, EStart j (set_Name k f) ∈ log s
             ∧ printed (EStart j (set_Name k f)) = Some (LBuilding j k))
       ∧ (∃ j, EDone j (set_Name k f) ∈ log s
               ∧ printed (EDone j (set_Name k f)) = Some (LBuildingDone j k)
               ∧ ∃ before after,
                   events_of j (log s)
                   = before
                     ++ [EHandoff j (set_Name k f); EStart j (set_Name k f);
                         ENoLang j (set_Name k f); EDone j (set_Name k f)]
                     ++ after)
       ∧ builds (log s) ≡ₚ valid_builds fns)
  ∧ (prod s ≠ PReturned → dead s = false → can_move services queueDepth s)
  ∧ (dead s = false → can_return services queueDepth s).
Proof.
  intros Hq Hrun Hin Hskip Hlang.
  assert (invariant s) as Hinv by (apply reachable_invariant; by exists sched).
  assert (has_language (set_Name k f) = false) as Hno.
  { unfold has_language. simpl. by rewrite Hlang. }
  assert (set_Name k f ∈ enqueued fns) as Henq.
  { apply elem_of_enqueued. by exists k, f. }
  split_and!.
  - intros j Hj.
    pose proof (builds_have_language services queueDepth s Hinv) as Hb.
    rewrite Forall_forall in Hb.
    rewrite Hb in Hno; [done|]. apply list_elem_of_omap. by exists (EBuildImage j (set_Name k f)).
  - intros Hp.
    destruct (returned_complete services queueDepth s Hinv Hp) as (_ & Hs & Hb & Hd).
    split_and!; [| |done].
    + rewrite <- Hs in Henq. apply list_elem_of_omap in Henq as (e & He & Hf).
      destruct e; simplify_eq/=. by exists index.
    + rewrite <- Hd in Henq. apply list_elem_of_omap in Henq as (e & He & Hf).
      destruct e; simplify_eq/=. exists index. split_and!; [done|done|].
      destruct (done_closes_cycle services queueDepth s _ _ Hinv He)
        as (before & after & Hc).
      exists before, after. rewrite Hc. unfold cycle, build_cycle. by rewrite Hno.
  - by apply progress.
  - by apply returns.
Qed.

(** C9. The skipping notices show the [Name] field of the manifest
    record, not the map key: the key is assigned to [function.Name]
    only for the descriptors that are enqueued.  A skipped record with
    an empty [Name] is announced with the empty name. *)
Theorem skip_notice_shows_record_name (sched : list choice) (s : state)
    (k : string) (f : Function) :
  run sched init = Some s →
  range_finished (prod s) = true →
  (k, f) ∈ fns →
  SkipBuild f = true →
  skips (log s) = (λ kf, Name kf.2) <$> filter (λ kf, SkipBuild kf.2 = true) fns
  ∧ ESkip (Name f) ∈ log s
  ∧ printed (ESkip (Name f)) = Some (LSkipping (Name f))
  ∧ (Name f = "" → LSkipping "" ∈ omap printed (log s))
  ∧ handed (log s) ++ pending services (prod s)
    = (λ kf, set_Name kf.1 kf.2) <$> filter (λ kf, SkipBuild kf.2 = false) fns.
Proof.
  intros Hrun Hp Hin Hskip.
  assert (invariant s) as Hinv by (apply reachable_invariant; by exists sched).
  pose proof (inv_skips _ _ _ Hinv) as Hs.
  assert (skips (log s) = skipped fns) as Heq.
  { destruct (prod s); try done; simpl in Hs; by rewrite app_nil_r in Hs. }
  assert (ESkip (Name f) ∈ log s) as He.
  { assert (Name f ∈ skips (log s)) as Hn.
    { rewrite Heq, skipped_spec. apply list_elem_of_fmap. exists (k, f).
      split; [done|]. by apply list_elem_of_filter. }
    apply list_elem_of_omap in Hn as (e & He & Hn). by destruct e; simplify_eq/=. }
  split_and!; try done.
  - by rewrite Heq, skipped_spec.
  - intros Hn. apply list_elem_of_omap. exists (ESkip (Name f)).
    split; [done|]. simpl. by rewrite Hn.
  - rewrite (inv_handed _ _ _ Hinv). apply enqueued_spec.
Qed.
End Claims.

(** ** The dispatcher with a single worker *)

Lemma build_events_app l1 l2 : build_events (l1 ++ l2) = build_events l1 ++ build_events l2.
Proof. unfold build_events. by rewrite filter_app. Qed.

Lemma build_events_build_cycle i f : build_events (build_cycle i f) = build_cycle i f.
Proof. unfold build_cycle. by destruct (has_language f). Qed.

Lemma build_events_cycles i hist :
  build_events (flat_map (cycle i) hist) = flat_map (build_cycle i) hist.
Proof.
  induction hist as [|f hist IH]; [done|].
  cbn [flat_map]. rewrite build_events_app, IH. f_equal.
  apply build_events_build_cycle.
Qed.

Lemma handed_app l1 l2 : handed (l1 ++ l2) = handed l1 ++ handed l2.
Proof. unfold handed. by rewrite omap_app. Qed.

Lemma handed_cycles i hist : handed (flat_map (cycle i) hist) = hist.
Proof.
  induction hist as [|f hist IH]; [done|].
  cbn [flat_map]. rewrite handed_app, IH. unfold cycle, build_cycle.
  by destruct (has_language f).
Qed.

Lemma handed_partial i pc : handed (partial_cycle i pc) = option_list (holds pc).
Proof. destruct pc; simpl; try done. by destruct (has_language function). Qed.

Lemma partial_prefix i w :
  building_has_language w →
  ∃ rest, build_events (partial_cycle i (wpc w)) ++ rest
          = flat_map (build_cycle i) (option_list (holds (wpc w))).
Proof.
  unfold building_has_language.
  destruct (wpc w) as [| |f|f|f|f| | |]; simpl; unfold build_cycle;
    try (by exists []); intros Hb.
  - by eexists.
  - by eexists.
  - rewrite Hb. by exists [EBuildImageRet i f; EDone i f].
  - exists [EDone i f]. by destruct (has_language f).
Qed.

Lemma partial_idle i pc :
  holds pc = None → build_events (partial_cycle i pc) = [].
Proof. by destruct pc. Qed.

Lemma build_sequential_events fns :
  build_events (build_sequential fns) = flat_map (build_cycle 0) (enqueued fns).
Proof.
  induction fns as [|[k f] fns IH]; [done|].
  cbn [build_sequential enqueued]. rewrite build_events_app, IH.
  destruct (SkipBuild f); [done|].
  cbn [flat_map]. by rewrite build_events_build_cycle.
Qed.

Lemma build_sequential_skips fns : skips (build_sequential fns) = skipped fns.
Proof.
  induction fns as [|[k f] fns IH]; [done|].
  cbn [build_sequential skipped]. unfold skips in *. rewrite omap_app, IH.
  destruct (SkipBuild f); [done|].
  unfold build_cycle. by destruct (has_language (set_Name k f)).
Qed.

(** When every worker event belongs to worker 0, the build events and
    the handoffs of the log are those of worker 0. *)
Lemma single_worker_log lg :
  Forall (λ e, ∀ i, worker_of e = Some i → i = 0%Z) lg →
  build_events lg = build_events (events_of 0 lg)
  ∧ handed lg = handed (events_of 0 lg).
Proof.
  induction 1 as [|e lg He _ [IH1 IH2]]; [done|].
  unfold events_of in *.
  destruct (decide (worker_of e = Some 0%Z)) as [Hd|Hd].
  - rewrite (filter_cons_True (λ e, worker_of e = Some 0%Z)) by done.
    unfold build_events, handed in *. rewrite !filter_cons. csimpl.
    by rewrite IH1, IH2.
  - rewrite (filter_cons_False (λ e, worker_of e = Some 0%Z)) by done.
    rewrite <- IH1, <- IH2.
    assert (worker_of e = None) as Hn.
    { destruct (worker_of e) as [i|] eqn:Hw; [|done]. by rewrite (He i eq_refl) in Hd. }
    unfold build_events, handed. rewrite filter_cons.
    by destruct e.
Qed.

Section Sequential.
Variable services : Services.
Local Abbreviation invariant := (invariant services 1).
Local Abbreviation fns := (Functions services).

(** With one worker, the events of worker 0 are the worker events of
    the log. *)
Lemma single_worker_trace s :
  invariant s →
  ∃ hist w, events_of 0 (log s)
            = flat_map (cycle 0) hist ++ partial_cycle 0 (wpc w)
    ∧ building_has_language w
    ∧ (prod s = PReturned → holds (wpc w) = None)
    ∧ Forall (λ e, ∀ i, worker_of e = Some i → i = 0%Z) (log s).
Proof.
  intros Hinv.
  pose proof (inv_spawning _ _ _ Hinv) as Hsp.
  pose proof (inv_events _ _ _ Hinv) as Hev.
  assert (length (workers s) ≤ 1)%nat as Hlen by (destruct (prod s); lia).
  assert (Forall (λ e, ∀ i, worker_of e = Some i → i = 0%Z) (log s)) as H0.
  { eapply Forall_impl; [exact Hev|]. simpl. intros e He i Hi.
    specialize (He i Hi). lia. }
  destruct (workers s) as [|w [|w' ws]] eqn:Hws; simpl in Hlen; [| |lia].
  - exists [], (mkWorker 0 WNew). split_and!; try done.
    by rewrite (events_of_fresh 0 _ Hev : events_of 0 (log s) = []).
  - pose proof (inv_trace _ _ _ Hinv 0%nat w) as [hist Hh]; [by rewrite Hws|].
    pose proof (indices_lookup (workers s) 0 w (inv_index _ _ _ Hinv)) as Hi.
    rewrite Hws in Hi. specialize (Hi eq_refl). simpl in Hi. rewrite Hi in Hh.
    exists hist, w. split_and!; try done.
    + pose proof (inv_building _ _ _ Hinv) as Hb. rewrite Hws in Hb.
      by apply Forall_cons in Hb as [? _].
    + intros Hp. pose proof (inv_returned _ _ _ Hinv Hp) as Hr. rewrite Hws in Hr.
      by apply Forall_cons in Hr as [? _].
Qed.

(** C4. With [queueDepth = 1] the builds run as in the sequential
    loop: at any time the build events of the log (start marker, Build
    Executor call and return or language notice, done marker) are an
    initial part of those of [build_sequential], so the events of one
    function are complete before the next start marker; when [build]
    has returned they are all there, as are the skip notices in
    iteration order; until then the dispatch is never blocked, and it
    can be run to the return of [build] as long as the Build Executor
    has not ended the process. *)
Theorem single_worker_is_sequential (sched : list choice) (s : state) :
  run services 1 sched init = Some s →
  build_events (log s) `prefix_of` build_events (build_sequential fns)
  ∧ skips (log s) `prefix_of` skips (build_sequential fns)
  ∧ (prod s = PReturned →
       build_events (log s) = build_events (build_sequential fns)
       ∧ skips (log s) = skips (build_sequential fns))
  ∧ (prod s ≠ PReturned → dead s = false → can_move services 1 s)
  ∧ (dead s = false → can_return services 1 s)
  ∧ (length sched ≤ fuel services 1 init)%nat.
Proof.
  intros Hrun.
  assert (invariant s) as Hinv by (apply reachable_invariant; by exists sched).
  destruct (single_worker_trace s Hinv) as (hist & w & Htr & Hb & Hret & H0).
  destruct (single_worker_log _ H0) as [Hbe Hha].
  rewrite Htr in Hbe, Hha.
  rewrite build_events_app, build_events_cycles in Hbe.
  rewrite handed_app, handed_cycles, handed_partial in Hha.
  pose proof (inv_handed _ _ _ Hinv) as Hh. rewrite Hha in Hh.
  pose proof (inv_skips _ _ _ Hinv) as Hs.
  rewrite build_sequential_events, build_sequential_skips, <- Hh, <- Hs, Hbe.
  rewrite !flat_map_app.
  destruct (partial_prefix 0 w Hb) as [rest Hrest].
  split_and!.
  - rewrite <- Hrest, <- !app_assoc. apply prefix_app, prefix_app_r. done.
  - by apply prefix_app_r.
  - intros Hp. rewrite Hp. simpl. rewrite (Hret Hp). simpl.
    rewrite (partial_idle _ _ (Hret Hp)). by rewrite !app_nil_r.
  - by apply progress.
  - by apply returns.
  - apply run_fuel in Hrun. lia.
Qed.
End Sequential.

(** ** The dispatcher without workers, and the late worker *)

Section NoWorkers.
Variable services : Services.
Variable queueDepth : Z.
Local Abbreviation invariant := (invariant services queueDepth).
Local Abbreviation step := (step services queueDepth).
Local Abbreviation run := (run services queueDepth).
Local Abbreviation fns := (Functions services).

(** Only a worker can end the process. *)
Lemma step_dead c s s' :
  step c s = Some s' → dead s' = true → workers s' ≠ [].
Proof.
  intros H. step_inv H; simpl; try done.
  all: intros _ ->; done.
Qed.

Lemma run_dead sched s s' :
  run sched s = Some s' →
  (dead s = true → workers s ≠ []) → dead s' = true → workers s' ≠ [].
Proof.
  revert s. induction sched as [|c sched IH]; intros s; simpl.
  - by intros [= <-].
  - destruct (step c s) as [s1|] eqn:Hs; simpl; [|done].
    intros Hrun _. apply (IH s1 Hrun). by apply (step_dead c s).
Qed.

Lemma no_worker_events lg :
  Forall (λ e, ∀ i, worker_of e = Some i → (0 ≤ i < 0)%Z) lg → handed lg = [].
Proof.
  induction 1 as [|e lg He _ IH]; [done|].
  unfold handed in *. csimpl. rewrite IH.
  destruct e; try done. specialize (He index eq_refl). lia.
Qed.

(** Without workers an alive producer that is not in a send can move,
    and in a send, which is then the first one, nobody can. *)
Lemma no_workers_state s :
  (queueDepth ≤ 0)%Z →
  (∃ k f, (k, f) ∈ fns ∧ SkipBuild f = false) →
  invariant s → dead s = false →
  workers s = [] ∧ spawns (log s) = []
  ∧ prod s ≠ PReturned
  ∧ (∀ g rest, prod s = PSend g rest →
       head (enqueued fns) = Some g ∧ stuck services queueDepth s)
  ∧ ((∀ g rest, prod s ≠ PSend g rest) →
       ∃ s', step Producer s = Some s' ∧ dead s' = false).
Proof.
  intros Hq (k & f & Hin & Hskip) Hinv Hd.
  assert (enqueued fns ≠ []) as Hne.
  { assert (set_Name k f ∈ enqueued fns) as H by (apply elem_of_enqueued; by exists k, f).
    intros Heq. rewrite Heq in H. by apply elem_of_nil in H. }
  assert (workers s = []) as Hws.
  { pose proof (inv_spawning _ _ _ Hinv) as Hsp.
    apply nil_length_inv. destruct (prod s); lia. }
  assert (handed (log s) = []) as Hh.
  { apply no_worker_events. pose proof (inv_events _ _ _ Hinv) as He.
    by rewrite Hws in He. }
  pose proof (inv_handed _ _ _ Hinv) as Hp. rewrite Hh in Hp. simpl in Hp.
  split_and!.
  - done.
  - by rewrite (inv_spawns _ _ _ Hinv), Hws.
  - intros Hr. rewrite Hr in Hp. by simpl in Hp.
  - intros g rest Hs. rewrite Hs in Hp. simpl in Hp. rewrite <- Hp. split; [done|].
    intros c. unfold step. rewrite Hd.
    destruct c as [|j|j|j]; unfold producer_step, worker_step, handoff_step, fatal_step;
      rewrite ?Hs, ?Hws; done.
  - intros Hns. unfold step, producer_step. rewrite Hd.
    destruct s as [p ws cl n d lg]. simpl in *.
    destruct p as [i|[|[k' f'] rest]|g rest| | |]; simpl in Hp; try done.
    + destruct (i <? queueDepth)%Z; eauto.
    + destruct (SkipBuild f'); eauto.
    + by destruct (Hns g rest).
Qed.

(** So the producer does get into that send. *)
Lemma no_workers_blocks s :
  (queueDepth ≤ 0)%Z →
  (∃ k f, (k, f) ∈ fns ∧ SkipBuild f = false) →
  invariant s → dead s = false →
  ∃ sched s' g rest, run sched s = Some s' ∧ prod s' = PSend g rest
                     ∧ stuck services queueDepth s'.
Proof.
  intros Hq Hne. remember (fuel services queueDepth s) as n eqn:Hn.
  revert s Hn. induction (lt_wf n) as [n _ IH]. intros s -> Hinv Hd.
  destruct (no_workers_state s Hq Hne Hinv Hd) as (_ & _ & _ & Hsend & Hmove).
  destruct (prod s) as [i|rest0|g rest| | |] eqn:Hp.
  3: { exists [], s, g, rest. split_and!; try done. by apply (Hsend g rest). }
  all: destruct Hmove as (s1 & Hs & Hd1); [done|].
  all: destruct (IH (fuel services queueDepth s1)
                    (step_fuel services queueDepth Producer s s1 Hs) s1 eq_refl
                    (invariant_step services queueDepth Producer s s1 Hinv Hs) Hd1)
         as (sched & s' & g & rest & Hrun & Hr & Hst).
  all: exists (Producer :: sched), s', g, rest; split_and!; try done.
  all: cbn [run]; by rewrite Hs.
Qed.

(** C8. With [queueDepth <= 0] (which [runBuild] passes on from the
    [--parallel] flag unchecked) and a function that is not skipped, no
    worker is ever spawned and [build] never returns: the producer is
    the only party that moves, every schedule is bounded and can be
    continued into the send of the first descriptor to enqueue, and
    there no party can move any more. *)
Theorem no_workers_blocks_forever (sched : list choice) (s : state) :
  (queueDepth ≤ 0)%Z →
  (∃ k f, (k, f) ∈ fns ∧ SkipBuild f = false) →
  run sched init = Some s →
  workers s = [] ∧ spawns (log s) = []
  ∧ prod s ≠ PReturned
  ∧ (∀ g rest, prod s = PSend g rest →
       head (enqueued fns) = Some g ∧ stuck services queueDepth s)
  ∧ ((∀ g rest, prod s ≠ PSend g rest) →
       ∃ s', step Producer s = Some s' ∧ dead s' = false)
  ∧ (∃ sched' s' g rest, run sched' s = Some s' ∧ prod s' = PSend g rest
                         ∧ stuck services queueDepth s')
  ∧ (length sched ≤ fuel services queueDepth init)%nat
  ∧ (∀ g w, parsed_services g w = inr services → PullTemplates_result w = None →
       flag_parallel g = queueDepth →
       runBuild g w = (Dispatch services queueDepth (flag_shrinkwrap g), None)).
Proof.
  intros Hq Hne Hrun.
  assert (invariant s) as Hinv by (apply reachable_invariant; by exists sched).
  assert (dead s = false) as Hd.
  { destruct (dead s) eqn:Hd; [|done].
    destruct (run_dead sched init s Hrun); try done.
    pose proof (inv_spawning _ _ _ Hinv) as Hsp.
    apply nil_length_inv. destruct (prod s); lia. }
  destruct (no_workers_state s Hq Hne Hinv Hd) as (H1 & H2 & H3 & H4 & H5).
  split_and!; try done.
  - by apply no_workers_blocks.
  - apply run_fuel in Hrun. lia.
  - intros g w Hps Hpull <-. apply runBuild_dispatch; try done.
    destruct Hne as (k & f & Hin & _).
    intros Heq. rewrite Heq in Hin. by apply elem_of_nil in Hin.
Qed.

(** The part of C2 that holds: when [build] returns no worker is
    inside a build. *)
Lemma returned_no_mid_build s :
  reachable services queueDepth s → prod s = PReturned →
  Forall (λ w, ¬ mid_build w) (workers s).
Proof.
  intros Hr Hp. apply reachable_invariant in Hr.
  eapply Forall_impl; [apply (inv_returned _ _ _ Hr Hp)|].
  intros w Hw [f Hf]. simpl in Hw. congruence.
Qed.
End NoWorkers.


(** C2 fails on the code: with one function and two workers, [build]
    returns while worker 1 has not yet run [wg.Add(1)], let alone
    observed the closed channel; it enters its receive loop only after
    the return. *)
Theorem build_returns_before_worker_starts :
  run late_services 2 late_schedule init = Some late_state
  ∧ prod late_state = PReturned
  ∧ workers late_state !! 1%nat = Some (mkWorker 1 WNew)
  ∧ step late_services 2 (Worker 1) late_state
    = Some (mkState PReturned [mkWorker 0 WExited; mkWorker 1 WRecv] true 1 false
              (log late_state)).
Proof. split_and!; by vm_compute. Qed.

(** ** The theorems at the concrete dispatches *)

Lemma demo_unique_keys : unique_keys (Functions demo_services).
Proof.
  unfold unique_keys. by apply (bool_decide_unpack _).
Qed.

Lemma build_exactly_once_witness :
  invocations demo_flags false (log demo_state)
  ≡ₚ [mkCall "a:latest" "./a" "a" "node" false false false ∅].
Proof.
  destruct (build_exactly_once demo_flags demo_services 2 false demo_schedule demo_state)
    as (_ & _ & H & _ & _ & _).
  - lia.
  - exact demo_unique_keys.
  - by vm_compute.
  - destruct H as (_ & H & _); [reflexivity|]. exact H.
Defined.

Lemma single_worker_is_sequential_witness :
  build_events (log solo_state) = build_events (build_sequential (Functions demo_services)).
Proof.
  destruct (single_worker_is_sequential demo_services solo_schedule solo_state)
    as (_ & _ & H & _ & _ & _).
  - by vm_compute.
  - destruct H as [H _]; [reflexivity|]. exact H.
Defined.

Lemma skipped_never_built_witness :
  ESkip "" ∈ log demo_state
  ∧ ∀ j g, EBuildImage j g ∈ log demo_state → Name g ≠ "b".
Proof.
  destruct (skipped_never_built demo_services 2 demo_schedule demo_state "b"
              (mkFunction "" "python" "./b" "b:latest" true))
    as (_ & H1 & _ & _ & H2 & _).
  - exact demo_unique_keys.
  - by vm_compute.
  - apply list_elem_of_further, list_elem_of_here.
  - reflexivity.
  - split; [|exact H1]. destruct H2 as (_ & _ & H2); [reflexivity|]. exact H2.
Defined.

Lemma empty_language_not_built_witness :
  ∃ j, EDone j (mkFunction "c" "" "./c" "c:latest" false) ∈ log demo_state
       ∧ printed (EDone j (mkFunction "c" "" "./c" "c:latest" false))
         = Some (LBuildingDone j "c").
Proof.
  destruct (empty_language_not_built demo_services 2 demo_schedule demo_state "c"
              (mkFunction "" "" "./c" "c:latest" false))
    as (_ & H & _ & _).
  - lia.
  - by vm_compute.
  - do 2 apply list_elem_of_further. apply list_elem_of_here.
  - reflexivity.
  - reflexivity.
  - destruct H as (_ & (j & H1 & H2 & _) & _); [reflexivity|]. by exists j.
Defined.

Lemma workers_spawned_before_enqueue_witness :
  windex <$> workers demo_state = [0%Z; 1%Z].
Proof.
  destruct (workers_spawned_before_enqueue demo_services 2 demo_schedule demo_state)
    as (_ & _ & _ & H & _).
  - lia.
  - by vm_compute.
  - apply H. by intros i.
Defined.

Lemma no_workers_blocks_forever_witness :
  stuck demo_services 0 blocked_state.
Proof.
  destruct (no_workers_blocks_forever demo_services 0 blocked_schedule blocked_state)
    as (_ & _ & _ & H & _ & _ & _ & _).
  - lia.
  - exists "a", (mkFunction "" "node" "./a" "a:latest" false). split; [|reflexivity].
    apply list_elem_of_here.
  - by vm_compute.
  - by destruct (H _ _ eq_refl).
Defined.

Lemma skip_notice_shows_record_name_witness :
  skips (log demo_state) = [""] ∧ LSkipping "" ∈ omap printed (log demo_state).
Proof.
  destruct (skip_notice_shows_record_name demo_services 2 demo_schedule demo_state "b"
              (mkFunction "" "python" "./b" "b:latest" true))
    as (H1 & _ & _ & H2 & _).
  - by vm_compute.
  - reflexivity.
  - apply list_elem_of_further, list_elem_of_here.
  - reflexivity.
  - split; [exact H1|]. by apply H2.
Defined.

(** The single worker may print the skip notice of [b] before the
    start marker of [a], which the sequential loop prints after the done
    marker of [a]: the order between notices and markers is not fixed. *)
Example skip_notice_may_overtake :
  run demo_services 1 solo_schedule init = Some solo_state
  ∧ printed <$> take 4 (log solo_state)
    = [None; None; Some (LSkipping ""); Some (LBuilding 0 "a")].
Proof. split; by vm_compute. Qed.

(** * Further properties *)

(** ** [mergeMap] and [compileEnvironment] *)

Lemma copy_into_spec (m : gmap string string) (l : list (string * string)) :
  NoDup l.*1 → copy_into m l = list_to_map l ∪ m.
Proof.
  revert m. induction l as [|[k v] l IH]; intros m Hnd.
  - simpl. by rewrite (left_id_L ∅ (∪)).
  - change ((k, v) :: l).*1 with (k :: l.*1) in Hnd.
    apply NoDup_cons in Hnd as [Hk Hnd]. unfold copy_into in *. cbn [foldl].
    rewrite IH by done. rewrite list_to_map_cons. cbn [fst snd].
    apply map_eq. intros x. rewrite !lookup_union.
    destruct (decide (x = k)) as [->|Hne].
    + rewrite !lookup_insert_eq.
      rewrite (not_elem_of_list_to_map_1 _ _ Hk). by destruct (m !! k).
    + rewrite !lookup_insert_ne by done. done.
Qed.

Lemma copy_into_map_order (m i : gmap string string) (order : list (string * string)) :
  order ≡ₚ map_to_list i → copy_into m order = i ∪ m.
Proof.
  intros Hp.
  assert (NoDup order.*1) as Hnd by (rewrite Hp; apply NoDup_fst_map_to_list).
  rewrite copy_into_spec by done.
  rewrite (list_to_map_proper order (map_to_list i)) by done.
  by rewrite list_to_map_to_list.
Qed.

Lemma mergeMap_union (i j : gmap string string) : mergeMap i j = j ∪ i.
Proof.
  unfold mergeMap, mergeMap_in.
  rewrite !(copy_into_map_order _ _ _ (reflexivity _)).
  by rewrite (right_id_L ∅ (∪)).
Qed.

(** X1. Whatever order the two [range] loops yield the entries in,
    [mergeMap] returns the same map: every key of [j] with the value of
    [j], every other key of [i] with the value of [i], and no other key. *)
Theorem mergeMap_order_independent (i j : gmap string string)
    (order_i order_j : list (string * string)) :
  order_i ≡ₚ map_to_list i →
  order_j ≡ₚ map_to_list j →
  mergeMap_in order_i order_j = mergeMap i j
  ∧ ∀ k, mergeMap_in order_i order_j !! k
         = match j !! k with Some v => Some v | None => i !! k end.
Proof.
  intros Hi Hj.
  assert (mergeMap_in order_i order_j = j ∪ i) as Heq.
  { unfold mergeMap_in.
    rewrite (copy_into_map_order ∅ i order_i Hi), (copy_into_map_order _ j order_j Hj).
    by rewrite (right_id_L ∅ (∪)). }
  split; [by rewrite Heq, mergeMap_union|].
  intros k. rewrite Heq, lookup_union. by destruct (j !! k), (i !! k).
Qed.

Lemma mergeMap_order_independent_witness :
  mergeMap_in [("B", "2"); ("A", "1")] [("C", "4"); ("B", "3")] !! "B" = Some "3".
Proof.
  destruct (mergeMap_order_independent
              {[ "A" := "1"; "B" := "2" ]} {[ "B" := "3"; "C" := "4" ]}
              [("B", "2"); ("A", "1")] [("C", "4"); ("B", "3")]) as [_ H].
  - apply (bool_decide_unpack _). by vm_compute.
  - apply (bool_decide_unpack _). by vm_compute.
  - rewrite H. reflexivity.
Defined.

(** X2. Merging is associative, the empty (or nil) map is neutral on
    both sides, and the keys of the result are those of the two maps. *)
Theorem mergeMap_assoc (a b c : gmap string string) :
  mergeMap (mergeMap a b) c = mergeMap a (mergeMap b c)
  ∧ mergeMap ∅ a = a ∧ mergeMap a ∅ = a
  ∧ dom (mergeMap a b) = dom a ∪ dom b.
Proof.
  rewrite !mergeMap_union. split_and!.
  - by rewrite (assoc_L (∪)).
  - by rewrite (right_id_L ∅ (∪)).
  - by rewrite (left_id_L ∅ (∪)).
  - by rewrite dom_union_L, (comm_L (∪)).
Qed.

Lemma copy_into_last (acc : gmap string string) l k v :
  acc !! k = Some v → Forall (λ kv : string * string, kv.1 ≠ k) l →
  copy_into acc l !! k = Some v.
Proof.
  intros Hacc Hl. revert acc Hacc. unfold copy_into.
  induction Hl as [|kv l Hkv _ IH]; intros acc Hacc; [done|].
  simpl. apply IH. by rewrite lookup_insert_ne.
Qed.

Section ParseMapSuccess.
Variable TrimSpace : string -> string.

Lemma parseMap_from_accepts result envvars keyName :
  Forall (well_formed_entry TrimSpace) envvars →
  parseMap_from TrimSpace result envvars keyName
  = Ok (copy_into result (entry_pair TrimSpace <$> envvars)).
Proof.
  intros Hwf. revert result. induction Hwf as [|e l He _ IH]; intros result; [done|].
  destruct (parseMap_from_well_formed TrimSpace result e l keyName He)
    as (k & v & Hcut & ->).
  rewrite IH. unfold copy_into, entry_pair. simpl. by rewrite Hcut.
Qed.

Lemma parseMap_from_ok_well_formed result envvars keyName m :
  parseMap_from TrimSpace result envvars keyName = Ok m →
  Forall (well_formed_entry TrimSpace) envvars.
Proof.
  revert result. induction envvars as [|e l IH]; intros result; [constructor|].
  simpl. unfold SplitN2.
  destruct (cut "=" (TrimSpace e)) as [[k v]|] eqn:Hcut; simpl; [|done].
  destruct k as [|c k]; simpl; [done|].
  destruct v as [|c' v]; simpl; [done|].
  intros H. constructor; [|by eapply IH].
  exists (String c k), (String c' v). done.
Qed.

(** X3. [parseMap] succeeds exactly when every entry, trimmed, reads
    [key=value] with both parts non-empty; the map then holds for
    every key the value of the last entry with that key, where a value
    is everything after the first ['='] (it may contain ['=']). *)
Theorem parseMap_success (envvars : list string) (keyName : string) :
  ((∃ m, parseMap TrimSpace envvars keyName = Ok m)
   ↔ Forall (well_formed_entry TrimSpace) envvars)
  ∧ (∀ m, parseMap TrimSpace envvars keyName = Ok m →
       m = copy_into ∅ (entry_pair TrimSpace <$> envvars)
       ∧ ∀ before envvar after k v,
           envvars = before ++ envvar :: after →
           cut "=" (TrimSpace envvar) = Some (k, v) →
           Forall (λ e, (entry_pair TrimSpace e).1 ≠ k) after →
           m !! k = Some v).
Proof.
  split.
  - split.
    + intros [m Hm]. by eapply parseMap_from_ok_well_formed.
    + intros Hwf. eexists. by apply parseMap_from_accepts.
  - intros m Hm.
    pose proof (parseMap_from_ok_well_formed _ _ _ _ Hm) as Hwf.
    unfold parseMap in Hm. rewrite parseMap_from_accepts in Hm by done.
    injection Hm as <-. split; [done|].
    intros before e after k v -> Hcut Hlast.
    rewrite fmap_app, fmap_cons. unfold copy_into at 1. rewrite foldl_app.
    cbn [foldl].
    assert (entry_pair TrimSpace e = (k, v)) as -> by (unfold entry_pair; by rewrite Hcut).
    apply copy_into_last.
    + apply lookup_insert_eq.
    + by apply Forall_fmap.
Qed.
End ParseMapSuccess.

Lemma parseMap_success_witness :
  ∃ m, parseMap TrimSpace_ascii ["A=1"; " B=x=y "; "A=2"] "env" = Ok m
       ∧ m !! "A" = Some "2" ∧ m !! "B" = Some "x=y".
Proof.
  destruct (parseMap_success TrimSpace_ascii ["A=1"; " B=x=y "; "A=2"] "env") as [H1 H2].
  destruct (proj2 H1) as [m Hm].
  - repeat constructor.
    + exists "A", "1". by vm_compute.
    + exists "B", "x=y". by vm_compute.
    + exists "A", "2". by vm_compute.
  - exists m. split; [done|]. destruct (H2 m Hm) as [_ H]. split.
    + apply (H ["A=1"; " B=x=y "] "A=2" [] "A" "2"); [reflexivity|reflexivity|constructor].
    + apply (H ["A=1"] " B=x=y " ["A=2"] "B" "x=y"); [reflexivity|reflexivity|].
      repeat constructor. by vm_compute.
Defined.

(** X4. [compileEnvironment]: when the [--env] entries parse, a
    variable takes its value from the [--env] arguments, else from the
    environment files, else from the YAML environment; a parse error
    is wrapped and returned, and an entry without ['='] makes the
    function panic. *)
Theorem compileEnvironment_precedence (TrimSpace : string → string)
    (envvarOpts : list string) (yamlEnvironment fileEnvironment : gmap string string) :
  (∀ args, parseMap TrimSpace envvarOpts "env" = Ok args →
     ∃ env, compileEnvironment TrimSpace envvarOpts yamlEnvironment fileEnvironment = Ok env
       ∧ ∀ k, env !! k = match args !! k with
                         | Some v => Some v
                         | None => match fileEnvironment !! k with
                                   | Some v => Some v
                                   | None => yamlEnvironment !! k
                                   end
                         end)
  ∧ (∀ msg, parseMap TrimSpace envvarOpts "env" = Err msg →
       compileEnvironment TrimSpace envvarOpts yamlEnvironment fileEnvironment
       = Err ("error parsing envvars: " +:+ msg))
  ∧ (parseMap TrimSpace envvarOpts "env" = Panic →
       compileEnvironment TrimSpace envvarOpts yamlEnvironment fileEnvironment = Panic).
Proof.
  unfold compileEnvironment. split_and!.
  - intros args ->. eexists. split; [done|]. intros k.
    rewrite !mergeMap_union, !lookup_union.
    by destruct (args !! k), (fileEnvironment !! k), (yamlEnvironment !! k).
  - by intros msg ->.
  - by intros ->.
Qed.

Lemma compileEnvironment_precedence_witness :
  ∃ env, compileEnvironment TrimSpace_ascii ["A=arg"]
           {[ "A" := "yaml"; "B" := "yaml"; "C" := "yaml" ]} {[ "B" := "file" ]} = Ok env
         ∧ env !! "A" = Some "arg" ∧ env !! "B" = Some "file" ∧ env !! "C" = Some "yaml".
Proof.
  destruct (proj1 (compileEnvironment_precedence TrimSpace_ascii ["A=arg"]
                     {[ "A" := "yaml"; "B" := "yaml"; "C" := "yaml" ]} {[ "B" := "file" ]})
              {[ "A" := "arg" ]}) as (env & Henv & H).
  - by vm_compute.
  - exists env. split; [done|]. rewrite !H. by vm_compute.
Defined.

(** ** [getGatewayURL] *)

(** X5. [getGatewayURL] returns one of its three arguments, and never
    the empty string when the default is not empty.  An argument that
    is empty or equal to the default counts as not given: then the YAML
    gateway is used if there is one, so naming the default gateway on
    the command line does not override the YAML file. *)
Theorem getGatewayURL_choice (argumentURL defaultURL yamlURL : string) :
  (getGatewayURL argumentURL defaultURL yamlURL = argumentURL
   ∨ getGatewayURL argumentURL defaultURL yamlURL = yamlURL
   ∨ getGatewayURL argumentURL defaultURL yamlURL = defaultURL)
  ∧ (defaultURL ≠ "" → getGatewayURL argumentURL defaultURL yamlURL ≠ "")
  ∧ (argumentURL ≠ "" → argumentURL ≠ defaultURL →
       getGatewayURL argumentURL defaultURL yamlURL = argumentURL)
  ∧ (argumentURL = "" ∨ argumentURL = defaultURL → yamlURL ≠ "" →
       getGatewayURL argumentURL defaultURL yamlURL = yamlURL)
  ∧ (argumentURL = "" ∨ argumentURL = defaultURL → yamlURL = "" →
       getGatewayURL argumentURL defaultURL yamlURL = defaultURL).
Proof.
  unfold getGatewayURL.
  destruct (String.eqb argumentURL defaultURL) eqn:He;
    [apply String.eqb_eq in He|apply String.eqb_neq in He];
    destruct argumentURL as [|a arg], yamlURL as [|y yaml]; simpl;
    split_and!; try tauto; try done; try (intros; subst; done);
    try (intros [?|?]; done).
Qed.

Lemma getGatewayURL_choice_witness :
  getGatewayURL "http://127.0.0.1:8080" "http://127.0.0.1:8080" "http://remote:8080"
  = "http://remote:8080".
Proof.
  apply (getGatewayURL_choice "http://127.0.0.1:8080" "http://127.0.0.1:8080"
           "http://remote:8080").
  - by right.
  - done.
Defined.

(** ** [buildLabelMap] *)

Lemma cut_spec sep s a b pos :
  cut sep s = Some (a, b) →
  s = a +:+ String sep b
  ∧ Index_from pos s sep = (pos + Z.of_nat (String.length a))%Z.
Proof.
  revert a pos. induction s as [|c s IH]; intros a pos; simpl; [done|].
  destruct (Ascii.eqb c sep) eqn:Hc.
  - intros [= <- <-]. apply Ascii.eqb_eq in Hc as ->. simpl. split; [done|lia].
  - destruct (cut sep s) as [[a' b']|] eqn:Hcut; [|done].
    intros [= <- <-]. destruct (IH a' (pos + 1)%Z eq_refl) as [-> Hi].
    simpl. split; [done|]. rewrite Hi. lia.
Qed.

Lemma substring_all s : substring 0 (String.length s) s = s.
Proof. induction s as [|c s IH]; simpl; [done|]. by rewrite IH. Qed.

Lemma substring_prefix a t : substring 0 (String.length a) (a +:+ t) = a.
Proof.
  induction a as [|c a IH]; simpl; [by destruct t|]. by rewrite IH.
Qed.

Lemma substring_suffix a c b :
  substring (S (String.length a)) (String.length b) (a +:+ String c b) = b.
Proof.
  induction a as [|c' a IH]; simpl; [apply substring_all|]. apply IH.
Qed.

Lemma length_append a b :
  String.length (a +:+ b) = (String.length a + String.length b)%nat.
Proof. induction a as [|c a IH]; simpl; [done|]. by rewrite IH. Qed.

(** Where the separator occurs, slicing around its index gives the two
    parts of [cut]. *)
Lemma cut_slices sep s a b :
  cut sep s = Some (a, b) →
  slice s 0 (Index s sep) = Some a
  ∧ slice s (Index s sep + 1) (Z.of_nat (String.length s)) = Some b.
Proof.
  intros Hcut. destruct (cut_spec sep s a b 0 Hcut) as [-> Hi].
  unfold Index. rewrite Hi, length_append. simpl. unfold slice.
  rewrite length_append. simpl. split.
  - rewrite !(proj2 (Z.leb_le _ _)) by lia. cbn [andb].
    replace (Z.to_nat (0 + Z.of_nat (String.length a) - 0)) with (String.length a) by lia.
    change (Z.to_nat 0) with 0%nat. by rewrite substring_prefix.
  - rewrite !(proj2 (Z.leb_le _ _)) by lia. cbn [andb].
    replace (Z.to_nat (0 + Z.of_nat (String.length a) + 1)) with (S (String.length a)) by lia.
    replace (Z.to_nat _) with (String.length b) by lia.
    by rewrite substring_suffix.
Qed.

Lemma buildLabelMap_from_spec labelMap out labelOpts :
  buildLabelMap_from labelMap out labelOpts
  = Ok (copy_into labelMap (omap (cut "=") labelOpts),
        out ++ replicate (length (filter (λ o, contains "=" o = false) labelOpts))
                 "Error - label option does not contain a value").
Proof.
  revert labelMap out. induction labelOpts as [|opt rest IH]; intros labelMap out.
  - simpl. by rewrite app_nil_r.
  - cbn [buildLabelMap_from]. rewrite filter_cons.
    destruct (contains "=" opt) eqn:Hc.
    + destruct (cut "=" opt) as [[a b]|] eqn:Hcut;
        [|apply cut_contains in Hcut; congruence].
      destruct (cut_slices _ _ _ _ Hcut) as [-> ->]. cbn [negb].
      rewrite IH. rewrite decide_False by done.
      cbn [omap list_omap]. rewrite Hcut. done.
    + cbn [negb]. rewrite IH, decide_True by done.
      apply cut_contains in Hc. cbn [omap list_omap]. rewrite Hc.
      cbn [length replicate]. by rewrite <- app_assoc.
Qed.

(** X6. [buildLabelMap] never fails: an option without ['='] is
    skipped with one printed message, every other option is stored
    under the text before its first ['='] with the rest as value (the
    key or the value may be empty), later options overriding earlier
    ones; the slices it takes are always in range. *)
Theorem buildLabelMap_total (labelOpts : list string) :
  buildLabelMap labelOpts
  = Ok (copy_into ∅ (omap (cut "=") labelOpts),
        replicate (length (filter (λ o, contains "=" o = false) labelOpts))
          "Error - label option does not contain a value").
Proof. unfold buildLabelMap. by rewrite buildLabelMap_from_spec. Qed.

(** X7. On options that carry no surrounding white space,
    [buildLabelMap] agrees with [parseMap] whenever [parseMap]
    succeeds, and prints nothing. *)
Theorem buildLabelMap_agrees_with_parseMap (TrimSpace : string → string)
    (labelOpts : list string) (keyName : string) (m : gmap string string) :
  Forall (λ o, TrimSpace o = o) labelOpts →
  parseMap TrimSpace labelOpts keyName = Ok m →
  buildLabelMap labelOpts = Ok (m, []).
Proof.
  intros Hid Hm.
  pose proof (parseMap_from_ok_well_formed TrimSpace _ _ _ _ Hm) as Hall.
  unfold parseMap in Hm. rewrite (parseMap_from_accepts TrimSpace) in Hm by done.
  injection Hm as <-.
  unfold buildLabelMap. rewrite buildLabelMap_from_spec.
  assert (omap (cut "=") labelOpts = entry_pair TrimSpace <$> labelOpts
          ∧ filter (λ o, contains "=" o = false) labelOpts = []) as [-> ->]; [|done].
  induction Hall as [|o l (k & v & Hcut & _ & _) _ IH]; [done|].
  apply Forall_cons in Hid as [Ho Hid]. destruct (IH Hid) as [IH1 IH2].
  rewrite Ho in Hcut. rewrite filter_cons. cbn [omap list_omap fmap list_fmap].
  unfold entry_pair at 1. rewrite Ho, Hcut. simpl.
  rewrite decide_False.
  - split; [|done]. f_equal. exact IH1.
  - intros Hc. apply cut_contains in Hc. congruence.
Qed.

Lemma buildLabelMap_agrees_with_parseMap_witness :
  buildLabelMap ["canary=true"; "team=a=b"]
  = Ok ({[ "canary" := "true"; "team" := "a=b" ]}, []).
Proof.
  apply (buildLabelMap_agrees_with_parseMap TrimSpace_ascii _ "label").
  - repeat constructor.
  - by vm_compute.
Defined.

(** Where the two differ: an empty key is stored by [buildLabelMap]
    and refused by [parseMap]; an option without ['='] is skipped by
    the one and makes the other panic. *)
Example buildLabelMap_empty_key :
  buildLabelMap ["=x"; "novalue"]
  = Ok ({[ "" := "x" ]}, ["Error - label option does not contain a value"])
  ∧ parseMap TrimSpace_ascii ["=x"; "novalue"] "label" = Err "Empty label name: [=x]"
  ∧ parseMap TrimSpace_ascii ["novalue"] "label" = Panic.
Proof. split_and!; by vm_compute. Qed.

(** ** [getRegistryAuth] *)

Lemma Split_no_separator s sep : contains sep s = false → Split s sep = [s].
Proof.
  induction s as [|c s IH]; simpl; [done|].
  destruct (Ascii.eqb c sep); simpl; [done|]. intros H. by rewrite IH.
Qed.

Lemma Split_cut s sep a b : cut sep s = Some (a, b) → Split s sep = a :: Split b sep.
Proof.
  revert a. induction s as [|c s IH]; intros a; simpl; [done|].
  destruct (Ascii.eqb c sep); [by intros [= <- <-]|].
  destruct (cut sep s) as [[a' b']|]; [|done].
  intros [= <- <-]. by rewrite (IH a' eq_refl).
Qed.

Lemma size_nonzero (config : configFile) :
  AuthConfigs config ≠ ∅ ↔ (size (AuthConfigs config) =? 0)%nat = false.
Proof.
  rewrite Nat.eqb_neq. by rewrite map_size_empty_iff.
Qed.

(** X8. Without stored credentials [getRegistryAuth] returns the empty
    string for any image.  With credentials, an image name without
    ['/'] (such as [nginx]) makes it panic: the slice [regS[:len(regS)-2]]
    has a negative bound. *)
Theorem getRegistryAuth_without_slash (config : configFile) (image : string) :
  (AuthConfigs config = ∅ → getRegistryAuth config image = Ok "")
  ∧ (AuthConfigs config ≠ ∅ → contains "/" image = false →
       getRegistryAuth config image = Panic).
Proof.
  unfold getRegistryAuth. split.
  - intros ->. by rewrite map_size_empty.
  - intros Hne Hno. apply size_nonzero in Hne. rewrite Hne.
    by rewrite (Split_no_separator _ _ Hno).
Qed.

Lemma getRegistryAuth_without_slash_witness :
  getRegistryAuth (mkConfigFile {[ "registry.local" := mkAuthConfig "dXNlcjpwYXNz" ]} "")
                  "nginx" = Panic.
Proof.
  apply (getRegistryAuth_without_slash
           (mkConfigFile {[ "registry.local" := mkAuthConfig "dXNlcjpwYXNz" ]} "") "nginx").
  - intros H. by apply (f_equal (λ m, m !! "registry.local")) in H.
  - reflexivity.
Defined.

(** X9. With credentials stored: for [user/image] the credentials of
    the default Docker registry are used (empty if there are none); for
    [registry/user/image] those stored under [registry], and the empty
    string when that registry is unknown, never those of the default
    registry; with one more path component the two leading components
    are looked up joined by a comma and a space. *)
Theorem getRegistryAuth_registry (config : configFile) (a b c d : string) :
  AuthConfigs config ≠ ∅ →
  contains "/" a = false → contains "/" b = false →
  contains "/" c = false → contains "/" d = false →
  getRegistryAuth config (a +:+ "/" +:+ b) = Ok (auth_for config defaultDockerRegistry)
  ∧ (a ≠ "" →
       getRegistryAuth config (a +:+ "/" +:+ b +:+ "/" +:+ c) = Ok (auth_for config a))
  ∧ getRegistryAuth config (a +:+ "/" +:+ b +:+ "/" +:+ c +:+ "/" +:+ d)
    = Ok (auth_for config (a +:+ ", " +:+ b)).
Proof.
  intros Hne Ha Hb Hc Hd. apply size_nonzero in Hne.
  assert (∀ x y, contains "/" x = false → cut "/" (x +:+ "/" +:+ y) = Some (x, y)) as Hcut.
  { intros x y. induction x as [|ch x IH]; simpl; [done|].
    destruct (Ascii.eqb ch "/"); simpl; [done|]. intros H. by rewrite (IH H). }
  unfold getRegistryAuth. rewrite Hne. split_and!.
  - rewrite (Split_cut _ _ _ _ (Hcut a b Ha)), (Split_no_separator _ _ Hb). simpl.
    by destruct (String.eqb (auth_for config defaultDockerRegistry) "") eqn:He;
      [apply String.eqb_eq in He as ->|].
  - intros Hane.
    rewrite (Split_cut _ _ _ _ (Hcut a _ Ha)), (Split_cut _ _ _ _ (Hcut b c Hb)),
      (Split_no_separator _ _ Hc). simpl.
    by destruct a.
  - rewrite (Split_cut _ _ _ _ (Hcut a _ Ha)), (Split_cut _ _ _ _ (Hcut b _ Hb)),
      (Split_cut _ _ _ _ (Hcut c d Hc)), (Split_no_separator _ _ Hd). simpl.
    by destruct a.
Qed.

Lemma getRegistryAuth_registry_witness :
  getRegistryAuth
    (mkConfigFile {[ "https://index.docker.io/v1/" := mkAuthConfig "aHViOnB3" ]} "")
    "registry.local/alexellis/figlet" = Ok "".
Proof.
  refine (proj1 (proj2 (getRegistryAuth_registry
            (mkConfigFile {[ "https://index.docker.io/v1/" := mkAuthConfig "aHViOnB3" ]} "")
            "registry.local" "alexellis" "figlet" "" _ eq_refl eq_refl eq_refl eq_refl)) _).
  - intros H. by apply (f_equal (λ m, m !! "https://index.docker.io/v1/")) in H.
  - done.
Defined.

(** ** Template expansion *)

Section TemplateFacts.
Variable overwrite : bool.

(** X10. [canWriteLanguage] asks the file system at most once per
    language: the first answer for a language is stored, and every
    later call returns it whatever the file system and the arguments
    then say, leaving the map as it is.  For a nil map or an empty
    language the answer is no and nothing is stored. *)
Theorem canWriteLanguage_caches (stat_ok : string → bool) (known : gmap string bool)
    (language : string) (ow : bool) :
  language ≠ "" →
  (∃ known', (canWriteLanguage stat_ok (Some known) language ow).2 = Some known'
     ∧ known' !! language = Some (canWriteLanguage stat_ok (Some known) language ow).1
     ∧ (∀ l, l ≠ language → known' !! l = known !! l)
     ∧ (∀ b, known !! language = Some b →
          canWriteLanguage stat_ok (Some known) language ow = (b, Some known)))
  ∧ (∀ stat_ok' ow',
       canWriteLanguage stat_ok' (canWriteLanguage stat_ok (Some known) language ow).2
         language ow'
       = canWriteLanguage stat_ok (Some known) language ow)
  ∧ canWriteLanguage stat_ok None language ow = (false, None)
  ∧ canWriteLanguage stat_ok (Some known) "" ow = (false, Some known).
Proof.
  intros Hl. unfold canWriteLanguage.
  destruct language as [|c language]; [done|]. simpl.
  destruct (known !! String c language) as [b|] eqn:Hk; simpl.
  - split_and!; try done.
    + exists known. split_and!; try done. by intros b' [= ->].
    + intros ? ?. by rewrite Hk.
  - split_and!; try done.
    + eexists. split_and!; try done.
      * by rewrite lookup_insert_eq.
      * intros l Hne. by rewrite lookup_insert_ne.
    + intros stat' ow'. by rewrite lookup_insert_eq.
Qed.

Lemma canWriteLanguage_caches_witness :
  canWriteLanguage (λ _, true)
    (canWriteLanguage (λ _, false) (Some ∅) "node" false).2 "node" false
  = (true, Some {[ "node" := true ]}).
Proof.
  rewrite (proj1 (proj2 (canWriteLanguage_caches (λ _, false) ∅ "node" false
                           ltac:(discriminate)))).
  reflexivity.
Defined.

Lemma Index_from_bounds pos s sep :
  Index_from pos s sep = (-1)%Z
  ∨ (pos ≤ Index_from pos s sep < pos + Z.of_nat (String.length s))%Z.
Proof.
  revert pos. induction s as [|c s IH]; intros pos; simpl; [by left|].
  destruct (Ascii.eqb c sep); [right; lia|].
  destruct (IH (pos + 1)%Z) as [->|H]; [by left|right; lia].
Qed.

Lemma relative_path_total name : is_Some (relative_path name).
Proof.
  unfold relative_path, slice, Index.
  destruct (Index_from_bounds 0 name "/") as [->|H].
  - simpl. rewrite !(proj2 (Z.leb_le _ _)) by lia. simpl. eauto.
  - rewrite !(proj2 (Z.leb_le _ _)) by lia. simpl. eauto.
Qed.

Lemma Split_length_nonempty s sep :
  (1 < length (Split s sep))%nat → s ≠ "".
Proof. intros H ->. simpl in H. lia. Qed.

Lemma last_byte_total s : s ≠ "" →
  is_Some (slice s (Z.of_nat (String.length s) - 1) (Z.of_nat (String.length s))).
Proof.
  intros Hs. unfold slice. destruct s as [|c s]; [done|].
  rewrite !(proj2 (Z.leb_le _ _)) by (simpl; lia). simpl. eauto.
Qed.

Lemma canWriteLanguage_verdict stat_ok known language ow :
  canWriteLanguage stat_ok (Some known) language ow
  = if decide (language = "") then (false, Some known)
    else let v := default (templateFolderExists stat_ok language ow) (known !! language) in
         (v, Some (<[language := v]> known)).
Proof.
  unfold canWriteLanguage. destruct language as [|c language]; [done|].
  simpl. destruct (known !! String c language) as [b|] eqn:Hk; simpl; [|done].
  by rewrite insert_id.
Qed.

(** What [canExpandTemplateData] answers: nothing is written above the
    directory of a language, and below it the entry is expanded exactly
    when the language may be written. *)
Lemma canExpandTemplateData_spec stat_ok known relativePath :
  ∃ action language isDirectory known',
    canExpandTemplateData overwrite stat_ok (Some known) relativePath
    = Some (action, language, isDirectory, Some known')
    ∧ ((2 <? length (Split relativePath "/"))%nat = false →
         action = SkipWritingData ∧ known' = known)
    ∧ ((2 <? length (Split relativePath "/"))%nat = true →
         Split relativePath "/" !! 1%nat = Some language
         ∧ canWriteLanguage stat_ok (Some known) language overwrite
           = (extracts action, Some known')
         ∧ (action = NewTemplateFound ∨ action = DirectoryAlreadyExists →
            length (Split relativePath "/") = rootLanguageDirSplitCount)).
Proof.
  unfold canExpandTemplateData.
  destruct (2 <? length (Split relativePath "/"))%nat eqn:Hdeep.
  - apply Nat.ltb_lt in Hdeep.
    destruct (lookup_lt_is_Some_2 (Split relativePath "/") 1) as [language Hlang]; [lia|].
    destruct (last_byte_total relativePath) as [last Hlast].
    { apply (Split_length_nonempty _ "/"). lia. }
    rewrite Hlang, Hlast. cbn [mbind option_bind].
    assert (∃ cw known', canWriteLanguage stat_ok (Some known) language overwrite
                         = (cw, Some known')) as (cw & known' & Hcw).
    { rewrite canWriteLanguage_verdict. destruct (decide (language = "")); eauto. }
    rewrite Hcw.
    destruct (length (Split relativePath "/") =? rootLanguageDirSplitCount)%nat eqn:Hroot;
      destruct (String.eqb last "/"), cw; simpl;
      eexists _, _, _, _; (split; [reflexivity|]); split; try done;
      intros _; (split; [done|]); (split; [done|]);
      try (intros [?|?]; discriminate); intros _; by apply Nat.eqb_eq.
  - eexists _, _, _, _. split; [done|]. split; [done|]. done.
Qed.

(** One round of the loop of [expandTemplatesFromZip]. *)
Lemma expand_entries_step existing fetched known events z rest :
  ∃ relativePath v known' existing' fetched' (writes : bool),
    relative_path (z_Name z) = Some relativePath
    ∧ (entry_language z = None → v = false ∧ known' = known)
    ∧ (∀ l, entry_language z = Some l →
         canWriteLanguage (entry_stat_ok z) (Some known) l overwrite = (v, Some known'))
    ∧ (v = true → is_Some (entry_language z))
    ∧ (existing' = existing
       ∨ ∃ l, entry_language z = Some l ∧ v = false ∧ existing' = existing ++ [l])
    ∧ (fetched' = fetched
       ∨ ∃ l, entry_language z = Some l ∧ v = true ∧ fetched' = fetched ++ [l])
    ∧ expand_entries overwrite existing fetched (Some known) events (z :: rest)
      = if v then
          match Open_error z, createPath_error z with
          | None, None =>
              if writes then
                match writeFile_error z with
                | Some err =>
                    Some (mkExpansion [] [] (Some err) (events ++ [CreatedPath relativePath]))
                | None =>
                    expand_entries overwrite existing' fetched' (Some known')
                      ((events ++ [CreatedPath relativePath]) ++ [WroteFile relativePath]) rest
                end
              else expand_entries overwrite existing' fetched' (Some known')
                     (events ++ [CreatedPath relativePath]) rest
          | _, _ => Some (mkExpansion existing' fetched' None events)
          end
        else expand_entries overwrite existing' fetched' (Some known') events rest.
Proof.
  destruct (relative_path_total (z_Name z)) as [rp Hrp].
  cbn [expand_entries]. unfold entry_language. rewrite Hrp. cbn [mbind option_bind].
  unfold language_of_path.
  destruct (String.prefix "template/" rp) eqn:Hprefix; cbn [negb andb].
  2:{ exists rp, false, known, existing, fetched, false.
      split_and!; try done; auto. }
  destruct (canExpandTemplateData_spec (entry_stat_ok z) known rp)
    as (action & language & isDirectory & known' & -> & Hflat & Hdeep).
  cbn [mbind option_bind].
  destruct (2 <? length (Split rp "/"))%nat.
  - destruct Hdeep as (Hlang & Hcw & _); [done|]. rewrite Hlang.
    destruct action; simpl in Hcw; cbn [extracts].
    + exists rp, true, known', existing, fetched,
        ((1 <? String.length rp)%nat && negb isDirectory).
      split_and!; eauto; try done; by intros l [= <-].
    + exists rp, true, known', existing, (fetched ++ [language]),
        ((1 <? String.length rp)%nat && negb isDirectory).
      split_and!; eauto; try done; by intros l [= <-].
    + exists rp, false, known', (existing ++ [language]), fetched, false.
      split_and!; eauto; try done; by intros l [= <-].
    + exists rp, false, known', existing, fetched, false.
      split_and!; eauto; try done; by intros l [= <-].
  - destruct Hflat as [-> ->]; [done|].
    exists rp, false, known, existing, fetched, false.
    split_and!; try done; auto.
Qed.



Lemma written_language known z v known' :
  (∀ l, entry_language z = Some l →
     canWriteLanguage (entry_stat_ok z) (Some known) l overwrite = (v, Some known')) →
  is_Some (entry_language z) → v = true →
  ∃ l, entry_language z = Some l ∧ l ≠ "".
Proof.
  intros Hcw [l Hl] ->. exists l. split; [done|]. intros ->.
  specialize (Hcw _ Hl). by rewrite canWriteLanguage_verdict in Hcw.
Qed.

Lemma entry_language_path z relativePath l :
  relative_path (z_Name z) = Some relativePath →
  entry_language z = Some l → language_of_path relativePath = Some l.
Proof. unfold entry_language. by intros ->. Qed.


End TemplateFacts.

Section TemplateVerdicts.
Variable overwrite : bool.

Lemma first_verdict_known known files l b :
  known !! l = Some b → first_verdict overwrite known files l = b.
Proof. intros Hk. destruct files; simpl; by rewrite Hk. Qed.

Lemma first_verdict_skip known z rest l :
  entry_language z ≠ Some l →
  first_verdict overwrite known (z :: rest) l = first_verdict overwrite known rest l.
Proof.
  intros Hne. simpl. destruct (known !! l) as [b|] eqn:Hk.
  - by rewrite (first_verdict_known _ _ _ b).
  - by destruct (decide (entry_language z = Some l)).
Qed.

Lemma first_verdict_insert_ne known files l l0 v :
  l ≠ l0 →
  first_verdict overwrite (<[l0 := v]> known) files l
  = first_verdict overwrite known files l.
Proof.
  intros Hne. induction files as [|z rest IH]; simpl; rewrite lookup_insert_ne by done.
  - done.
  - destruct (known !! l); [done|]. by destruct (decide (entry_language z = Some l)).
Qed.

(** The verdicts after one round are the verdicts before it. *)
Lemma first_verdict_step known z rest v known' l :
  (entry_language z = None → v = false ∧ known' = known) →
  (∀ l0, entry_language z = Some l0 →
     canWriteLanguage (entry_stat_ok z) (Some known) l0 overwrite = (v, Some known')) →
  l ≠ "" →
  first_verdict overwrite known' rest l = first_verdict overwrite known (z :: rest) l.
Proof.
  intros Hnone Hsome Hl. destruct (entry_language z) as [l0|] eqn:Hz.
  2:{ destruct Hnone as [_ ->]; [done|]. by rewrite first_verdict_skip by (by rewrite Hz). }
  specialize (Hsome l0 eq_refl). rewrite canWriteLanguage_verdict in Hsome.
  destruct (decide (l0 = "")) as [->|Hl0].
  { injection Hsome as <- <-. rewrite first_verdict_skip; [done|]. rewrite Hz. congruence. }
  cbn zeta in Hsome. injection Hsome as <- <-.
  destruct (decide (l = l0)) as [->|Hne].
  - rewrite (first_verdict_known _ _ _ _ (lookup_insert_eq _ _ _)).
    simpl. destruct (known !! l0); [done|]. simpl.
    by rewrite Hz, decide_True.
  - rewrite first_verdict_insert_ne by done.
    rewrite first_verdict_skip; [done|]. rewrite Hz. congruence.
Qed.

Lemma step_verdict known z rest v known' l :
  (∀ l0, entry_language z = Some l0 →
     canWriteLanguage (entry_stat_ok z) (Some known) l0 overwrite = (v, Some known')) →
  entry_language z = Some l → l ≠ "" →
  first_verdict overwrite known (z :: rest) l = v.
Proof.
  intros Hsome Hz Hl. specialize (Hsome l Hz).
  rewrite canWriteLanguage_verdict, decide_False in Hsome by done.
  cbn zeta in Hsome. injection Hsome as <- _.
  simpl. destruct (known !! l); [done|]. simpl. by rewrite Hz, decide_True.
Qed.

Lemma expand_entries_created files : Forall entry_io_ok files →
  ∀ existing fetched known events,
  ∃ r new, expand_entries overwrite existing fetched (Some known) events files = Some r
    ∧ expand_error r = None
    ∧ extract_events r = events ++ new
    ∧ ∀ relativePath, CreatedPath relativePath ∈ new ↔
        ∃ z l, z ∈ files ∧ relative_path (z_Name z) = Some relativePath
               ∧ language_of_path relativePath = Some l ∧ l ≠ ""
               ∧ first_verdict overwrite known files l = true.
Proof.
  induction 1 as [|z rest (HO & HC & HW) Hrest IH]; intros existing fetched known events.
  { eexists _, []. split; [reflexivity|]. split; [done|].
    split; [by rewrite app_nil_r|]. intros rp. split.
    - by intros ?%elem_of_nil.
    - by intros (z & l & ?%elem_of_nil & _). }
  destruct (expand_entries_step overwrite existing fetched known events z rest)
    as (rp & v & known' & existing' & fetched' & writes & Hrp & Hnone & Hcw & Hsome & _ & _ & ->).
  rewrite HO, HC, HW.
  pose proof (first_verdict_step known z rest v known') as Hstep.
  specialize (λ l, Hstep l Hnone Hcw).
  assert (∀ head,
    (∀ p, CreatedPath p ∈ head → p = rp ∧ v = true) →
    (v = true → CreatedPath rp ∈ head) →
    ∃ r new, expand_entries overwrite existing' fetched' (Some known') (events ++ head) rest
               = Some r
      ∧ expand_error r = None
      ∧ extract_events r = events ++ new
      ∧ ∀ relativePath, CreatedPath relativePath ∈ new ↔
          ∃ z' l, z' ∈ z :: rest ∧ relative_path (z_Name z') = Some relativePath
                 ∧ language_of_path relativePath = Some l ∧ l ≠ ""
                 ∧ first_verdict overwrite known (z :: rest) l = true) as IH'.
  { intros head Honly Hhas.
    destruct (IH existing' fetched' known' (events ++ head)) as (r & new & Hr & Herr & Hev & Hnew).
    exists r, (head ++ new). split; [done|]. split; [done|].
    split; [by rewrite Hev, app_assoc|].
    intros p. rewrite elem_of_app, Hnew. split.
    - intros [Hin|(z' & l & Hz' & Hp & Hl & Hne & Hv)].
      + destruct (Honly p Hin) as [-> ->].
        destruct (written_language overwrite known z true known' Hcw (Hsome eq_refl) eq_refl)
          as (l & Hl & Hne).
        exists z, l. split; [apply list_elem_of_here|]. split; [done|].
        split; [by apply (entry_language_path z)|]. split; [done|].
        by apply (step_verdict known z rest true known').
      + exists z', l. split; [by apply list_elem_of_further|].
        split_and!; try done. by rewrite <- Hstep.
    - intros (z' & l & Hz' & Hp & Hl & Hne & Hv).
      apply elem_of_cons in Hz' as [->|Hz'].
      + left. rewrite Hrp in Hp. injection Hp as ->. apply Hhas.
        rewrite <- Hv. symmetry. apply (step_verdict known z rest v known'); try done.
        unfold entry_language. by rewrite Hrp.
      + right. exists z', l. split_and!; try done. by rewrite Hstep. }
  destruct v.
  - destruct writes.
    + rewrite <- app_assoc. apply IH'.
      * intros p [Hp|Hp]%elem_of_cons; [by injection Hp as ->|].
        apply list_elem_of_singleton in Hp. discriminate.
      * intros _. apply list_elem_of_here.
    + apply IH'.
      * intros p Hp%list_elem_of_singleton. by injection Hp as ->.
      * intros _. apply list_elem_of_here.
  - destruct (IH' []) as (r & new & Hr & Hrest'); [by intros p ?%elem_of_nil|done|].
    rewrite app_nil_r in Hr. by exists r, new.
Qed.

(** X13. When no system call fails, a path is created exactly when it
    is the path of an entry inside the directory of a language with a
    non-empty name and that language could be written when its first
    entry was met.  So every language of the archive is expanded
    entirely or not at all, although expanding it creates the very
    directory whose absence was the condition. *)
Theorem expandTemplatesFromZip_all_or_nothing (files : list zip_entry) (ow : bool) :
  Forall entry_io_ok files →
  ∃ r, expandTemplatesFromZip overwrite (inr files) ow = Some r
    ∧ expand_error r = None
    ∧ ∀ relativePath, CreatedPath relativePath ∈ extract_events r ↔
        ∃ z l, z ∈ files ∧ relative_path (z_Name z) = Some relativePath
               ∧ language_of_path relativePath = Some l ∧ l ≠ ""
               ∧ first_verdict overwrite ∅ files l = true.
Proof.
  intros Hok. simpl.
  destruct (expand_entries_created files Hok [] [] ∅ []) as (r & new & Hr & Herr & Hev & Hnew).
  exists r. split; [done|]. split; [done|]. intros rp. by rewrite Hev.
Qed.

Lemma known_languages_step known z v known' :
  (entry_language z = None → v = false ∧ known' = known) →
  (∀ l, entry_language z = Some l →
     canWriteLanguage (entry_stat_ok z) (Some known) l overwrite = (v, Some known')) →
  (∀ l b, known !! l = Some b → known' !! l = Some b)
  ∧ (known !! "" = None → known' !! "" = None)
  ∧ (∀ l, entry_language z = Some l → l = "" ∧ v = false ∨ known' !! l = Some v).
Proof.
  intros Hnone Hsome. destruct (entry_language z) as [l0|] eqn:Hz.
  2:{ destruct Hnone as [-> ->]; [done|]. split_and!; try done. }
  specialize (Hsome l0 eq_refl). rewrite canWriteLanguage_verdict in Hsome.
  destruct (decide (l0 = "")) as [->|Hl0].
  { injection Hsome as <- <-. split_and!; try done. intros l [= <-]. by left. }
  cbn zeta in Hsome. injection Hsome as <- <-. split_and!.
  - intros l b Hl. destruct (decide (l = l0)) as [->|Hne].
    + by rewrite lookup_insert_eq, Hl.
    + by rewrite lookup_insert_ne.
  - intros Hempty. by rewrite lookup_insert_ne.
  - intros l [= <-]. right. by rewrite lookup_insert_eq.
Qed.

Lemma expand_entries_disjoint files : ∀ existing fetched known events,
  known !! "" = None →
  (∀ l, l ∈ fetched → known !! l = Some true) →
  (∀ l, l ∈ existing → l = "" ∨ known !! l = Some false) →
  ∃ r, expand_entries overwrite existing fetched (Some known) events files = Some r
    ∧ ∀ l, l ∈ fetchedLanguages r → l ∉ existingLanguages r.
Proof.
  assert (∀ (existing fetched : list string) (known : gmap string bool),
    known !! "" = None →
    (∀ l, l ∈ fetched → known !! l = Some true) →
    (∀ l, l ∈ existing → l = "" ∨ known !! l = Some false) →
    ∀ l, l ∈ fetched → l ∉ existing) as Hdisjoint.
  { intros existing fetched known Hempty Hf He l Hlf Hle.
    specialize (Hf l Hlf). destruct (He l Hle) as [->|Hfalse]; congruence. }
  induction files as [|z rest IH]; intros existing fetched known events Hempty Hf He.
  { eexists. split; [reflexivity|]. simpl. by apply (Hdisjoint _ _ known). }
  destruct (expand_entries_step overwrite existing fetched known events z rest)
    as (rp & v & known' & existing' & fetched' & writes & _ & Hnone & Hcw & _ & Hex & Hfe & ->).
  destruct (known_languages_step known z v known' Hnone Hcw) as (Hmono & Hempty' & Hnew).
  assert (∀ l, l ∈ fetched' → known' !! l = Some true) as Hf'.
  { intros l Hl. destruct Hfe as [->|(l0 & Hz & -> & ->)]; [by apply Hmono, Hf|].
    apply elem_of_app in Hl as [Hl|Hl%list_elem_of_singleton]; [by apply Hmono, Hf|].
    subst l. by destruct (Hnew l0 Hz) as [[_ ?]|?]. }
  assert (∀ l, l ∈ existing' → l = "" ∨ known' !! l = Some false) as He'.
  { assert (∀ l, l ∈ existing → l = "" ∨ known' !! l = Some false) as Hold.
    { intros l Hl. destruct (He l Hl) as [?|?]; [by left|right; by apply Hmono]. }
    intros l Hl. destruct Hex as [->|(l0 & Hz & -> & ->)]; [by apply Hold|].
    apply elem_of_app in Hl as [Hl|Hl%list_elem_of_singleton]; [by apply Hold|].
    subst l. destruct (Hnew l0 Hz) as [[? _]|?]; [by left|by right]. }
  specialize (Hempty' Hempty).
  assert (∃ r, Some (mkExpansion existing' fetched' None events) = Some r
    ∧ ∀ l, l ∈ fetchedLanguages r → l ∉ existingLanguages r) as Hbreak.
  { eexists. split; [reflexivity|]. simpl. by apply (Hdisjoint _ _ known'). }
  destruct v; [|by apply IH].
  destruct (Open_error z); [done|]. destruct (createPath_error z); [done|].
  destruct writes; [|by apply IH].
  destruct (writeFile_error z); [|by apply IH].
  eexists. split; [reflexivity|]. simpl. by intros l ?%elem_of_nil.
Qed.

(** X14. No language is reported both as fetched and as already
    existing, whatever the archive holds and whatever the file system
    answers while it is expanded. *)
Theorem expandTemplatesFromZip_disjoint (OpenReader : string + list zip_entry) (ow : bool) :
  ∃ r, expandTemplatesFromZip overwrite OpenReader ow = Some r
    ∧ ∀ l, l ∈ fetchedLanguages r → l ∉ existingLanguages r.
Proof.
  destruct OpenReader as [err|files]; simpl.
  - eexists. split; [reflexivity|]. simpl. by intros l ?%elem_of_nil.
  - apply expand_entries_disjoint; [done| |]; by intros l ?%elem_of_nil.
Qed.
End TemplateVerdicts.

Lemma expandTemplatesFromZip_all_or_nothing_witness :
  Forall entry_io_ok demo_archive
  ∧ ∃ r, expandTemplatesFromZip false (inr demo_archive) false = Some r
      ∧ expand_error r = None
      ∧ ∀ relativePath, CreatedPath relativePath ∈ extract_events r ↔
          ∃ z l, z ∈ demo_archive ∧ relative_path (z_Name z) = Some relativePath
                 ∧ language_of_path relativePath = Some l ∧ l ≠ ""
                 ∧ first_verdict false ∅ demo_archive l = true.
Proof.
  assert (Forall entry_io_ok demo_archive) as Hok.
  { unfold demo_archive. repeat (apply Forall_cons; split; [by repeat split|]).
    apply Forall_nil_2. }
  split; [exact Hok|].
  exact (expandTemplatesFromZip_all_or_nothing false demo_archive false Hok).
Defined.

(** The expansion of the demonstration archive: [go] is fetched with
    its file, although [template/go] exists by the time the file is
    met; [node] is left alone. *)
Example demo_archive_expansion :
  expandTemplatesFromZip false (inr demo_archive) false
  = Some (mkExpansion ["node"] ["go"] None
            [CreatedPath "template/go/"; CreatedPath "template/go/main.go";
             WroteFile "template/go/main.go"]).
Proof. by vm_compute. Qed.

(** ** Environment files *)

Section ReadFilesFacts.
Variable ReadFile : string → string + string.
Variable Unmarshal : string → string + gmap string string.

Lemma readFiles_from_cons envs file rest :
  readFiles_from ReadFile Unmarshal envs (file :: rest)
  = match file_error ReadFile Unmarshal file,
          file_environment ReadFile Unmarshal file with
    | Some err, _ => Err err
    | None, Some e => readFiles_from ReadFile Unmarshal (e ∪ envs) rest
    | None, None => Panic
    end.
Proof.
  cbn [readFiles_from]. unfold file_error, file_environment.
  destruct (ReadFile file) as [err|bytesOut]; [done|].
  destruct (Unmarshal bytesOut) as [err|e]; [done|].
  by rewrite (copy_into_map_order envs e _ (reflexivity _)).
Qed.

Lemma file_error_environment file :
  file_error ReadFile Unmarshal file = None
  ↔ is_Some (file_environment ReadFile Unmarshal file).
Proof.
  unfold file_error, file_environment.
  destruct (ReadFile file) as [err|bytesOut].
  - split; [done|]. by intros [? ?].
  - destruct (Unmarshal bytesOut) as [err|e].
    + split; [done|]. by intros [? ?].
    + split; [eauto|done].
Qed.

Lemma readFiles_from_lookup files : ∀ envs0 envs,
  readFiles_from ReadFile Unmarshal envs0 files = Ok envs →
  ∀ k v, envs !! k = Some v ↔
    (∃ files1 file files2 e,
       files = files1 ++ file :: files2
       ∧ file_environment ReadFile Unmarshal file = Some e
       ∧ e !! k = Some v
       ∧ ∀ f e', f ∈ files2 → file_environment ReadFile Unmarshal f = Some e' →
                 e' !! k = None)
    ∨ (envs0 !! k = Some v
       ∧ ∀ f e', f ∈ files → file_environment ReadFile Unmarshal f = Some e' →
                 e' !! k = None).
Proof.
  induction files as [|file rest IH]; intros envs0 envs Hr k v.
  { injection Hr as <-. split.
    - intros Hk. right. split; [done|]. by intros f e' ?%elem_of_nil.
    - intros [(files1 & ? & ? & ? & Hnil & _)|[? _]]; [|done].
      by destruct files1. }
  rewrite readFiles_from_cons in Hr.
  destruct (file_error ReadFile Unmarshal file); [done|].
  destruct (file_environment ReadFile Unmarshal file) as [e|] eqn:He; [|done].
  rewrite (IH _ _ Hr k v). split.
  - intros [(files1 & f & files2 & e' & -> & Hf & Hk & Hlast)|[Hk Hnone]].
    + left. exists (file :: files1), f, files2, e'. by split_and!.
    + apply lookup_union_Some_raw in Hk as [Hk|[Hk Hk0]].
      * left. exists [], file, rest, e. by split_and!.
      * right. split; [done|]. intros f e' [->|Hin]%elem_of_cons Hf.
        -- rewrite He in Hf. by injection Hf as <-.
        -- by apply (Hnone f).
  - intros [(files1 & f & files2 & e' & Heq & Hf & Hk & Hlast)|[Hk Hnone]].
    + destruct files1 as [|f1 files1]; simpl in Heq; injection Heq as -> ->.
      * right. rewrite He in Hf. injection Hf as <-. split; [|done].
        by apply lookup_union_Some_l.
      * left. exists files1, f, files2, e'. by split_and!.
    + right. split.
      * apply lookup_union_Some_raw. right. split; [|done].
        apply (Hnone file); [apply list_elem_of_here|done].
      * intros f e' Hin. apply (Hnone f). by apply list_elem_of_further.
Qed.

(** X15. When [readFiles] succeeds, a variable has the value given by
    the last of the environment files that defines it, and a variable
    that no file defines is absent. *)
Theorem readFiles_last_file_wins (files : list string) (envs : gmap string string) :
  readFiles ReadFile Unmarshal files = Ok envs →
  ∀ k v, envs !! k = Some v ↔
    ∃ files1 file files2 e,
      files = files1 ++ file :: files2
      ∧ file_environment ReadFile Unmarshal file = Some e
      ∧ e !! k = Some v
      ∧ ∀ f e', f ∈ files2 → file_environment ReadFile Unmarshal f = Some e' →
                e' !! k = None.
Proof.
  intros Hr k v. rewrite (readFiles_from_lookup files ∅ envs Hr k v).
  split; [|by left]. intros [?|[? _]]; done.
Qed.

Lemma readFiles_from_first_failure good : ∀ envs bad rest err,
  Forall (λ f, file_error ReadFile Unmarshal f = None) good →
  file_error ReadFile Unmarshal bad = Some err →
  readFiles_from ReadFile Unmarshal envs (good ++ bad :: rest) = Err err.
Proof.
  induction good as [|f good IH]; intros envs bad rest err Hgood Hbad.
  - simpl app. rewrite readFiles_from_cons. by rewrite Hbad.
  - apply Forall_cons in Hgood as [Hf Hgood].
    change ((f :: good) ++ bad :: rest) with (f :: (good ++ bad :: rest)).
    rewrite readFiles_from_cons, Hf.
    destruct (proj1 (file_error_environment f) Hf) as [e ->]. by apply IH.
Qed.

(** X16. [readFiles] fails with the error of the first file that
    cannot be read or parsed, whatever the files after it hold; and
    it succeeds when every file can be read and parsed. *)
Theorem readFiles_first_failure (good : list string) (bad : string)
    (rest : list string) (err : string) :
  Forall (λ f, file_error ReadFile Unmarshal f = None) good →
  file_error ReadFile Unmarshal bad = Some err →
  readFiles ReadFile Unmarshal (good ++ bad :: rest) = Err err
  ∧ ∃ envs, readFiles ReadFile Unmarshal good = Ok envs.
Proof.
  intros Hgood Hbad. split; [by apply readFiles_from_first_failure|].
  unfold readFiles. generalize (∅ : gmap string string).
  induction Hgood as [|f good Hf Hgood IH]; intros envs; [by eexists|].
  rewrite readFiles_from_cons, Hf.
  destruct (proj1 (file_error_environment f) Hf) as [e ->]. apply IH.
Qed.
End ReadFilesFacts.

Lemma readFiles_last_file_wins_witness :
  ∃ envs, readFiles demo_ReadFile demo_Unmarshal ["a.yml"; "b.yml"] = Ok envs
          ∧ envs !! "B" = Some "2" ∧ envs !! "A" = Some "1".
Proof.
  exists ({[ "B" := "2" ]} ∪ ({[ "A" := "1"; "B" := "1" ]} ∪ ∅)).
  assert (readFiles demo_ReadFile demo_Unmarshal ["a.yml"; "b.yml"]
          = Ok ({[ "B" := "2" ]} ∪ ({[ "A" := "1"; "B" := "1" ]} ∪ ∅))) as Hr
    by (by vm_compute).
  split; [exact Hr|]. split.
  - apply (proj2 (readFiles_last_file_wins demo_ReadFile demo_Unmarshal _ _ Hr "B" "2")).
    exists ["a.yml"], "b.yml", [], {[ "B" := "2" ]}.
    split_and!; [reflexivity|reflexivity|reflexivity|]. by intros f e' ?%elem_of_nil.
  - apply (proj2 (readFiles_last_file_wins demo_ReadFile demo_Unmarshal _ _ Hr "A" "1")).
    exists [], "a.yml", ["b.yml"], {[ "A" := "1"; "B" := "1" ]}.
    split_and!; [reflexivity|reflexivity|reflexivity|].
    intros f e' Hf%list_elem_of_singleton. subst f. intros [= <-]. reflexivity.
Defined.

Lemma readFiles_first_failure_witness :
  readFiles demo_ReadFile demo_Unmarshal ["a.yml"; "missing.yml"; "c.yml"]
  = Err "open missing.yml: no such file or directory".
Proof.
  refine (proj1 (readFiles_first_failure demo_ReadFile demo_Unmarshal
                   ["a.yml"] "missing.yml" ["c.yml"] _ _ eq_refl)).
  apply Forall_singleton. reflexivity.
Defined.

(** ** The deploy command *)

Section RunDeployFacts.
Variable TrimSpace : string → string.
Variable ReadFile : string → string + string.
Variable Unmarshal : string → string + gmap string string.
Variable defaultGateway defaultNetwork : string.
Variable dockerConfig : configFile.
Variable readDockerConfig_error : option string.
Variable g : Deploy.flags.

Lemma deploy_calls_app out1 out2 :
  Deploy.deploy_calls (out1 ++ out2) = Deploy.deploy_calls out1 ++ Deploy.deploy_calls out2.
Proof. unfold Deploy.deploy_calls. apply omap_app. Qed.

(** The loop of [runDeploy]: the calls it adds, one for each function
    of a prefix of the range, and how it ends. *)
Lemma deploy_functions_spec GatewayURL Network functions : ∀ constraints out,
  ∃ new,
    Deploy.deploy_calls
      (Deploy.deploy_functions TrimSpace ReadFile Unmarshal dockerConfig g
         GatewayURL Network constraints out functions).1
    = Deploy.deploy_calls out ++ new
    ∧ (length new ≤ length functions)%nat
    ∧ ((Deploy.deploy_functions TrimSpace ReadFile Unmarshal dockerConfig g
          GatewayURL Network constraints out functions).2 = Deploy.Returns
       ↔ length new = length functions)
    ∧ ∀ i call, new !! i = Some call →
        ∃ k function RegistryAuth fileEnvironment labelArgumentMap allEnvironment,
          functions !! i = Some (k, function)
          ∧ getRegistryAuth dockerConfig (Deploy.Image function) = Ok RegistryAuth
          ∧ readFiles ReadFile Unmarshal (Deploy.EnvironmentFile function)
            = Ok fileEnvironment
          ∧ parseMap TrimSpace (Deploy.labelOpts g) "label" = Ok labelArgumentMap
          ∧ compileEnvironment TrimSpace (Deploy.envvarOpts g)
              (Deploy.Environment function) fileEnvironment = Ok allEnvironment
          ∧ call = Deploy.mkDeploy (Deploy.FProcess function) GatewayURL k
                     (Deploy.Image function) RegistryAuth (Deploy.Language function)
                     (Deploy.replace g) allEnvironment Network
                     (constraints_after constraints (take (S i) functions))
                     (Deploy.update g) (Deploy.secrets g)
                     (mergeMap (default ∅ (Deploy.Labels function)) labelArgumentMap).
Proof.
  induction functions as [|[k function] rest IH]; intros constraints out.
  { exists []. simpl. rewrite app_nil_r. split_and!; try done. }
  assert (∀ out' e, e ≠ Deploy.Returns →
    Deploy.deploy_calls out' = Deploy.deploy_calls out →
    ∃ new : list Deploy.DeployFunction_call,
      Deploy.deploy_calls (out', e).1 = Deploy.deploy_calls out ++ new
      ∧ (length new ≤ length ((k, function) :: rest))%nat
      ∧ ((out', e).2 = Deploy.Returns ↔ length new = length ((k, function) :: rest))
      ∧ ∀ i call, new !! i = Some call →
          ∃ k' function' RegistryAuth fileEnvironment labelArgumentMap allEnvironment,
            ((k, function) :: rest) !! i = Some (k', function')
            ∧ getRegistryAuth dockerConfig (Deploy.Image function') = Ok RegistryAuth
            ∧ readFiles ReadFile Unmarshal (Deploy.EnvironmentFile function')
              = Ok fileEnvironment
            ∧ parseMap TrimSpace (Deploy.labelOpts g) "label" = Ok labelArgumentMap
            ∧ compileEnvironment TrimSpace (Deploy.envvarOpts g)
                (Deploy.Environment function') fileEnvironment = Ok allEnvironment
            ∧ call = Deploy.mkDeploy (Deploy.FProcess function') GatewayURL k'
                       (Deploy.Image function') RegistryAuth (Deploy.Language function')
                       (Deploy.replace g) allEnvironment Network
                       (constraints_after constraints (take (S i) ((k, function) :: rest)))
                       (Deploy.update g) (Deploy.secrets g)
                       (mergeMap (default ∅ (Deploy.Labels function')) labelArgumentMap))
    as Hstop.
  { intros out' e He Hout. exists []. cbn [fst snd]. rewrite app_nil_r.
    split_and!; [done|simpl; lia| |done]. split; [done|]. simpl. lia. }
  assert (∀ line, Deploy.deploy_calls (out ++ [Deploy.Printed line])
                  = Deploy.deploy_calls out) as Hprinted.
  { intros line. rewrite deploy_calls_app. simpl. by rewrite app_nil_r. }
  assert (∀ line l2, Deploy.deploy_calls ((out ++ [Deploy.Printed line]) ++ [Deploy.Printed l2])
                  = Deploy.deploy_calls out) as Hprinted2.
  { intros line l2. rewrite deploy_calls_app, Hprinted. simpl. by rewrite app_nil_r. }
  assert (∀ line l2, Deploy.deploy_calls ((out ++ [Deploy.Printed line]) ++ [Deploy.Logged l2])
                  = Deploy.deploy_calls out) as Hlogged.
  { intros line l2. rewrite deploy_calls_app, Hprinted. simpl. by rewrite app_nil_r. }
  cbn [Deploy.deploy_functions].
  destruct (getRegistryAuth dockerConfig (Deploy.Image function)) as [auth| |] eqn:Hauth;
    [|by apply Hstop..].
  destruct (readFiles ReadFile Unmarshal (Deploy.EnvironmentFile function))
    as [fileEnvironment| |] eqn:Hfiles; [|by apply Hstop..].
  destruct (parseMap TrimSpace (Deploy.labelOpts g) "label")
    as [labelArgumentMap| |] eqn:Hlabels; [|by apply Hstop..].
  destruct (compileEnvironment TrimSpace (Deploy.envvarOpts g)
              (Deploy.Environment function) fileEnvironment)
    as [allEnvironment| |] eqn:Henv; [|by apply Hstop..].
  match goal with
  | |- context [Deploy.deploy_functions _ _ _ _ _ _ _ ?c ?o rest] =>
      destruct (IH c o) as (new & Hcalls & Hlen & Hret & Hnew)
  end.
  rewrite deploy_calls_app, Hprinted in Hcalls. simpl in Hcalls.
  eexists (_ :: new). split; [by rewrite Hcalls, <- app_assoc|].
  split; [simpl; lia|]. split; [rewrite Hret; simpl; lia|].
  intros [|i] call Hcall.
  - injection Hcall as <-.
    exists k, function, auth, fileEnvironment, labelArgumentMap, allEnvironment.
    by split_and!.
  - destruct (Hnew i call Hcall)
      as (k' & f' & a' & fe' & la' & ae' & Hi & Ha & Hf & Hl & He & ->).
    exists k', f', a', fe', la', ae'. by split_and!.
Qed.

Variable ParseYAMLFile_result : string + option Deploy.Services.

(** The network a YAML deployment uses. *)
Lemma runDeploy_yaml parsedServices :
  yaml_mode g ParseYAMLFile_result parsedServices →
  ∃ out0,
    Deploy.deploy_calls out0 = []
    ∧ (Deploy.runDeploy TrimSpace ReadFile Unmarshal defaultGateway defaultNetwork
       dockerConfig readDockerConfig_error ParseYAMLFile_result g)
      = Deploy.deploy_functions TrimSpace ReadFile Unmarshal dockerConfig g
          (getGatewayURL (Deploy.gateway g) defaultGateway
             (Deploy.GatewayURL (Deploy.Provider parsedServices)))
          (if (0 <? String.length (Deploy.network g))%nat
              && negb (String.eqb (Deploy.network g) defaultNetwork)
           then Deploy.network g
           else if (String.length (Deploy.Network (Deploy.Provider parsedServices)) =? 0)%nat
                then defaultNetwork
                else Deploy.Network (Deploy.Provider parsedServices))
          (Deploy.constraints g) out0 (Deploy.Functions parsedServices).
Proof.
  intros (Hflags & Hyaml & Hparse & Hfns).
  exists (match readDockerConfig_error with
          | Some err => [Deploy.Logged ("Unable to read the docker config - %v " +:+ err)]
          | None => []
          end).
  split; [by destruct readDockerConfig_error|].
  unfold Deploy.runDeploy. rewrite Hflags, Hparse.
  assert ((0 <? String.length (Deploy.yamlFile g))%nat = true) as ->
    by (by destruct (Deploy.yamlFile g)).
  unfold Deploy.deploy_services.
  cbn [Deploy.Functions Deploy.Provider Deploy.Network Deploy.GatewayURL].
  assert ((0 <? length (Deploy.Functions parsedServices))%nat = true) as ->
    by (by destruct (Deploy.Functions parsedServices)).
  destruct ((0 <? String.length (Deploy.network g))%nat
            && negb (String.eqb (Deploy.network g) defaultNetwork)) eqn:Hn; [|done].
  apply andb_prop in Hn as [Hn _].
  assert ((String.length (Deploy.network g) =? 0)%nat = false) as ->
    by (by destruct (Deploy.network g)).
  done.
Qed.

(** X17. In YAML mode the functions are deployed in the order of the
    range over the map, each at most once: the names deployed are a
    prefix of the keys.  [runDeploy] returns exactly when every
    function has been deployed; the first function that fails stops
    all the later ones. *)
Theorem runDeploy_deploys_prefix (parsedServices : Deploy.Services) :
  yaml_mode g ParseYAMLFile_result parsedServices →
  ∃ n, Deploy.arg_functionName <$> Deploy.deploy_calls (Deploy.runDeploy TrimSpace ReadFile Unmarshal defaultGateway defaultNetwork
       dockerConfig readDockerConfig_error ParseYAMLFile_result g).1
       = take n (Deploy.Functions parsedServices).*1
     ∧ (n ≤ length (Deploy.Functions parsedServices))%nat
     ∧ ((Deploy.runDeploy TrimSpace ReadFile Unmarshal defaultGateway defaultNetwork
       dockerConfig readDockerConfig_error ParseYAMLFile_result g).2 = Deploy.Returns ↔ n = length (Deploy.Functions parsedServices)).
Proof.
  intros Hmode. destruct (runDeploy_yaml parsedServices Hmode) as (out0 & Hout0 & ->).
  match goal with
  | |- context [Deploy.deploy_functions _ _ _ _ _ ?gw ?nw ?c ?o ?fs] =>
      destruct (deploy_functions_spec gw nw fs c o) as (new & -> & Hlen & Hret & Hnew)
  end.
  rewrite Hout0. cbn [app]. exists (length new). split; [|done].
  apply list_eq. intros i. rewrite list_lookup_fmap.
  destruct (new !! i) as [call|] eqn:Hi.
  - destruct (Hnew i call Hi) as (k & f & ? & ? & ? & ? & Hk & _ & _ & _ & _ & ->).
    apply lookup_lt_Some in Hi.
    rewrite lookup_take_lt by done. rewrite list_lookup_fmap, Hk. done.
  - apply lookup_ge_None in Hi. simpl. symmetry. apply lookup_ge_None.
    rewrite length_take. lia.
Qed.

(** X18. The constraints of a function of the YAML file are assigned
    to the package variable [constraints] and stay there: a function
    without constraints of its own is deployed with those of the
    nearest function before it in the range that has some, and with
    the ones of the [--constraint] flag only if there is none. *)
Theorem runDeploy_constraints_carry_over (parsedServices : Deploy.Services) :
  yaml_mode g ParseYAMLFile_result parsedServices →
  ∀ i call, Deploy.deploy_calls (Deploy.runDeploy TrimSpace ReadFile Unmarshal defaultGateway defaultNetwork
       dockerConfig readDockerConfig_error ParseYAMLFile_result g).1 !! i = Some call →
    Deploy.arg_constraints call
    = constraints_after (Deploy.constraints g)
        (take (S i) (Deploy.Functions parsedServices)).
Proof.
  intros Hmode. destruct (runDeploy_yaml parsedServices Hmode) as (out0 & Hout0 & ->).
  match goal with
  | |- context [Deploy.deploy_functions _ _ _ _ _ ?gw ?nw ?c ?o ?fs] =>
      destruct (deploy_functions_spec gw nw fs c o) as (new & -> & Hlen & Hret & Hnew)
  end.
  rewrite Hout0. cbn [app]. intros i call Hi.
  by destruct (Hnew i call Hi) as (k & f & ? & ? & ? & ? & Hk & _ & _ & _ & _ & ->).
Qed.

(** X19. What a deployment in YAML mode is made of.  Name, image,
    process and language come from the function of the YAML file, not
    from the flags.  A label given by [--label] overrides the label of
    the function; a variable is taken from [--env], else from the
    environment files, else from the function.  The network is the
    one of [--network] when that differs from the default, else the
    one of the YAML file, else the default. *)
Theorem runDeploy_yaml_call (parsedServices : Deploy.Services) :
  yaml_mode g ParseYAMLFile_result parsedServices →
  ∀ i call, Deploy.deploy_calls (Deploy.runDeploy TrimSpace ReadFile Unmarshal defaultGateway defaultNetwork
       dockerConfig readDockerConfig_error ParseYAMLFile_result g).1 !! i = Some call →
    ∃ k function labelArguments envArguments fileEnvironment,
      Deploy.Functions parsedServices !! i = Some (k, function)
      ∧ parseMap TrimSpace (Deploy.labelOpts g) "label" = Ok labelArguments
      ∧ parseMap TrimSpace (Deploy.envvarOpts g) "env" = Ok envArguments
      ∧ readFiles ReadFile Unmarshal (Deploy.EnvironmentFile function) = Ok fileEnvironment
      ∧ Deploy.arg_functionName call = k
      ∧ Deploy.arg_image call = Deploy.Image function
      ∧ Deploy.arg_fprocess call = Deploy.FProcess function
      ∧ Deploy.arg_language call = Deploy.Language function
      ∧ Deploy.arg_gateway call
        = getGatewayURL (Deploy.gateway g) defaultGateway
            (Deploy.GatewayURL (Deploy.Provider parsedServices))
      ∧ Deploy.arg_network call
        = (if (0 <? String.length (Deploy.network g))%nat
              && negb (String.eqb (Deploy.network g) defaultNetwork)
           then Deploy.network g
           else if (String.length (Deploy.Network (Deploy.Provider parsedServices)) =? 0)%nat
                then defaultNetwork
                else Deploy.Network (Deploy.Provider parsedServices))
      ∧ (∀ key, Deploy.arg_labels call !! key
                = match labelArguments !! key with
                  | Some v => Some v
                  | None => default ∅ (Deploy.Labels function) !! key
                  end)
      ∧ (∀ key, Deploy.arg_envVars call !! key
                = match envArguments !! key with
                  | Some v => Some v
                  | None => match fileEnvironment !! key with
                            | Some v => Some v
                            | None => Deploy.Environment function !! key
                            end
                  end).
Proof.
  intros Hmode. destruct (runDeploy_yaml parsedServices Hmode) as (out0 & Hout0 & ->).
  match goal with
  | |- context [Deploy.deploy_functions _ _ _ _ _ ?gw ?nw ?c ?o ?fs] =>
      destruct (deploy_functions_spec gw nw fs c o) as (new & -> & Hlen & Hret & Hnew)
  end.
  rewrite Hout0. cbn [app]. intros i call Hi.
  destruct (Hnew i call Hi)
    as (k & f & auth & fileEnv & labelArgs & allEnv & Hk & _ & Hfiles & Hlabels & Henv & ->).
  unfold compileEnvironment in Henv.
  destruct (parseMap TrimSpace (Deploy.envvarOpts g) "env") as [envArgs| |] eqn:Hargs;
    try done.
  injection Henv as <-.
  exists k, f, labelArgs, envArgs, fileEnv. cbn.
  split_and!; try done.
  - intros key. rewrite mergeMap_union, lookup_union.
    by destruct (labelArgs !! key), (default ∅ (Deploy.Labels f) !! key).
  - intros key. rewrite !mergeMap_union, !lookup_union.
    by destruct (envArgs !! key), (fileEnv !! key), (Deploy.Environment f !! key).
Qed.

(** X20. Nothing at all is deployed, in YAML mode or from flags, when
    [--update] and [--replace] are both set, or when the [--label] or
    the [--env] entries do not parse: the same entries are parsed again
    for every function, so the first function already stops the run. *)
Theorem runDeploy_refuses :
  (Deploy.update g = true ∧ Deploy.replace g = true)
  ∨ (∀ m, parseMap TrimSpace (Deploy.labelOpts g) "label" ≠ Ok m)
  ∨ (∀ m, parseMap TrimSpace (Deploy.envvarOpts g) "env" ≠ Ok m) →
  Deploy.deploy_calls (Deploy.runDeploy TrimSpace ReadFile Unmarshal defaultGateway defaultNetwork
       dockerConfig readDockerConfig_error ParseYAMLFile_result g).1 = [].
Proof.
  intros Hbad. unfold Deploy.runDeploy.
  destruct (Deploy.update g && Deploy.replace g) eqn:Hur; [done|].
  assert ((∀ m, parseMap TrimSpace (Deploy.labelOpts g) "label" ≠ Ok m)
          ∨ (∀ m, parseMap TrimSpace (Deploy.envvarOpts g) "env" ≠ Ok m)) as Hbad'.
  { destruct Hbad as [[Hu Hr]|Hbad]; [|done]. by rewrite Hu, Hr in Hur. }
  clear Hbad.
  assert (∀ out services, Deploy.deploy_calls out = [] →
    Deploy.deploy_calls
      (Deploy.deploy_services TrimSpace ReadFile Unmarshal defaultNetwork dockerConfig g
         out services).1 = []) as Hservices.
  { intros out services Hout.
    assert (∀ line, Deploy.deploy_calls (out ++ [Deploy.Printed line]) = []) as Hp.
    { intros line. by rewrite deploy_calls_app, Hout. }
    unfold Deploy.deploy_services.
    destruct (0 <? length (Deploy.Functions services))%nat.
    - match goal with
      | |- context [Deploy.deploy_functions _ _ _ _ _ ?gw ?nw ?c ?o ?fs] =>
          destruct (deploy_functions_spec gw nw fs c o) as (new & -> & _ & _ & Hnew)
      end.
      rewrite Hout. destruct new as [|call new]; [done|].
      destruct (Hnew 0%nat call eq_refl)
        as (k & f & ? & fileEnv & labelArgs & ? & _ & _ & _ & Hlabels & Henv & _).
      destruct Hbad' as [Hl|He]; [by destruct (Hl labelArgs)|].
      unfold compileEnvironment in Henv.
      destruct (parseMap TrimSpace (Deploy.envvarOpts g) "env") as [envArgs| |] eqn:Hargs;
        try done.
      by destruct (He envArgs).
    - unfold Deploy.deploy_from_flags.
      destruct (String.length (Deploy.image g) =? 0)%nat; [apply Hp|].
      destruct (String.length (Deploy.functionName g) =? 0)%nat; [apply Hp|].
      destruct (getRegistryAuth dockerConfig (Deploy.image g)); try done.
      destruct (parseMap TrimSpace (Deploy.envvarOpts g) "env") as [envvars| |] eqn:He;
        [|apply Hp|done].
      destruct (parseMap TrimSpace (Deploy.labelOpts g) "label") as [labels| |] eqn:Hl;
        [|apply Hp|done].
      destruct Hbad' as [Hl'|He']; [by destruct (Hl' labels)|by destruct (He' envvars)]. }
  assert (Deploy.deploy_calls
            match readDockerConfig_error with
            | Some err => [Deploy.Logged ("Unable to read the docker config - %v " +:+ err)]
            | None => []
            end = []) as Hout0 by (by destruct readDockerConfig_error).
  destruct (0 <? String.length (Deploy.yamlFile g))%nat; [|by apply Hservices].
  destruct ParseYAMLFile_result as [err|[parsed|]]; [|by apply Hservices|done].
  cbn [fst]. by rewrite deploy_calls_app, Hout0.
Qed.
End RunDeployFacts.

Lemma demo_yaml_mode :
  yaml_mode demo_deploy_flags
    (inr (Some (demo_stack [("a", demo_a); ("b", demo_b); ("c", demo_c)])))
    (demo_stack [("a", demo_a); ("b", demo_b); ("c", demo_c)]).
Proof. by repeat split. Defined.

Lemma runDeploy_deploys_prefix_witness :
  ∃ n, Deploy.arg_functionName
         <$> Deploy.deploy_calls
               (demo_runDeploy demo_deploy_flags
                  [("a", demo_a); ("b", demo_b); ("c", demo_c)]).1
       = take n ["a"; "b"; "c"]
     ∧ (n ≤ 3)%nat
     ∧ ((demo_runDeploy demo_deploy_flags
           [("a", demo_a); ("b", demo_b); ("c", demo_c)]).2 = Deploy.Returns ↔ n = 3%nat).
Proof.
  exact (runDeploy_deploys_prefix TrimSpace_ascii demo_ReadFile demo_Unmarshal
           "http://127.0.0.1:8080" "func_functions" (mkConfigFile ∅ "") None
           demo_deploy_flags _ _ demo_yaml_mode).
Defined.

Lemma runDeploy_constraints_carry_over_witness :
  ∃ call,
    Deploy.deploy_calls
      (demo_runDeploy demo_deploy_flags [("a", demo_a); ("b", demo_b); ("c", demo_c)]).1
    !! 2%nat = Some call
    ∧ Deploy.arg_constraints call = ["node.role==worker"].
Proof.
  destruct (lookup_lt_is_Some_2
              (Deploy.deploy_calls
                 (demo_runDeploy demo_deploy_flags
                    [("a", demo_a); ("b", demo_b); ("c", demo_c)]).1) 2)
    as [call Hcall]; [vm_compute; lia|].
  exists call. split; [exact Hcall|].
  rewrite (runDeploy_constraints_carry_over TrimSpace_ascii demo_ReadFile demo_Unmarshal
             "http://127.0.0.1:8080" "func_functions" (mkConfigFile ∅ "") None
             demo_deploy_flags _ _ demo_yaml_mode 2%nat call Hcall).
  reflexivity.
Defined.

(** The same manifest ranged over in two orders: [a] and [c] inherit
    the constraints of [b] when they come after it. *)
Example constraints_depend_on_order :
  (λ call, (Deploy.arg_functionName call, Deploy.arg_constraints call))
    <$> Deploy.deploy_calls
          (demo_runDeploy demo_deploy_flags
             [("a", demo_a); ("b", demo_b); ("c", demo_c)]).1
  = [("a", ["flag.constraint==1"]); ("b", ["node.role==worker"]);
     ("c", ["node.role==worker"])]
  ∧ (λ call, (Deploy.arg_functionName call, Deploy.arg_constraints call))
      <$> Deploy.deploy_calls
            (demo_runDeploy demo_deploy_flags
               [("b", demo_b); ("c", demo_c); ("a", demo_a)]).1
    = [("b", ["node.role==worker"]); ("c", ["node.role==worker"]);
       ("a", ["node.role==worker"])].
Proof. split; by vm_compute. Qed.

Lemma runDeploy_yaml_call_witness :
  ∃ call,
    Deploy.deploy_calls
      (demo_runDeploy demo_deploy_flags [("a", demo_a); ("b", demo_b); ("c", demo_c)]).1
    !! 1%nat = Some call
    ∧ Deploy.arg_functionName call = "b"
    ∧ Deploy.arg_image call = "registry/user/b"
    ∧ Deploy.arg_network call = "func_functions"
    ∧ Deploy.arg_labels call !! "canary" = Some "true"
    ∧ Deploy.arg_labels call !! "team" = Some "x"
    ∧ Deploy.arg_envVars call !! "STAGE" = Some "prod"
    ∧ Deploy.arg_envVars call !! "B" = Some "2".
Proof.
  destruct (lookup_lt_is_Some_2
              (Deploy.deploy_calls
                 (demo_runDeploy demo_deploy_flags
                    [("a", demo_a); ("b", demo_b); ("c", demo_c)]).1) 1)
    as [call Hcall]; [vm_compute; lia|].
  exists call. split; [exact Hcall|].
  destruct (runDeploy_yaml_call TrimSpace_ascii demo_ReadFile demo_Unmarshal
              "http://127.0.0.1:8080" "func_functions" (mkConfigFile ∅ "") None
              demo_deploy_flags _ _ demo_yaml_mode 1%nat call Hcall)
    as (k & function & labelArguments & envArguments & fileEnvironment
        & Hk & Hlabels & Henv & Hfiles & -> & -> & _ & _ & _ & -> & Hl & He).
  injection Hk as <- <-.
  assert (labelArguments = {[ "canary" := "true" ]}) as ->.
  { assert (parseMap TrimSpace_ascii (Deploy.labelOpts demo_deploy_flags) "label"
            = Ok {[ "canary" := "true" ]}) as Hp by (by vm_compute).
    rewrite Hp in Hlabels. by injection Hlabels as <-. }
  assert (envArguments = {[ "STAGE" := "prod" ]}) as ->.
  { assert (parseMap TrimSpace_ascii (Deploy.envvarOpts demo_deploy_flags) "env"
            = Ok {[ "STAGE" := "prod" ]}) as Hp by (by vm_compute).
    rewrite Hp in Henv. by injection Henv as <-. }
  assert (fileEnvironment = {[ "B" := "2" ]} ∪ ({[ "A" := "1"; "B" := "1" ]} ∪ ∅)) as ->.
  { assert (readFiles demo_ReadFile demo_Unmarshal (Deploy.EnvironmentFile demo_b)
            = Ok ({[ "B" := "2" ]} ∪ ({[ "A" := "1"; "B" := "1" ]} ∪ ∅))) as Hp
      by (by vm_compute).
    rewrite Hp in Hfiles. by injection Hfiles as <-. }
  rewrite !Hl, !He. by vm_compute.
Defined.

Lemma runDeploy_refuses_witness :
  Deploy.deploy_calls
    (demo_runDeploy
       (Deploy.mkFlags false false "stack.yml" "" "" "" "" "" "" [] ["canary"] [] [])
       [("a", demo_a); ("b", demo_b); ("c", demo_c)]).1 = [].
Proof.
  apply runDeploy_refuses. right. left. intros m. by vm_compute.
Defined.

(** ** The change filter of [up] *)

Lemma substring_split k : ∀ s, (k ≤ String.length s)%nat →
  s = substring 0 k s +:+ substring k (String.length s - k) s.
Proof.
  induction k as [|k IH]; intros s Hk.
  - rewrite Nat.sub_0_r, substring_all. by destruct s.
  - destruct s as [|c s]; simpl in Hk; [lia|].
    change (String c s = String c (substring 0 k s +:+ substring k (String.length s - k) s)).
    f_equal. apply IH. lia.
Qed.

Lemma substring_drop a : ∀ b,
  substring (String.length a) (String.length b) (a +:+ b) = b.
Proof. induction a as [|c a IH]; intros b; simpl; [apply substring_all|apply IH]. Qed.

Lemma HasSuffix_spec s suffix :
  HasSuffix s suffix = true ↔ ∃ p, s = p +:+ suffix.
Proof.
  unfold HasSuffix. rewrite andb_true_iff, Nat.leb_le, String.eqb_eq. split.
  - intros [Hlen Hsub].
    exists (substring 0 (String.length s - String.length suffix) s).
    pose proof (substring_split (String.length s - String.length suffix) s) as Hsplit.
    replace (String.length s - (String.length s - String.length suffix))%nat
      with (String.length suffix) in Hsplit by lia.
    rewrite Hsub in Hsplit. apply Hsplit. lia.
  - intros [p ->]. rewrite length_append. split; [lia|].
    replace (String.length p + String.length suffix - String.length suffix)%nat
      with (String.length p) by lia.
    apply substring_drop.
Qed.

(** X21. [skipIgnoredSuffix] ignores an event exactly when its name
    ends with one of the suffixes.  The test is on the bytes of the
    whole name, not on a path component: under the suffixes of
    [upHandler] a change to a file [rebuild] is ignored as well. *)
Theorem skipIgnoredSuffix_spec (name : string) (suffixes : list string) :
  skipIgnoredSuffix name suffixes = true
  ↔ ∃ suffix p, suffix ∈ suffixes ∧ name = p +:+ suffix.
Proof.
  induction suffixes as [|suffix rest IH]; simpl.
  - split; [done|]. by intros (? & ? & ?%elem_of_nil & _).
  - destruct (HasSuffix name suffix) eqn:Hs.
    + split; [|done]. intros _. apply HasSuffix_spec in Hs as [p Hp].
      exists suffix, p. split; [apply list_elem_of_here|done].
    + rewrite IH. split.
      * intros (sfx & p & Hin & Hp). exists sfx, p.
        split; [by apply list_elem_of_further|done].
      * intros (sfx & p & Hin & Hp). apply elem_of_cons in Hin as [->|Hin].
        -- assert (HasSuffix name suffix = true) as Ht by (apply HasSuffix_spec; eauto).
           congruence.
        -- by exists sfx, p.
Qed.

Example skipIgnoredSuffix_rebuild :
  skipIgnoredSuffix "/src/fn/rebuild" ignoredSuffixes = true
  ∧ skipIgnoredSuffix "/src/fn/build/handler.go" ignoredSuffixes = false.
Proof. by vm_compute. Qed.
